(** * Dendron workspace utilities: cross-reference cache and link rewriting

    A shallow embedding of the reference utilities of the Dendron plugin
    ([containsMarkdownExt], [escapeForRegExp], [findUriByRef], [parseRef],
    [cacheUris], [cacheRefs], [findDanglingRefsByFsPath],
    [extractDanglingRefs], [matchAll], [replaceRefs]) together with the
    part of the JavaScript run time they rely on: strings, the backtracking
    regular-expression matcher, [String.prototype.replace], insertion-ordered
    objects and sets, and POSIX [path.parse].

    Strings are lists of code units.  The development covers the code units
    U+0000 to U+00FF, which the type [ascii] enumerates. *)

From Stdlib Require Import Ascii String.
From Stdlib Require Import List Bool Arith Lia Permutation Sorted.
Import ListNotations.

Local Open Scope list_scope.
Local Open Scope bool_scope.

(** ** Strings *)

Definition jsstring := list ascii.

(** A string literal of the source, as a list of code units. *)
Definition str (s : string) : jsstring := list_ascii_of_string s.

Definition code (c : ascii) : nat := nat_of_ascii c.

Definition in_range (lo hi : nat) (c : ascii) : bool :=
  (lo <=? code c) && (code c <=? hi).

Definition shift_code (f : nat -> nat) (c : ascii) : ascii :=
  ascii_of_nat (f (code c)).

(** [String.prototype.toLowerCase] on one code unit: A-Z and the Latin-1
    capitals U+00C0..U+00DE (without the multiplication sign U+00D7) move up
    by 32. *)
Definition lower_char (c : ascii) : ascii :=
  if in_range 65 90 c || (in_range 192 222 c && negb (code c =? 215))
  then shift_code (fun n => n + 32) c
  else c.

Definition toLowerCase (s : jsstring) : jsstring := map lower_char s.

(** [Canonicalize] of the regular-expression semantics when the [i] flag is
    set and the [u] flag is not: the code unit is upper-cased.  a-z and the
    Latin-1 small letters U+00E0..U+00FE (without the division sign U+00F7)
    move down by 32.  The upper-case forms of U+00B5 and U+00FF lie outside
    Latin-1 and are the upper-case form of no other Latin-1 unit, and U+00DF
    upper-cases to two units, so these three stay as they are. *)
Definition canonicalize (c : ascii) : ascii :=
  if in_range 97 122 c || (in_range 224 254 c && negb (code c =? 247))
  then shift_code (fun n => n - 32) c
  else c.

(** The class [\s], also the characters lodash's [_.trim] removes: tab, line
    feed, vertical tab, form feed, carriage return, space, no-break space. *)
Definition is_space (c : ascii) : bool :=
  in_range 9 13 c || (code c =? 32) || (code c =? 160).

(** The line terminators, which [.] does not match. *)
Definition is_line_terminator (c : ascii) : bool :=
  (code c =? 10) || (code c =? 13).

Definition is_dot (c : ascii) : bool := negb (is_line_terminator c).

(** The class [[^\[\]]] of [refPattern]. *)
Definition not_bracket (c : ascii) : bool :=
  negb ((code c =? 91) || (code c =? 93)).

Fixpoint trimStart (s : jsstring) : jsstring :=
  match s with
  | c :: tl => if is_space c then trimStart tl else s
  | [] => []
  end.

Definition trimEnd (s : jsstring) : jsstring := rev (trimStart (rev s)).

(** lodash [_.trim(string)] with no [chars] argument. *)
Definition trim (s : jsstring) : jsstring := trimStart (trimEnd s).

Fixpoint jsstring_eqb (a b : jsstring) : bool :=
  match a, b with
  | [], [] => true
  | x :: a', y :: b' => Ascii.eqb x y && jsstring_eqb a' b'
  | _, _ => false
  end.

(** [String.prototype.indexOf] for a one-character needle; [None] is -1. *)
Fixpoint indexOf (c : ascii) (s : jsstring) : option nat :=
  match s with
  | [] => None
  | x :: tl => if Ascii.eqb x c then Some 0 else option_map S (indexOf c tl)
  end.

(** [s.slice(from, to)] for [0 <= from] and [0 <= to]. *)
Definition slice (from to : nat) (s : jsstring) : jsstring :=
  firstn (to - from) (skipn from s).

(** ** The regular-expression matcher

    The matcher follows the continuation semantics of the language
    definition: a matcher takes a state and a continuation and returns the
    final state or failure, and the first alternative that leads to success
    wins.  Every regular expression of the source carries the [i] flag, so
    pattern characters are compared under [canonicalize].  The classes the
    source uses ([\s], [.], [[^\[\]]]) contain no letters whose case partner
    is outside the class, so a class is a plain predicate. *)

Record MatchState := mkState {
  rest : jsstring;                       (* the input from endIndex on *)
  captures : list (nat * jsstring)       (* the defined captures *)
}.

Definition Continuation := MatchState -> option MatchState.

Inductive Regex :=
| Empty
| Eos                                    (* the assertion $ (no m flag) *)
| Chr (c : ascii)                        (* a pattern character *)
| Cls (p : ascii -> bool)                (* a character class *)
| Seq (r1 r2 : Regex)
| Group (i : nat) (r : Regex)            (* the i-th capturing group *)
| Rep (min : nat) (max : option nat) (greedy : bool) (r : Regex).

Fixpoint groups (r : Regex) : list nat :=
  match r with
  | Seq r1 r2 => groups r1 ++ groups r2
  | Group i r1 => i :: groups r1
  | Rep _ _ _ r1 => groups r1
  | _ => []
  end.

Definition advance (x : MatchState) (tl : jsstring) : MatchState :=
  mkState tl (captures x).

(** The text between the end index of [x] and the later end index of [y]. *)
Definition consumed (x y : MatchState) : jsstring :=
  firstn (length (rest x) - length (rest y)) (rest x).

Definition set_capture (i : nat) (s : jsstring) (y : MatchState) : MatchState :=
  mkState (rest y) ((i, s) :: filter (fun e => negb (fst e =? i)) (captures y)).

Definition clear_captures (gs : list nat) (x : MatchState) : MatchState :=
  mkState (rest x)
          (filter (fun e => negb (existsb (Nat.eqb (fst e)) gs)) (captures x)).

Fixpoint get_capture (i : nat) (caps : list (nat * jsstring)) : option jsstring :=
  match caps with
  | [] => None
  | (j, s) :: tl => if j =? i then Some s else get_capture i tl
  end.

Definition max_is_zero (max : option nat) : bool :=
  match max with Some 0 => true | _ => false end.

Definition Matcher := Continuation -> MatchState -> option MatchState.

(** RepeatMatcher for the atom matcher [m] whose capturing groups are [gs]:
    an iteration that starts with [min = 0] and consumes nothing fails, the
    captures of the groups inside the atom are cleared before every
    iteration, and a greedy quantifier tries one more iteration before the
    continuation, a lazy one after it.  Every iteration lowers [min] or
    consumes a character, so [min + length (rest x) + 1] units of [fuel] are
    never used up. *)
Fixpoint RepeatMatcher (m : Matcher) (gs : list nat) (greedy : bool)
    (k : Continuation) (fuel min : nat) (max : option nat) (x : MatchState)
    {struct fuel} : option MatchState :=
  match fuel with
  | 0 => None
  | S fuel' =>
      if max_is_zero max then k x
      else
        let d := fun y : MatchState =>
          if (min =? 0) && (length (rest y) =? length (rest x))
          then None
          else RepeatMatcher m gs greedy k fuel' (pred min)
                             (option_map pred max) y in
        let xr := clear_captures gs x in
        if negb (min =? 0) then m d xr
        else if greedy then
          match m d xr with
          | Some z => Some z
          | None => k x
          end
        else
          match k x with
          | Some z => Some z
          | None => m d xr
          end
  end.

(** [rmatch r k x]: the matcher of [r] applied to continuation [k] and
    state [x]. *)
Fixpoint rmatch (r : Regex) (k : Continuation) (x : MatchState) {struct r}
  : option MatchState :=
  match r with
  | Empty => k x
  | Eos => match rest x with [] => k x | _ :: _ => None end
  | Chr c =>
      match rest x with
      | ch :: tl =>
          if Ascii.eqb (canonicalize ch) (canonicalize c)
          then k (advance x tl) else None
      | [] => None
      end
  | Cls p =>
      match rest x with
      | ch :: tl => if p ch then k (advance x tl) else None
      | [] => None
      end
  | Seq r1 r2 => rmatch r1 (rmatch r2 k) x
  | Group i r1 => rmatch r1 (fun y => k (set_capture i (consumed x y) y)) x
  | Rep min max greedy r1 =>
      RepeatMatcher (rmatch r1) (groups r1) greedy k
                    (S (min + length (rest x))) min max x
  end.

(** A pattern text without syntax characters: one [Chr] per character. *)
Fixpoint lit (s : jsstring) : Regex :=
  match s with
  | [] => Empty
  | c :: tl => Seq (Chr c) (lit tl)
  end.

Definition star (greedy : bool) (r : Regex) : Regex := Rep 0 None greedy r.
Definition plus (greedy : bool) (r : Regex) : Regex := Rep 1 None greedy r.
Definition opt (r : Regex) : Regex := Rep 0 (Some 1) true r.

(** The result of [exec]: the text before the match (its length is the
    match index), the matched text [$0], the captures and the text after. *)
Record MatchResult := mkResult {
  before : jsstring;
  matched : jsstring;
  groups_of : list (nat * jsstring);
  after : jsstring
}.

Definition shift_result (c : ascii) (m : MatchResult) : MatchResult :=
  mkResult (c :: before m) (matched m) (groups_of m) (after m).

Definition match_here (r : Regex) (s : jsstring) : option MatchResult :=
  match rmatch r Some (mkState s []) with
  | Some y =>
      Some (mkResult [] (firstn (length s - length (rest y)) s)
                     (captures y) (rest y))
  | None => None
  end.

(** RegExpBuiltinExec from [lastIndex = 0]: the match is tried at every
    index from left to right, the end of the input included. *)
Fixpoint regexp_exec (r : Regex) (s : jsstring) : option MatchResult :=
  match match_here r s with
  | Some m => Some m
  | None =>
      match s with
      | [] => None
      | c :: tl => option_map (shift_result c) (regexp_exec r tl)
      end
  end.

(** [s.replace(new RegExp(r, "gi"), f)] with a function replacer [f], which
    receives [$0] and the captures.  After an empty match the search resumes
    one character further.  [fuel] bounds the number of matches. *)
Fixpoint replace_loop (fuel : nat) (r : Regex)
    (f : jsstring -> list (nat * jsstring) -> jsstring) (s : jsstring)
  : jsstring :=
  match fuel with
  | 0 => s
  | S n =>
      match regexp_exec r s with
      | None => s
      | Some m =>
          before m ++ f (matched m) (groups_of m) ++
          match matched m with
          | [] => match after m with
                  | [] => []
                  | c :: tl => c :: replace_loop n r f tl
                  end
          | _ :: _ => replace_loop n r f (after m)
          end
      end
  end.

Definition replace_all (r : Regex)
    (f : jsstring -> list (nat * jsstring) -> jsstring) (s : jsstring)
  : jsstring :=
  replace_loop (S (length s)) r f s.

(** ** Insertion-ordered objects and sets *)

(** [o[k] = v] on an object whose keys are not array indices: a new key goes
    last, an existing key keeps its place. *)
Fixpoint obj_set {V : Type} (k : jsstring) (v : V) (o : list (jsstring * V))
  : list (jsstring * V) :=
  match o with
  | [] => [(k, v)]
  | (k', v') :: tl =>
      if jsstring_eqb k' k then (k, v) :: tl else (k', v') :: obj_set k v tl
  end.

Fixpoint obj_get {V : Type} (k : jsstring) (o : list (jsstring * V)) : option V :=
  match o with
  | [] => None
  | (k', v') :: tl => if jsstring_eqb k' k then Some v' else obj_get k tl
  end.

Definition obj_values {V : Type} (o : list (jsstring * V)) : list V :=
  map snd o.

Definition set_has (x : jsstring) (s : list jsstring) : bool :=
  existsb (jsstring_eqb x) s.

Definition set_add (s : list jsstring) (x : jsstring) : list jsstring :=
  if set_has x s then s else s ++ [x].

(** [Array.from(new Set(l))]: the elements in the order of their first
    insertion. *)
Definition array_from_set (l : list jsstring) : list jsstring :=
  fold_left set_add l [].

(** ** POSIX [path] *)

Definition is_slash (c : ascii) : bool := code c =? 47.
Definition is_period (c : ascii) : bool := code c =? 46.

Fixpoint take_until (p : ascii -> bool) (s : jsstring) : jsstring :=
  match s with
  | c :: tl => if p c then [] else c :: take_until p tl
  | [] => []
  end.

Fixpoint drop_until (p : ascii -> bool) (s : jsstring) : jsstring :=
  match s with
  | c :: tl => if p c then s else drop_until p tl
  | [] => []
  end.

Fixpoint drop_while (p : ascii -> bool) (s : jsstring) : jsstring :=
  match s with
  | c :: tl => if p c then drop_while p tl else s
  | [] => []
  end.

(** [path.basename(p)]: the last component, trailing separators ignored. *)
Definition basename (p : jsstring) : jsstring :=
  rev (take_until is_slash (drop_while is_slash (rev p))).

(** The extension of a base name: from its last period on, unless the base
    has no period, starts with its last period, or is [..].  (For the one
    path [/..] Node reports the extension [.]; neither answer is a markdown
    extension.) *)
Definition ext_of_base (b : jsstring) : jsstring :=
  match drop_until is_period (rev b) with
  | [] => []
  | _ :: [] => []
  | period :: _ :: _ =>
      if jsstring_eqb b (str "..") then []
      else period :: rev (take_until is_period (rev b))
  end.

(** [path.parse(p).ext] and [path.parse(p).name]. *)
Definition parse_ext (p : jsstring) : jsstring := ext_of_base (basename p).

Definition parse_name (p : jsstring) : jsstring :=
  firstn (length (basename p) - length (parse_ext p)) (basename p).

(** ** The source: patterns and small utilities *)

Definition isSome {A : Type} (o : option A) : bool :=
  match o with Some _ => true | None => false end.

(** [const markdownExtRegex = /\.md$/i]. *)
Definition markdownExtRegex : Regex := Seq (lit (str ".md")) Eos.

Definition containsMarkdownExt (pathParam : jsstring) : bool :=
  isSome (regexp_exec markdownExtRegex (parse_ext pathParam)).

(** [refPattern = "(\\[\\[)([^\\[\\]]+?)(\\]\\])"], compiled with the flags [gi]. *)
Definition refPattern : Regex :=
  Seq (Group 1 (lit (str "[[")))
      (Seq (Group 2 (plus false (Cls not_bracket)))
           (Group 3 (lit (str "]]")))).

Definition refRegexp : Regex := refPattern.

(** The characters of the class [[.*+?^${}()|[\]\\]]: the syntax characters
    of the pattern language. *)
Definition is_syntax_char (c : ascii) : bool :=
  existsb (Ascii.eqb c) (str ".*+?^${}()|[]\").

Definition backslash : ascii := ascii_of_nat 92.

(** [value.replace(/[.*+?^${}()|[\]\\]/g, "\\$&")]. *)
Fixpoint escapeForRegExp (value : jsstring) : jsstring :=
  match value with
  | [] => []
  | c :: tl =>
      if is_syntax_char c then backslash :: c :: escapeForRegExp tl
      else c :: escapeForRegExp tl
  end.

(** The pattern text that [escapeForRegExp] produces, read as a regular
    expression: a backslash and the character after it stand for that
    character, any other character for itself.  This is the reading of a
    text in which every syntax character follows a backslash, the only
    texts that [replaceRefs] puts into its pattern; [read_pattern] below
    reads a pattern text with its operators. *)
Fixpoint pattern_of_escaped (s : jsstring) : Regex :=
  match s with
  | [] => Empty
  | c :: tl =>
      if Ascii.eqb c backslash then
        match tl with
        | e :: tl' => Seq (Chr e) (pattern_of_escaped tl')
        | [] => Empty
        end
      else Seq (Chr c) (pattern_of_escaped tl)
  end.

(** ** The source: references and the workspace cache *)

Record RefT := mkRef { ref : jsstring; label : jsstring }.

Definition divider : ascii := ascii_of_nat 124.

Definition parseRef (rawRef : jsstring) : RefT :=
  match indexOf divider rawRef with
  | None => mkRef (trim rawRef) (trim rawRef)
  | Some dividerPosition =>
      mkRef (trim (slice (dividerPosition + 1) (length rawRef) rawRef))
            (trim (slice 0 dividerPosition rawRef))
  end.

(** A [vscode.Uri] of the file scheme is its [fsPath], which on POSIX is
    also its [path]. *)
Definition Uri := jsstring.

(** [Uri.joinPath(base, name)] for a file name [name]. *)
Definition joinPath (base : Uri) (name : jsstring) : Uri :=
  base ++ str "/" ++ name.

Definition findUriByRef (uris : list Uri) (ref : jsstring) : option Uri :=
  find (fun uri =>
          let name := toLowerCase (parse_name uri) in
          containsMarkdownExt (basename uri) &&
          jsstring_eqb name (toLowerCase ref))
       uris.

(** The fields of a note that the cache reads, and its identity. *)
Record NoteProps := mkNote {
  id : jsstring;
  fname : jsstring;
  stub : bool;
  children : list jsstring
}.

Record WorkspaceCache := mkCache {
  imageUris : list Uri;
  markdownUris : list Uri;
  otherUris : list Uri;
  allUris : list Uri;
  danglingRefsByFsPath : list (jsstring * list jsstring);
  danglingRefs : list jsstring
}.

(** The initial value of the module-level [workspaceCache]. *)
Definition workspaceCache0 : WorkspaceCache := mkCache [] [] [] [] [] [].

(** Modelled from the spec: [sortPaths] is the [sort] of the package
    cross-path-sort, which is not part of the sources.  With [shallowFirst]
    the spec gives the order as: shorter hierarchical depth first, ties
    broken by the lexical order of the path.  The depth of a path is its
    number of separators, and the lexical order compares code units. *)
Definition path_depth (p : jsstring) : nat :=
  length (filter is_slash p).

Fixpoint lex_leb (a b : jsstring) : bool :=
  match a, b with
  | [], _ => true
  | _ :: _, [] => false
  | x :: a', y :: b' =>
      (code x <? code y) || ((code x =? code y) && lex_leb a' b')
  end.

Definition path_leb (a b : jsstring) : bool :=
  (path_depth a <? path_depth b) ||
  ((path_depth a =? path_depth b) && lex_leb a b).

Fixpoint insert_path (x : jsstring) (l : list jsstring) : list jsstring :=
  match l with
  | [] => [x]
  | y :: tl => if path_leb x y then x :: l else y :: insert_path x tl
  end.

Definition sortPaths (paths : list jsstring) : list jsstring :=
  fold_right insert_path [] paths.

(** [cacheUris]: the uris of the notes that are not stubs, below the root of
    the workspace, in shallow-first order.  [notes] is
    [_.values(engine.notes)] and [root] the path of the root workspace. *)
Definition cacheUris (root : Uri) (notes : list NoteProps)
    (cache : WorkspaceCache) : WorkspaceCache :=
  let markdownUris :=
    map (fun n => joinPath root (fname n ++ str ".md"))
        (filter (fun n => negb (stub n)) notes) in
  mkCache (imageUris cache)
          (sortPaths markdownUris)
          (otherUris cache)
          (sortPaths markdownUris)
          (danglingRefsByFsPath cache)
          (danglingRefs cache).

(** [matchAll(pattern, text)] for a pattern with the flag [g], as its
    caller [extractDanglingRefs] passes it: [exec] is repeated from the end
    of the last match until it fails; [before] of every result is counted
    from there.  The loop of the source does not end when the pattern
    matches the empty string; [fuel] bounds the number of matches.
    [matchAll_rounds] below is the loop for a pattern with or without the
    flag. *)
Fixpoint matchAll_loop (fuel : nat) (pattern : Regex) (text : jsstring)
  : list MatchResult :=
  match fuel with
  | 0 => []
  | S n =>
      match regexp_exec pattern text with
      | None => []
      | Some m => m :: matchAll_loop n pattern (after m)
      end
  end.

Definition matchAll (pattern : Regex) (text : jsstring) : list MatchResult :=
  matchAll_loop (S (length text)) pattern text.

Definition starts_with_lf (s : jsstring) : bool :=
  match s with
  | c :: _ => code c =? 10
  | [] => false
  end.

(** [content.split(/\r?\n/g)]. *)
Fixpoint split_lines (content : jsstring) : list jsstring :=
  match content with
  | [] => [[]]
  | c :: tl =>
      if code c =? 10 then [] :: split_lines tl
      else if (code c =? 13) && starts_with_lf tl then split_lines tl
      else
        match split_lines tl with
        | l :: ls => (c :: l) :: ls
        | [] => [[c]]
        end
  end.

(** The references that one match of [refRegexp] pushes on [refs]: the
    parsed [ref] of the second group when it resolves to no uri. *)
Definition pushed_by_match (cache : WorkspaceCache) (m : MatchResult)
  : list jsstring :=
  match get_capture 2 (groups_of m) with
  | Some (c :: tl) =>
      let r := ref (parseRef (c :: tl)) in
      if isSome (findUriByRef (allUris cache) r) then [] else [r]
  | _ => []
  end.

(** The array [refs] of [extractDanglingRefs] when both loops have ended. *)
Definition pushed_refs (cache : WorkspaceCache) (content : jsstring)
  : list jsstring :=
  flat_map (fun lineText =>
              flat_map (pushed_by_match cache) (matchAll refRegexp lineText))
           (split_lines content).

Definition extractDanglingRefs (cache : WorkspaceCache) (content : jsstring)
  : list jsstring :=
  array_from_set (pushed_refs cache content).

(** What the scan reads from its surroundings: the file system and the
    open text documents of the editor. *)
Record Host := mkHost {
  existsSync : jsstring -> bool;
  isDirectory : jsstring -> bool;          (* fs.lstatSync(p).isDirectory() *)
  readFileSync : jsstring -> jsstring;
  textDocuments : list (jsstring * jsstring)   (* fsPath and getText() *)
}.

Definition skipped (h : Host) (fsPath : jsstring) : bool :=
  negb (existsSync h fsPath) ||
  negb (containsMarkdownExt fsPath) ||
  (existsSync h fsPath && isDirectory h fsPath).

Definition text_of (h : Host) (fsPath : jsstring) : jsstring :=
  match find (fun doc => jsstring_eqb (fst doc) fsPath) (textDocuments h) with
  | Some doc => snd doc
  | None => readFileSync h fsPath
  end.

Definition findDanglingRefsByFsPath (h : Host) (cache : WorkspaceCache)
    (uris : list Uri) : list (jsstring * list jsstring) :=
  fold_left
    (fun refsByFsPath fsPath =>
       if skipped h fsPath then refsByFsPath
       else
         let refs := extractDanglingRefs cache (text_of h fsPath) in
         match refs with
         | _ :: _ => obj_set fsPath refs refsByFsPath
         | [] => refsByFsPath
         end)
    uris [].

Definition cacheRefs (h : Host) (cache : WorkspaceCache) : WorkspaceCache :=
  let byFsPath := findDanglingRefsByFsPath h cache (markdownUris cache) in
  mkCache (imageUris cache) (markdownUris cache) (otherUris cache)
          (allUris cache)
          byFsPath
          (sortPaths
             (array_from_set (flat_map (fun refs => refs) (obj_values byFsPath)))).

Definition cacheWorkspace (h : Host) (root : Uri) (notes : list NoteProps)
    (cache : WorkspaceCache) : WorkspaceCache :=
  cacheRefs h (cacheUris root notes cache).

(** ** The source: rewriting references *)

Record Rename := mkRename { old : jsstring; new : jsstring }.

(** The regular expression of the template
    [\\[\\[\\s*?(.*\\|)?\\s*${oldRef}\\s*\\]\\]], where [oldRef] is the
    escaped old reference. *)
Definition renamePattern (oldRef : jsstring) : Regex :=
  Seq (lit (str "[["))
  (Seq (star false (Cls is_space))
  (Seq (opt (Group 1 (Seq (star true (Cls is_dot)) (Chr divider))))
  (Seq (star true (Cls is_space))
  (Seq (pattern_of_escaped oldRef)
  (Seq (star true (Cls is_space))
       (lit (str "]]"))))))).

(** The replacer function: [`[[${_.trim($1) || ""}${ref.new}]]`]. *)
Definition replacement (r : Rename) (m0 : jsstring)
    (caps : list (nat * jsstring)) : jsstring :=
  str "[[" ++
  match get_capture 1 caps with
  | Some g => trim g
  | None => []
  end ++ new r ++ str "]]".

(** [replaceRefs({refs, content})] without the optional hooks [onMatch] and
    [onReplace]; [None] is [null]. *)
Definition replaceRefs (refs : list Rename) (content : jsstring)
  : option jsstring :=
  let '(updatedOnce, nextContent) :=
    fold_left
      (fun (acc : bool * jsstring) (r : Rename) =>
         let '(updatedOnce, nextContent) := acc in
         let oldRef := escapeForRegExp (old r) in
         let pattern := renamePattern oldRef in
         if isSome (regexp_exec pattern content) then
           (true, replace_all pattern (replacement r) content)
         else (updatedOnce, nextContent))
      refs (false, content) in
  if updatedOnce then Some nextContent else None.

(** The test of the source: [new RegExp(pattern, "i").exec(content)]. *)
Definition pair_matches (content : jsstring) (r : Rename) : bool :=
  isSome (regexp_exec (renamePattern (escapeForRegExp (old r))) content).

Definition replaceRefs_step (content : jsstring) (acc : bool * jsstring)
    (r : Rename) : bool * jsstring :=
  let '(updatedOnce, nextContent) := acc in
  if pair_matches content r then
    (true, replace_all (renamePattern (escapeForRegExp (old r)))
                       (replacement r) content)
  else (updatedOnce, nextContent).

(** ** Auxiliary definitions for the proofs *)

(** The greedy and the lazy quantifier [*] on a character class, written as
    a recursion on the input: [rmatch] computes the same results
    ([rmatch_star_greedy], [rmatch_star_lazy]). *)
Fixpoint star_greedy_cls (p : ascii -> bool) (k : Continuation)
    (s : jsstring) (caps : list (nat * jsstring)) : option MatchState :=
  match s with
  | c :: tl =>
      if p c then
        match star_greedy_cls p k tl caps with
        | Some z => Some z
        | None => k (mkState s caps)
        end
      else k (mkState s caps)
  | [] => k (mkState [] caps)
  end.

Fixpoint star_lazy_cls (p : ascii -> bool) (k : Continuation)
    (s : jsstring) (caps : list (nat * jsstring)) : option MatchState :=
  match k (mkState s caps) with
  | Some z => Some z
  | None =>
      match s with
      | c :: tl => if p c then star_lazy_cls p k tl caps else None
      | [] => None
      end
  end.

(** Two texts that the [i] flag does not tell apart. *)
Definition same_text (a b : jsstring) : Prop :=
  map canonicalize a = map canonicalize b.

Definition has_char (c : ascii) (s : jsstring) : bool :=
  existsb (Ascii.eqb c) s.

Definition lbracket : ascii := ascii_of_nat 91.
Definition rbracket : ascii := ascii_of_nat 93.

(** [hay.includes(needle)]. *)
Fixpoint starts_with (needle hay : jsstring) : bool :=
  match needle, hay with
  | [], _ => true
  | _ :: _, [] => false
  | x :: n', y :: h' => Ascii.eqb x y && starts_with n' h'
  end.

Fixpoint includes (needle hay : jsstring) : bool :=
  starts_with needle hay ||
  match hay with
  | [] => false
  | _ :: tl => includes needle tl
  end.

(** The parts of [renamePattern]: the optional label, and the reference
    with the blanks around it up to the closing brackets. *)
Definition labelGroup : Regex :=
  Group 1 (Seq (star true (Cls is_dot)) (Chr divider)).

Definition refCore (o : jsstring) : Regex :=
  Seq (lit o) (Seq (star true (Cls is_space)) (lit (str "]]"))).

Definition refTail (o : jsstring) : Regex :=
  Seq (star true (Cls is_space)) (refCore o).

(** The continuation of [.*] inside the label group when the match of the
    group started at [s0] with no capture defined: a divider, the capture
    of the text from [s0] up to and with the divider, and [k]. *)
Definition label_cont (k : Continuation) (s0 : jsstring) : Continuation :=
  fun y =>
    match rest y with
    | ch :: tl =>
        if Ascii.eqb (canonicalize ch) (canonicalize divider)
        then k (mkState tl [(1, firstn (length s0 - length tl) s0)])
        else None
    | [] => None
    end.

(** The parser of the spec, in its words: split once on the first divider;
    without divider the reference and the label are the trimmed token, with
    it the label is the trimmed text before the divider and the reference
    the trimmed text after it. *)
Fixpoint split_first (c : ascii) (s : jsstring) : option (jsstring * jsstring) :=
  match s with
  | [] => None
  | x :: tl =>
      if Ascii.eqb x c then Some ([], tl)
      else
        match split_first c tl with
        | Some (b, a) => Some (x :: b, a)
        | None => None
        end
  end.

Definition parse_spec (rawToken : jsstring) : RefT :=
  match split_first divider rawToken with
  | None => mkRef (trim rawToken) (trim rawToken)
  | Some (b, a) => mkRef (trim a) (trim b)
  end.

Definition count_char (c : ascii) (s : jsstring) : nat :=
  length (filter (Ascii.eqb c) s).

(** The index of the first occurrence of [x] in [l]. *)
Fixpoint first_index (l : list jsstring) (x : jsstring) : nat :=
  match l with
  | [] => 0
  | y :: tl => if jsstring_eqb y x then 0 else S (first_index tl x)
  end.

(** What one round of the loop of [findDanglingRefsByFsPath] adds for the
    path [fsPath]: nothing when the path is skipped or has no dangling
    reference. *)
Definition scan_entry (h : Host) (cache : WorkspaceCache) (fsPath : jsstring)
  : option (list jsstring) :=
  if skipped h fsPath then None
  else
    match extractDanglingRefs cache (text_of h fsPath) with
    | [] => None
    | c :: tl => Some (c :: tl)
    end.

Definition scan_step (h : Host) (cache : WorkspaceCache)
    (refsByFsPath : list (jsstring * list jsstring)) (fsPath : jsstring)
  : list (jsstring * list jsstring) :=
  match scan_entry h cache fsPath with
  | Some refs => obj_set fsPath refs refsByFsPath
  | None => refsByFsPath
  end.

(** The parsed references of all link tokens of a content, resolved or
    not, in the order of the scan. *)
Definition token_ref (m : MatchResult) : list jsstring :=
  match get_capture 2 (groups_of m) with
  | Some (c :: tl) => [ref (parseRef (c :: tl))]
  | _ => []
  end.

Definition linked_refs (content : jsstring) : list jsstring :=
  flat_map (fun lineText => flat_map token_ref (matchAll refRegexp lineText))
           (split_lines content).

(** The vault-wide list in the words of the spec: the files in shallow-first
    order of their paths, then the union of their lists without
    duplicates. *)
Definition danglingRefs_by_origin (byFsPath : list (jsstring * list jsstring))
  : list jsstring :=
  array_from_set
    (flat_map (fun p => match obj_get p byFsPath with
                        | Some refs => refs
                        | None => []
                        end)
              (sortPaths (map fst byFsPath))).

(** A note name that is a file name: not empty and without separator. *)
Definition well_named (n : NoteProps) : Prop :=
  fname n <> [] /\ has_char (ascii_of_nat 47) (fname n) = false.

Definition path_le (a b : jsstring) : Prop := path_leb a b = true.

(** A lower bound on the length of a match. *)
Fixpoint minlen (r : Regex) : nat :=
  match r with
  | Chr _ | Cls _ => 1
  | Seq r1 r2 => minlen r1 + minlen r2
  | Group _ r1 => minlen r1
  | _ => 0
  end.

(** The leaf segment of a hierarchical name: the text behind its last
    period. *)
Definition leaf_segment (name : jsstring) : jsstring :=
  rev (take_until is_period (rev name)).

(** A matcher is local when its result depends on the continuation only
    at states whose remaining input is not longer than its own. *)
Definition local (m : Matcher) : Prop :=
  forall k1 k2 x,
    (forall y, length (rest y) <= length (rest x) -> k1 y = k2 y) ->
    m k1 x = m k2 x.

(** A success of [rmatch r k] is a success of [k] at a state reached by
    reading at least [minlen r] characters. *)
Definition forward (m : Matcher) (n : nat) : Prop :=
  forall k x z,
    m k x = Some z ->
    exists y c, k y = Some z /\ rest x = c ++ rest y /\ n <= length c.

(** ** Patterns with alternatives and the assertion [^]

    The pattern of [trimLeadingSlash] is a disjunction whose alternatives
    start with [^].  Without the [m] flag the assertion holds at index 0
    only; [at_start] tells whether the end index of the state is 0.  A
    disjunction tries its alternatives from left to right. *)

Inductive Pattern :=
| Plain (r : Regex)
| FromStart (r : Regex)                  (* ^r *)
| Or (p q : Pattern).                    (* p|q *)

Fixpoint pmatch (p : Pattern) (at_start : bool) (k : Continuation)
    (x : MatchState) : option MatchState :=
  match p with
  | Plain r => rmatch r k x
  | FromStart r => if at_start then rmatch r k x else None
  | Or a b =>
      match pmatch a at_start k x with
      | Some z => Some z
      | None => pmatch b at_start k x
      end
  end.

Definition pmatch_here (p : Pattern) (at_start : bool) (s : jsstring)
  : option MatchResult :=
  match pmatch p at_start Some (mkState s []) with
  | Some y =>
      Some (mkResult [] (firstn (length s - length (rest y)) s)
                     (captures y) (rest y))
  | None => None
  end.

(** [exec] from the index where [s] starts. *)
Fixpoint pattern_exec (p : Pattern) (at_start : bool) (s : jsstring)
  : option MatchResult :=
  match pmatch_here p at_start s with
  | Some m => Some m
  | None =>
      match s with
      | [] => None
      | c :: tl => option_map (shift_result c) (pattern_exec p false tl)
      end
  end.

(** [s.replace(pattern, f)] with the [g] flag, as [replace_loop]. *)
Fixpoint pattern_replace_loop (fuel : nat) (p : Pattern)
    (f : jsstring -> list (nat * jsstring) -> jsstring)
    (at_start : bool) (s : jsstring) : jsstring :=
  match fuel with
  | 0 => s
  | S n =>
      match pattern_exec p at_start s with
      | None => s
      | Some m =>
          before m ++ f (matched m) (groups_of m) ++
          match matched m with
          | [] => match after m with
                  | [] => []
                  | c :: tl => c :: pattern_replace_loop n p f false tl
                  end
          | _ :: _ => pattern_replace_loop n p f false (after m)
          end
      end
  end.

Definition pattern_replace_all (p : Pattern)
    (f : jsstring -> list (nat * jsstring) -> jsstring) (s : jsstring)
  : jsstring :=
  pattern_replace_loop (S (length s)) p f true s.

(** ** The source: paths and references *)

Definition slash : ascii := ascii_of_nat 47.
Definition period : ascii := ascii_of_nat 46.
Definition is_backslash (c : ascii) : bool := code c =? 92.

(** [value.replace(/^\/+|^\\+/g, "")].  The pattern has no [i] flag; the
    slash and the backslash have no case partner, so [Chr] compares them
    as the pattern does. *)
Definition trimLeadingSlash (value : jsstring) : jsstring :=
  pattern_replace_all
    (Or (FromStart (plus true (Chr slash)))
        (FromStart (plus true (Chr backslash))))
    (fun _ _ => []) value.

(** [value.replace(/\\/gi, "/")]. *)
Definition normalizeSlashes (value : jsstring) : jsstring :=
  replace_all (Chr backslash) (fun _ _ => str "/") value.

(** [s.replace(pattern, "")] for a string [pattern]: the first occurrence
    of the pattern is removed. *)
Fixpoint remove_first (pattern s : jsstring) : jsstring :=
  if starts_with pattern s then skipn (length pattern) s
  else
    match s with
    | [] => []
    | c :: tl => c :: remove_first pattern tl
    end.

(** [s.lastIndexOf(c)] for a character [c]; [None] is -1. *)
Fixpoint lastIndexOf (c : ascii) (s : jsstring) : option nat :=
  match s with
  | [] => None
  | x :: tl =>
      match lastIndexOf c tl with
      | Some i => Some (S i)
      | None => if Ascii.eqb x c then Some 0 else None
      end
  end.

(** [fsPathToRef({path, keepExt, basePath})].  An absent [keepExt] is
    [false], an absent [basePath] is [None]; the empty [basePath] is falsy
    like the absent one.  The function has no path that returns [null]. *)
Definition fsPathToRef (fsPath : jsstring) (keepExt : bool)
    (basePath : option jsstring) : jsstring :=
  let ref :=
    match basePath with
    | Some (b :: base) =>
        if starts_with (b :: base) fsPath
        then normalizeSlashes (remove_first (b :: base) fsPath)
        else basename fsPath
    | _ => basename fsPath
    end in
  if keepExt then trimLeadingSlash ref
  else
    trimLeadingSlash
      (if includes (str ".") ref
       then match lastIndexOf period ref with
            | Some i => slice 0 i ref
            | None => ref
            end
       else ref).

(** The class of the characters that a pattern character matches. *)
Definition chr_class (c : ascii) : ascii -> bool :=
  fun ch => Ascii.eqb (canonicalize ch) (canonicalize c).

(** [trimLeadingSlash] without the regular expression. *)
Definition strip_leading (value : jsstring) : jsstring :=
  match value with
  | [] => []
  | c :: _ =>
      if is_slash c then drop_while is_slash value
      else if is_backslash c then drop_while is_backslash value
      else value
  end.

(** [normalizeSlashes] without the regular expression. *)
Definition to_slash (c : ascii) : ascii := if is_backslash c then slash else c.

Definition lf : ascii := ascii_of_nat 10.

(** ** The source: the hooks of [replaceRefs] *)

(** The calls of the optional hooks [onMatch] and [onReplace], in the order
    in which they are made. *)
Inductive HookCall := OnMatch | OnReplace.

(** Which of the two hooks the caller gave. *)
Record Hooks := mkHooks { onMatch : bool; onReplace : bool }.

(** [s.replace(new RegExp(r, "gi"), f)] with a replacer that reads and
    writes a state: the variables of its closure and the hooks it calls.
    The replacer runs once for every match, from left to right. *)
Fixpoint replace_loop_st {St : Type} (fuel : nat) (r : Regex)
    (f : St -> jsstring -> list (nat * jsstring) -> St * jsstring)
    (st : St) (s : jsstring) : St * jsstring :=
  match fuel with
  | 0 => (st, s)
  | S n =>
      match regexp_exec r s with
      | None => (st, s)
      | Some m =>
          let '(st1, out) := f st (matched m) (groups_of m) in
          let '(st2, tl) :=
            match matched m with
            | [] => match after m with
                    | [] => (st1, [])
                    | c :: tl =>
                        let '(st2, o) := replace_loop_st n r f st1 tl in
                        (st2, c :: o)
                    end
            | _ :: _ => replace_loop_st n r f st1 (after m)
            end in
          (st2, before m ++ out ++ tl)
      end
  end.

(** The replacer of [replaceRefs] with its hooks: the state is the variable
    [replacedOnce] and the calls made so far. *)
Definition replacer (hk : Hooks) (r : Rename) (st : bool * list HookCall)
    (m0 : jsstring) (caps : list (nat * jsstring))
  : (bool * list HookCall) * jsstring :=
  let '(replacedOnce, calls) := st in
  let calls1 :=
    if negb replacedOnce && onMatch hk then calls ++ [OnMatch] else calls in
  let calls2 := if onReplace hk then calls1 ++ [OnReplace] else calls1 in
  ((true, calls2), replacement r m0 caps).

(** [replaceRefs({refs, content, onMatch, onReplace})]: the returned value
    and the calls of the hooks. *)
Definition replaceRefs_hooks (hk : Hooks) (refs : list Rename)
    (content : jsstring) : option jsstring * list HookCall :=
  let '(updatedOnce, nextContent, calls) :=
    fold_left
      (fun (acc : bool * jsstring * list HookCall) (r : Rename) =>
         let '(updatedOnce, nextContent, calls) := acc in
         let oldRef := escapeForRegExp (old r) in
         let pattern := renamePattern oldRef in
         if isSome (regexp_exec pattern content) then
           let '((_, calls'), nextContent') :=
             replace_loop_st (S (length content)) pattern (replacer hk r)
                             (false, calls) content in
           (true, nextContent', calls')
         else (updatedOnce, nextContent, calls))
      refs (false, content, []) in
  ((if updatedOnce then Some nextContent else None), calls).

(** The calls that one pair of the batch causes when its pattern has [n]
    matches in the content. *)
Definition calls_of_pair (hk : Hooks) (n : nat) : list HookCall :=
  (if (0 <? n) && onMatch hk then [OnMatch] else []) ++
  (if onReplace hk then repeat OnReplace n else []).

(** ** Pattern texts

    [new RegExp(text, "i")] on the part of the pattern syntax that has no
    groups, classes, alternatives, assertions and braces.  A term is an
    atom, optionally followed by one of the quantifiers [*], [+] and [?],
    and then by [?] for the lazy form.  An atom is a pattern character (a
    character that is not a syntax character), the dot, or a backslash
    followed by a syntax character, which stands for that character. *)
Inductive PatternToken :=
| TAtom (r : Regex)
| TStar
| TPlus
| TQuestion.

(** The atoms and quantifiers of a pattern text; [None]: the text is
    outside this part of the syntax. *)
Fixpoint pattern_tokens (s : jsstring) : option (list PatternToken) :=
  match s with
  | [] => Some []
  | c :: tl =>
      if negb (is_syntax_char c)
      then option_map (cons (TAtom (Chr c))) (pattern_tokens tl)
      else if Ascii.eqb c backslash then
        match tl with
        | e :: tl' =>
            if is_syntax_char e
            then option_map (cons (TAtom (Chr e))) (pattern_tokens tl')
            else None
        | [] => None
        end
      else if Ascii.eqb c "."%char
      then option_map (cons (TAtom (Cls is_dot))) (pattern_tokens tl)
      else if Ascii.eqb c "*"%char
      then option_map (cons TStar) (pattern_tokens tl)
      else if Ascii.eqb c "+"%char
      then option_map (cons TPlus) (pattern_tokens tl)
      else if Ascii.eqb c "?"%char
      then option_map (cons TQuestion) (pattern_tokens tl)
      else None
  end.

Definition quantified (q : PatternToken) (greedy : bool) (r : Regex) : Regex :=
  match q with
  | TStar => star greedy r
  | TPlus => plus greedy r
  | TQuestion => Rep 0 (Some 1) greedy r
  | TAtom _ => r
  end.

(** The terms of a pattern, one after the other; [None]: a quantifier with
    nothing to repeat. *)
Fixpoint terms (ts : list PatternToken) : option Regex :=
  match ts with
  | [] => Some Empty
  | TAtom a :: rest =>
      match rest with
      | [] => Some (Seq a Empty)
      | TAtom _ :: _ => option_map (Seq a) (terms rest)
      | q :: rest1 =>
          match rest1 with
          | TQuestion :: rest2 =>
              option_map (Seq (quantified q false a)) (terms rest2)
          | _ => option_map (Seq (quantified q true a)) (terms rest1)
          end
      end
  | _ :: _ => None
  end.

Definition read_pattern (s : jsstring) : option Regex :=
  match pattern_tokens s with
  | Some ts => terms ts
  | None => None
  end.

(** ** [matchAll] and the flag [g]

    [matchAll(pattern, text)] for any RegExp whose sticky flag is not set;
    [global] is its flag [g].  [exec] leaves [lastIndex] behind the match
    only when the flag is set: without it every call starts at the start of
    the text again.  [text] is the text from [lastIndex] on.  [None]: the
    loop has not ended within [fuel] calls of [exec]. *)
Fixpoint matchAll_rounds (fuel : nat) (global : bool) (pattern : Regex)
    (text : jsstring) : option (list MatchResult) :=
  match fuel with
  | 0 => None
  | S n =>
      match regexp_exec pattern text with
      | None => Some []
      | Some m =>
          option_map (cons m)
            (matchAll_rounds n global pattern (if global then after m else text))
      end
  end.

(** ** The link tokens of a content, in the words of the spec

    A link token is two opening brackets, an inner text that is not empty
    and holds no bracket, and two closing brackets; the scan goes line by
    line, so the inner text holds no line feed either.  The tokens are read from left to right, and the
    scan goes on behind a token. *)
Definition token_char (c : ascii) : bool :=
  not_bracket c && negb (code c =? 10).

(** The longest text of token characters at the start of [s], and the rest
    of [s]. *)
Fixpoint token_text (s : jsstring) : jsstring * jsstring :=
  match s with
  | c :: tl =>
      if token_char c
      then let '(t, r) := token_text tl in (c :: t, r)
      else ([], s)
  | [] => ([], [])
  end.

(** The inner text of the link token that starts at the start of [s]. *)
Definition token_at (s : jsstring) : option jsstring :=
  match s with
  | a :: b :: tl =>
      if Ascii.eqb a lbracket && Ascii.eqb b lbracket then
        match token_text tl with
        | (c :: t, x :: y :: _) =>
            if Ascii.eqb x rbracket && Ascii.eqb y rbracket
            then Some (c :: t) else None
        | _ => None
        end
      else None
  | _ => None
  end.

(** The inner texts of the link tokens of [s] behind its first [skip]
    characters. *)
Fixpoint tokens_from (skip : nat) (s : jsstring) : list jsstring :=
  match s with
  | [] => []
  | _ :: tl =>
      match skip with
      | S k => tokens_from k tl
      | 0 =>
          match token_at s with
          | Some tok => tok :: tokens_from (length tok + 3) tl
          | None => tokens_from 0 tl
          end
      end
  end.

Definition link_tokens (content : jsstring) : list jsstring :=
  tokens_from 0 content.

(** The references of the link tokens of a content that resolve to no uri
    of the cache, one for every such token, in the order of the tokens. *)
Definition unresolved_refs (cache : WorkspaceCache) (content : jsstring)
  : list jsstring :=
  filter (fun r => negb (isSome (findUriByRef (allUris cache) r)))
         (map (fun tok => ref (parseRef tok)) (link_tokens content)).

(** ** Example vaults *)

(** Two notes [a] and [b] below [/v]; the file of [a] links to [z], the
    file of [b] to [y], and no file is open in the editor. *)
Definition host_ab : Host :=
  mkHost (fun _ => true) (fun _ => false)
         (fun p => if jsstring_eqb p (str "/v/a.md") then str "[[z]]"
                   else str "[[y]]")
         [].

Definition notes_ab : list NoteProps :=
  [mkNote (str "1") (str "a") false []; mkNote (str "2") (str "b") false []].

(** The vault of the engine tests: the notes [root] and [foo.ch1] and the
    stub [foo] for the missing parent; every file links to [foo]. *)
Definition notes_stub : list NoteProps :=
  [mkNote (str "root") (str "root") false [str "foo"];
   mkNote (str "foo") (str "foo") true [str "foo.ch1"];
   mkNote (str "foo.ch1") (str "foo.ch1") false []].

Definition host_stub : Host :=
  mkHost (fun _ => true) (fun _ => false) (fun _ => str "[[foo]]") [].

(** * Properties *)

(** ** Strings and characters *)

Lemma jsstring_eqb_eq : forall a b, jsstring_eqb a b = true <-> a = b.
Proof.
  induction a as [|x a IH]; destruct b as [|y b]; simpl; split;
    try congruence; try reflexivity.
  - intros H. apply andb_true_iff in H. destruct H as [H1 H2].
    apply Ascii.eqb_eq in H1. apply IH in H2. congruence.
  - intros H. injection H as -> ->. rewrite Ascii.eqb_refl. simpl.
    apply IH. reflexivity.
Qed.

Lemma jsstring_eqb_refl : forall a, jsstring_eqb a a = true.
Proof. intros a. apply jsstring_eqb_eq. reflexivity. Qed.

Lemma jsstring_eqb_neq : forall a b, jsstring_eqb a b = false <-> a <> b.
Proof.
  intros a b. split.
  - intros H E. apply jsstring_eqb_eq in E. congruence.
  - intros H. destruct (jsstring_eqb a b) eqn:E; [|reflexivity].
    apply jsstring_eqb_eq in E. contradiction.
Qed.

Lemma jsstring_eqb_sym : forall a b, jsstring_eqb a b = jsstring_eqb b a.
Proof.
  intros a b. destruct (jsstring_eqb a b) eqn:E.
  - apply jsstring_eqb_eq in E. subst. symmetry. apply jsstring_eqb_refl.
  - symmetry. apply jsstring_eqb_neq. apply jsstring_eqb_neq in E. congruence.
Qed.

(** ** [replaceRefs]: the sentinel *)

Lemma replaceRefs_unfold : forall refs content,
  replaceRefs refs content =
  let '(updatedOnce, nextContent) :=
    fold_left (replaceRefs_step content) refs (false, content) in
  if updatedOnce then Some nextContent else None.
Proof. reflexivity. Qed.

Lemma replaceRefs_step_flag : forall content refs b s,
  fst (fold_left (replaceRefs_step content) refs (b, s)) =
  b || existsb (pair_matches content) refs.
Proof.
  intros content refs. induction refs as [|r refs IH]; intros b s; simpl.
  - rewrite orb_false_r. reflexivity.
  - destruct (pair_matches content r); simpl; rewrite IH.
    + rewrite orb_true_r. reflexivity.
    + reflexivity.
Qed.

Lemma replaceRefs_none_iff : forall refs content,
  replaceRefs refs content = None <->
  existsb (pair_matches content) refs = false.
Proof.
  intros refs content. rewrite replaceRefs_unfold.
  pose proof (replaceRefs_step_flag content refs false content) as H.
  destruct (fold_left (replaceRefs_step content) refs (false, content))
    as [u n]. simpl in H. subst u.
  destruct (existsb (pair_matches content) refs); split; congruence.
Qed.

(** The content that [replaceRefs] returns is the rewriting of the
    original content for the last pair that matched. *)
Lemma replaceRefs_last_match : forall content refs r,
  pair_matches content r = true ->
  existsb (pair_matches content) refs = false ->
  forall front,
    replaceRefs (front ++ r :: refs) content =
    Some (replace_all (renamePattern (escapeForRegExp (old r)))
                      (replacement r) content).
Proof.
  intros content refs r Hr Hrefs front. rewrite replaceRefs_unfold.
  rewrite fold_left_app. simpl.
  destruct (fold_left (replaceRefs_step content) front (false, content))
    as [u n]. simpl. rewrite Hr.
  assert (G : forall acc, fold_left (replaceRefs_step content) refs acc = acc).
  { clear - Hrefs. induction refs as [|x refs IH]; intros acc; simpl.
    - reflexivity.
    - simpl in Hrefs. apply orb_false_iff in Hrefs. destruct Hrefs as [H1 H2].
      destruct acc as [u n]. simpl. rewrite H1. apply IH. exact H2. }
  rewrite G. reflexivity.
Qed.

(** ** The matcher on the shapes of the source's patterns *)

Lemma filter_all : forall (A : Type) (l : list A), filter (fun _ => true) l = l.
Proof.
  intros A l. induction l as [|a l IH]; simpl; [reflexivity | now rewrite IH].
Qed.

Lemma clear_no_groups : forall x, clear_captures [] x = x.
Proof.
  intros [s caps]. unfold clear_captures. simpl. now rewrite filter_all.
Qed.

Lemma rmatch_Rep : forall min max greedy r k x,
  rmatch (Rep min max greedy r) k x =
  RepeatMatcher (rmatch r) (groups r) greedy k
                (S (min + length (rest x))) min max x.
Proof. reflexivity. Qed.

Lemma rmatch_Seq : forall r1 r2 k x,
  rmatch (Seq r1 r2) k x = rmatch r1 (rmatch r2 k) x.
Proof. reflexivity. Qed.

Lemma rmatch_Group : forall i r k x,
  rmatch (Group i r) k x =
  rmatch r (fun y => k (set_capture i (consumed x y) y)) x.
Proof. reflexivity. Qed.

Lemma rmatch_Chr : forall c k ch tl caps,
  rmatch (Chr c) k (mkState (ch :: tl) caps) =
  if Ascii.eqb (canonicalize ch) (canonicalize c)
  then k (mkState tl caps) else None.
Proof. reflexivity. Qed.

Lemma rmatch_Chr_nil : forall c k caps,
  rmatch (Chr c) k (mkState [] caps) = None.
Proof. reflexivity. Qed.

Lemma rmatch_star_greedy : forall p k s caps,
  rmatch (star true (Cls p)) k (mkState s caps) = star_greedy_cls p k s caps.
Proof.
  intros p k s caps. unfold star. rewrite rmatch_Rep.
  assert (G : forall fuel s, length s < fuel ->
            RepeatMatcher (rmatch (Cls p)) [] true k fuel 0 None (mkState s caps)
            = star_greedy_cls p k s caps).
  { clear s. induction fuel as [|fuel IH]; intros s Hlen; [lia|].
    cbn [RepeatMatcher max_is_zero Nat.eqb negb andb].
    rewrite clear_no_groups. destruct s as [|c tl]; simpl.
    - reflexivity.
    - destruct (p c); [|reflexivity].
      replace (length tl =? S (length tl)) with false
        by (symmetry; apply Nat.eqb_neq; lia).
      unfold advance. simpl. rewrite IH by (simpl in Hlen; lia).
      reflexivity. }
  apply G. simpl. lia.
Qed.

Lemma rmatch_star_lazy : forall p k s caps,
  rmatch (star false (Cls p)) k (mkState s caps) = star_lazy_cls p k s caps.
Proof.
  intros p k s caps. unfold star. rewrite rmatch_Rep.
  assert (G : forall fuel s, length s < fuel ->
            RepeatMatcher (rmatch (Cls p)) [] false k fuel 0 None (mkState s caps)
            = star_lazy_cls p k s caps).
  { clear s. induction fuel as [|fuel IH]; intros s Hlen; [lia|].
    cbn [RepeatMatcher max_is_zero Nat.eqb negb andb].
    rewrite clear_no_groups. destruct s as [|c tl]; simpl.
    - destruct (k (mkState [] caps)); reflexivity.
    - destruct (k (mkState (c :: tl) caps)); [reflexivity|].
      destruct (p c); [|reflexivity].
      replace (length tl =? S (length tl)) with false
        by (symmetry; apply Nat.eqb_neq; lia).
      unfold advance. simpl. apply IH. simpl in Hlen. lia. }
  apply G. simpl. lia.
Qed.

(** The greedy star passes over a prefix inside the class when the match
    succeeds behind it. *)
Lemma star_greedy_skip : forall p k w s caps z,
  forallb p w = true ->
  star_greedy_cls p k s caps = Some z ->
  star_greedy_cls p k (w ++ s) caps = Some z.
Proof.
  intros p k w s caps z. induction w as [|c w IH]; simpl; intros Hw H.
  - exact H.
  - apply andb_true_iff in Hw. destruct Hw as [Hc Hw]. rewrite Hc.
    rewrite (IH Hw H). reflexivity.
Qed.

(** It stops where the class stops. *)
Lemma star_greedy_stop : forall p k c s caps,
  p c = false ->
  star_greedy_cls p k (c :: s) caps = k (mkState (c :: s) caps).
Proof. intros p k c s caps H. simpl. now rewrite H. Qed.

(** A success of the greedy star is a success of the continuation at some
    later index. *)
Lemma star_greedy_inv : forall p k s caps z,
  star_greedy_cls p k s caps = Some z ->
  exists w s', s = w ++ s' /\ k (mkState s' caps) = Some z.
Proof.
  intros p k s caps z. induction s as [|c s IH]; simpl; intros H.
  - exists [], []. split; [reflexivity | exact H].
  - destruct (p c).
    + destruct (star_greedy_cls p k s caps) as [z'|] eqn:E.
      * injection H as <-. destruct (IH eq_refl) as (w & s' & -> & Hk).
        exists (c :: w), s'. split; [reflexivity | exact Hk].
      * exists [], (c :: s). split; [reflexivity | exact H].
    + exists [], (c :: s). split; [reflexivity | exact H].
Qed.

(** It fails when the continuation fails at every later index. *)
Lemma star_greedy_none : forall p k s caps,
  (forall w s', s = w ++ s' -> k (mkState s' caps) = None) ->
  star_greedy_cls p k s caps = None.
Proof.
  intros p k s caps H.
  destruct (star_greedy_cls p k s caps) as [z|] eqn:E; [|reflexivity].
  apply star_greedy_inv in E. destruct E as (w & s' & Hs & Hk).
  rewrite (H w s' Hs) in Hk. discriminate.
Qed.

(** When the continuation fails at every index behind the first, the
    greedy star comes back to the first. *)
Lemma star_greedy_first : forall p k s caps,
  (forall c w s', s = c :: w ++ s' -> k (mkState s' caps) = None) ->
  star_greedy_cls p k s caps = k (mkState s caps).
Proof.
  intros p k s caps H. destruct s as [|c s]; simpl; [reflexivity|].
  destruct (p c); [|reflexivity].
  rewrite star_greedy_none; [reflexivity|].
  intros w s' Hs. apply (H c w s'). now rewrite Hs.
Qed.

Lemma star_greedy_ext : forall p k1 k2 caps s,
  (forall w s', s = w ++ s' -> k1 (mkState s' caps) = k2 (mkState s' caps)) ->
  star_greedy_cls p k1 s caps = star_greedy_cls p k2 s caps.
Proof.
  intros p k1 k2 caps s. induction s as [|c s IH]; intros H; simpl.
  - apply (H [] []). reflexivity.
  - rewrite (H [] (c :: s) eq_refl). rewrite IH; [reflexivity|].
    intros w s' ->. apply (H (c :: w) s'). reflexivity.
Qed.

Lemma star_lazy_now : forall p k s caps z,
  k (mkState s caps) = Some z -> star_lazy_cls p k s caps = Some z.
Proof. intros p k s caps z H. destruct s; simpl; now rewrite H. Qed.

Lemma same_text_refl : forall a, same_text a a.
Proof. reflexivity. Qed.

Lemma rmatch_lit_same : forall l l' k s caps,
  same_text l' l ->
  rmatch (lit l) k (mkState (l' ++ s) caps) = k (mkState s caps).
Proof.
  unfold same_text. induction l as [|c l IH]; intros [|c' l'] k s caps H;
    simpl in H; try discriminate.
  - reflexivity.
  - injection H as Hc Hl. simpl lit. rewrite rmatch_Seq. simpl app.
    rewrite rmatch_Chr. rewrite Hc, Ascii.eqb_refl. apply IH. exact Hl.
Qed.

Lemma rmatch_lit_inv : forall l k s caps z,
  rmatch (lit l) k (mkState s caps) = Some z ->
  exists l' s', s = l' ++ s' /\ same_text l' l /\ k (mkState s' caps) = Some z.
Proof.
  induction l as [|c l IH]; intros k s caps z H.
  - exists [], s. repeat split. exact H.
  - simpl lit in H. rewrite rmatch_Seq in H. destruct s as [|ch tl].
    + rewrite rmatch_Chr_nil in H. discriminate.
    + rewrite rmatch_Chr in H.
      destruct (Ascii.eqb (canonicalize ch) (canonicalize c)) eqn:E;
        [|discriminate].
      apply Ascii.eqb_eq in E.
      destruct (IH _ _ _ _ H) as (l' & s' & -> & Hl & Hk).
      exists (ch :: l'), s'. repeat split; [|exact Hk].
      unfold same_text in *. simpl. now rewrite E, Hl.
Qed.

Lemma same_text_length : forall a b, same_text a b -> length a = length b.
Proof.
  unfold same_text. intros a b H.
  rewrite <- (length_map canonicalize a), H. apply length_map.
Qed.

(** Every character of the class [[.*+?^${}()|[\]\\]] is escaped, the
    backslash among them, so the escaped text reads back as the text. *)
Lemma pattern_of_escaped_escape : forall o,
  pattern_of_escaped (escapeForRegExp o) = lit o.
Proof.
  induction o as [|c o IH]; simpl; [reflexivity|].
  destruct (is_syntax_char c) eqn:E.
  - cbn [pattern_of_escaped]. rewrite Ascii.eqb_refl. now rewrite IH.
  - cbn [pattern_of_escaped]. destruct (Ascii.eqb c backslash) eqn:B.
    + apply Ascii.eqb_eq in B. subst c. vm_compute in E. discriminate.
    + now rewrite IH.
Qed.

Lemma renamePattern_escape : forall o,
  renamePattern (escapeForRegExp o) =
  Seq (lit (str "[["))
      (Seq (star false (Cls is_space)) (Seq (opt labelGroup) (refTail o))).
Proof.
  intros o. unfold renamePattern. rewrite pattern_of_escaped_escape.
  reflexivity.
Qed.

(** The brackets and the divider have no case partner. *)
Lemma canonicalize_special : forall c d,
  d = lbracket \/ d = rbracket \/ d = divider ->
  canonicalize c = canonicalize d -> c = d.
Proof.
  intros c d Hd.
  destruct c as [b0 b1 b2 b3 b4 b5 b6 b7].
  destruct Hd as [-> | [-> | ->]];
    destruct b0, b1, b2, b3, b4, b5, b6, b7; vm_compute; intros H;
    first [reflexivity | discriminate H].
Qed.

(** The optional label group, started with no capture defined. *)
Lemma rmatch_opt_label : forall k s,
  rmatch (opt labelGroup) k (mkState s []) =
  match star_greedy_cls is_dot (label_cont k s) s [] with
  | Some z => Some z
  | None => k (mkState s [])
  end.
Proof.
  intros k s. unfold opt. rewrite rmatch_Rep.
  cbn [RepeatMatcher max_is_zero Nat.eqb negb andb Nat.add rest].
  change (clear_captures (groups labelGroup) (mkState s [])) with (mkState s []).
  unfold labelGroup at 1. rewrite rmatch_Group, rmatch_Seq, rmatch_star_greedy.
  erewrite star_greedy_ext; [reflexivity|].
  intros w s' Hs. unfold label_cont. cbn [rest].
  destruct s' as [|ch tl]; [reflexivity|].
  rewrite rmatch_Chr.
  destruct (Ascii.eqb (canonicalize ch) (canonicalize divider)); [|reflexivity].
  assert (Hlen : length tl < length s).
  { rewrite Hs, length_app. simpl. lia. }
  destruct (length s) as [|n] eqn:En; [lia|].
  cbn [RepeatMatcher max_is_zero option_map pred].
  unfold set_capture, consumed. cbn [rest captures filter].
  rewrite En.
  destruct (length tl =? S n) eqn:El; [apply Nat.eqb_eq in El; lia|].
  reflexivity.
Qed.

Lemma has_char_false : forall c s,
  has_char c s = false -> ~ In c s.
Proof.
  intros c s H Hin. unfold has_char in H.
  assert (E : existsb (Ascii.eqb c) s = true).
  { apply existsb_exists. exists c. split; [exact Hin | apply Ascii.eqb_refl]. }
  congruence.
Qed.

Lemma has_char_cons : forall c x s,
  has_char c (x :: s) = Ascii.eqb c x || has_char c s.
Proof. reflexivity. Qed.

Lemma has_char_app : forall c a b,
  has_char c (a ++ b) = has_char c a || has_char c b.
Proof. intros c a b. unfold has_char. apply existsb_app. Qed.

(** An element at or behind the length of [c] lies in [q]. *)
Lemma app_eq_in_tail : forall (A : Type) (a b c q : list A) (x : A),
  a ++ x :: b = c ++ q -> length c <= length a -> In x q.
Proof.
  intros A a. induction a as [|y a IH]; intros b c q x H Hlen.
  - destruct c; [|simpl in Hlen; lia]. simpl in H. subst q. now left.
  - destruct c as [|y' c].
    + simpl in H. subst q. right. apply in_or_app. right. now left.
    + simpl in H. injection H as _ H. apply (IH _ _ _ _ H). simpl in Hlen. lia.
Qed.

Lemma same_text_brackets : forall l, same_text l (str "]]") -> l = str "]]".
Proof.
  intros l H. pose proof (same_text_length _ _ H) as Hl.
  destruct l as [|a [|b [|c l]]]; simpl in Hl; try discriminate.
  unfold same_text in H. simpl in H. injection H as Ha Hb.
  apply (canonicalize_special a rbracket) in Ha; [|auto].
  apply (canonicalize_special b rbracket) in Hb; [|auto].
  subst. reflexivity.
Qed.

(** A match of the reference and the closing brackets: the text it reads. *)
Lemma refCore_inv : forall o s caps z,
  rmatch (refCore o) Some (mkState s caps) = Some z ->
  exists l w, s = l ++ w ++ str "]]" ++ rest z /\
              same_text l o /\ captures z = caps.
Proof.
  intros o s caps z H. unfold refCore in H. rewrite rmatch_Seq in H.
  apply rmatch_lit_inv in H. destruct H as (l & s1 & -> & Hl & H).
  rewrite rmatch_Seq, rmatch_star_greedy in H.
  apply star_greedy_inv in H. destruct H as (w & s2 & -> & H).
  apply rmatch_lit_inv in H. destruct H as (l2 & s3 & -> & Hl2 & H).
  injection H as <-. apply same_text_brackets in Hl2. subst l2.
  exists l, w. repeat split. exact Hl.
Qed.

Lemma refTail_inv : forall o s caps z,
  rmatch (refTail o) Some (mkState s caps) = Some z ->
  exists m, s = m ++ rbracket :: rest z /\ length o + 1 <= length m /\
            captures z = caps.
Proof.
  intros o s caps z H. unfold refTail in H.
  rewrite rmatch_Seq, rmatch_star_greedy in H.
  apply star_greedy_inv in H. destruct H as (w0 & s1 & -> & H).
  apply refCore_inv in H. destruct H as (l & w & -> & Hl & Hc).
  exists (w0 ++ l ++ w ++ [rbracket]). repeat split.
  - repeat rewrite <- app_assoc. reflexivity.
  - repeat rewrite length_app. rewrite (same_text_length _ _ Hl). simpl. lia.
  - exact Hc.
Qed.

(** The closing brackets behind the reference. *)
Lemma refCore_at_ref : forall o l w post caps,
  same_text l o -> forallb is_space w = true ->
  rmatch (refCore o) Some (mkState (l ++ w ++ str "]]" ++ post) caps) =
  Some (mkState post caps).
Proof.
  intros o l w post caps Hl Hw. unfold refCore.
  rewrite rmatch_Seq, (rmatch_lit_same _ _ _ _ _ Hl).
  rewrite rmatch_Seq, rmatch_star_greedy.
  apply star_greedy_skip; [exact Hw|].
  change (str "]]" ++ post) with (rbracket :: rbracket :: post).
  rewrite star_greedy_stop by reflexivity.
  reflexivity.
Qed.

(** The reference followed by the closing brackets, when no closing bracket
    comes later: the blanks in front match nothing, even when the reference
    starts with blanks. *)
Lemma refTail_at_ref : forall o post caps,
  has_char rbracket post = false ->
  rmatch (refTail o) Some (mkState (o ++ str "]]" ++ post) caps) =
  Some (mkState post caps).
Proof.
  intros o post caps Hpost. unfold refTail.
  rewrite rmatch_Seq, rmatch_star_greedy, star_greedy_first.
  - apply (refCore_at_ref o o [] post caps); [apply same_text_refl | reflexivity].
  - intros c w s' Hs.
    destruct (rmatch (refCore o) Some (mkState s' caps)) as [z|] eqn:E;
      [exfalso | reflexivity].
    apply refCore_inv in E. destruct E as (l & w2 & -> & Hl & _).
    apply (has_char_false _ _ Hpost).
    apply (app_eq_in_tail _ (c :: w ++ l ++ w2 ++ [rbracket]) (rest z)
                          (o ++ str "]]") post rbracket).
    + rewrite <- (app_assoc o). rewrite Hs. simpl.
      repeat rewrite <- app_assoc. reflexivity.
    + simpl. repeat rewrite length_app. rewrite (same_text_length _ _ Hl).
      simpl. lia.
Qed.

(** No label can be read in front of a reference that is followed by the
    last closing brackets: the text behind a divider would be too short. *)
Lemma label_fails_at_ref : forall o post s0,
  has_char rbracket post = false ->
  star_greedy_cls is_dot (label_cont (rmatch (refTail o) Some) s0)
                  (o ++ str "]]" ++ post) [] = None.
Proof.
  intros o post s0 Hpost. apply star_greedy_none. intros w s' Hs.
  unfold label_cont. cbn [rest]. destruct s' as [|ch tl]; [reflexivity|].
  destruct (Ascii.eqb (canonicalize ch) (canonicalize divider)); [|reflexivity].
  match goal with |- ?t = None => destruct t as [z|] eqn:E end;
    [exfalso | reflexivity].
  apply refTail_inv in E. destruct E as (m & -> & Hm & _).
  apply (has_char_false _ _ Hpost).
  apply (app_eq_in_tail _ (w ++ ch :: m) (rest z) (o ++ str "]]") post rbracket).
  - rewrite <- (app_assoc o). rewrite Hs. rewrite <- app_assoc. reflexivity.
  - repeat rewrite length_app. simpl. lia.
Qed.

(** No label can be read where there is no divider. *)
Lemma label_fails_no_divider : forall k s0 s,
  has_char divider s = false ->
  star_greedy_cls is_dot (label_cont k s0) s [] = None.
Proof.
  intros k s0 s Hs. apply star_greedy_none. intros w s' E.
  unfold label_cont. cbn [rest]. destruct s' as [|ch tl]; [reflexivity|].
  destruct (Ascii.eqb (canonicalize ch) (canonicalize divider)) eqn:C;
    [exfalso | reflexivity].
  apply Ascii.eqb_eq in C. apply canonicalize_special in C; [|auto]. subst ch.
  apply (has_char_false _ _ Hs). rewrite E. apply in_or_app. right. now left.
Qed.

(** Equations between texts built with [++]. *)
Ltac norm_app :=
  repeat (progress (cbn [app str list_ascii_of_string]; rewrite <- ?app_assoc)).
Ltac text_eq := norm_app; reflexivity.

(** ** [renamePattern] on one link *)

Lemma rename_match_open : forall o s,
  rmatch (renamePattern (escapeForRegExp o)) Some (mkState (str "[[" ++ s) []) =
  star_lazy_cls is_space (rmatch (Seq (opt labelGroup) (refTail o)) Some) s [].
Proof.
  intros o s. rewrite renamePattern_escape, rmatch_Seq.
  rewrite (rmatch_lit_same _ _ _ _ _ (same_text_refl (str "[["))).
  rewrite rmatch_Seq. apply rmatch_star_lazy.
Qed.

Lemma rename_match_closed : forall o c s,
  c <> lbracket ->
  rmatch (renamePattern (escapeForRegExp o)) Some (mkState (c :: s) []) = None.
Proof.
  intros o c s Hc. rewrite renamePattern_escape, rmatch_Seq.
  change (lit (str "[[")) with (Seq (Chr lbracket) (lit [lbracket])).
  rewrite rmatch_Seq, rmatch_Chr.
  destruct (Ascii.eqb (canonicalize c) (canonicalize lbracket)) eqn:E;
    [|reflexivity].
  apply Ascii.eqb_eq in E. apply canonicalize_special in E; [|auto].
  contradiction.
Qed.

Lemma rename_match_nil : forall o,
  rmatch (renamePattern (escapeForRegExp o)) Some (mkState [] []) = None.
Proof. intros o. rewrite renamePattern_escape. reflexivity. Qed.

Lemma firstn_app_exact : forall (A : Type) (a b : list A),
  firstn (length (a ++ b) - length b) (a ++ b) = a.
Proof.
  intros A a b. rewrite length_app.
  replace (length a + length b - length b) with (length a) by lia.
  rewrite firstn_app, Nat.sub_diag, firstn_all. simpl. apply app_nil_r.
Qed.

(** A labelled link at the start of the text, with no line terminator in
    the label and no closing bracket behind the link: the match is the
    link and the first capture is the label with its divider. *)
Lemma match_here_labelled : forall d o post,
  forallb is_dot d = true ->
  has_char rbracket post = false ->
  match_here (renamePattern (escapeForRegExp o))
             (str "[[" ++ d ++ divider :: o ++ str "]]" ++ post) =
  Some (mkResult [] (str "[[" ++ d ++ divider :: o ++ str "]]")
                 [(1, d ++ [divider])] post).
Proof.
  intros d o post Hd Hpost. unfold match_here.
  rewrite rename_match_open.
  rewrite (star_lazy_now _ _ _ _ (mkState post [(1, d ++ [divider])])).
  - cbn [rest captures]. do 2 f_equal.
    replace (str "[[" ++ d ++ divider :: o ++ str "]]" ++ post)
      with ((str "[[" ++ d ++ divider :: o ++ str "]]") ++ post)
      by text_eq.
    apply firstn_app_exact.
  - rewrite rmatch_Seq, rmatch_opt_label.
    erewrite star_greedy_skip; [reflexivity | exact Hd |].
    cbn [star_greedy_cls]. change (is_dot divider) with true. cbv iota.
    rewrite label_fails_at_ref by exact Hpost.
    unfold label_cont. cbn [rest]. rewrite Ascii.eqb_refl.
    replace (firstn _ _) with (d ++ [divider]).
    + apply refTail_at_ref. exact Hpost.
    + symmetry.
      replace (d ++ divider :: o ++ str "]]" ++ post)
        with ((d ++ [divider]) ++ (o ++ str "]]" ++ post))
        by text_eq.
      apply firstn_app_exact.
Qed.

(** A link without label at the start of the text. *)
Lemma match_here_unlabelled : forall o post,
  has_char rbracket post = false ->
  match_here (renamePattern (escapeForRegExp o))
             (str "[[" ++ o ++ str "]]" ++ post) =
  Some (mkResult [] (str "[[" ++ o ++ str "]]") [] post).
Proof.
  intros o post Hpost. unfold match_here.
  rewrite rename_match_open.
  rewrite (star_lazy_now _ _ _ _ (mkState post [])).
  - cbn [rest captures]. do 2 f_equal.
    replace (str "[[" ++ o ++ str "]]" ++ post)
      with ((str "[[" ++ o ++ str "]]") ++ post)
      by text_eq.
    apply firstn_app_exact.
  - rewrite rmatch_Seq, rmatch_opt_label.
    rewrite label_fails_at_ref by exact Hpost.
    apply refTail_at_ref. exact Hpost.
Qed.

(** ** Searching and replacing around one link *)

Lemma exec_no_lbracket : forall o s,
  has_char lbracket s = false ->
  regexp_exec (renamePattern (escapeForRegExp o)) s = None.
Proof.
  intros o s. induction s as [|c s IH]; intros H.
  - cbn [regexp_exec]. unfold match_here. now rewrite rename_match_nil.
  - rewrite has_char_cons in H. apply orb_false_iff in H.
    destruct H as [Hc Hs]. apply Ascii.eqb_neq in Hc.
    cbn [regexp_exec]. unfold match_here at 1.
    rewrite rename_match_closed by congruence.
    rewrite (IH Hs). reflexivity.
Qed.

Lemma exec_skip_pre : forall o pre s m,
  has_char lbracket pre = false ->
  match_here (renamePattern (escapeForRegExp o)) s = Some m ->
  regexp_exec (renamePattern (escapeForRegExp o)) (pre ++ s) =
  Some (mkResult (pre ++ before m) (matched m) (groups_of m) (after m)).
Proof.
  intros o pre s m. induction pre as [|c pre IH]; intros Hpre Hm.
  - simpl app. destruct s as [|c s]; cbn [regexp_exec]; rewrite Hm;
      destruct m; reflexivity.
  - rewrite has_char_cons in Hpre. apply orb_false_iff in Hpre.
    destruct Hpre as [Hc Hpre]. apply Ascii.eqb_neq in Hc.
    simpl app. cbn [regexp_exec]. unfold match_here at 1.
    rewrite rename_match_closed by congruence.
    rewrite (IH Hpre Hm). reflexivity.
Qed.

Lemma replace_loop_none : forall fuel r f s,
  regexp_exec r s = None -> replace_loop fuel r f s = s.
Proof.
  intros [|n] r f s H; simpl; [reflexivity | now rewrite H].
Qed.

(** Replacing in a text that holds one link, between a text without
    opening bracket and a text without brackets. *)
Lemma replace_all_one_link : forall o f pre link caps post,
  has_char lbracket pre = false ->
  has_char lbracket post = false ->
  link <> [] ->
  match_here (renamePattern (escapeForRegExp o)) (link ++ post) =
    Some (mkResult [] link caps post) ->
  regexp_exec (renamePattern (escapeForRegExp o)) (pre ++ link ++ post) <> None /\
  replace_all (renamePattern (escapeForRegExp o)) f (pre ++ link ++ post) =
  pre ++ f link caps ++ post.
Proof.
  intros o f pre link caps post Hpre Hpost Hlink Hm.
  pose proof (exec_skip_pre o pre _ _ Hpre Hm) as E. cbn in E.
  split; [rewrite E; discriminate|].
  unfold replace_all. cbn [replace_loop]. rewrite E. cbn.
  rewrite app_nil_r.
  destruct link as [|c link]; [contradiction|].
  rewrite replace_loop_none by (apply exec_no_lbracket; exact Hpost).
  reflexivity.
Qed.

Lemma replaceRefs_single : forall r content,
  replaceRefs [r] content =
  if pair_matches content r
  then Some (replace_all (renamePattern (escapeForRegExp (old r)))
                         (replacement r) content)
  else None.
Proof.
  intros r content. rewrite replaceRefs_unfold. simpl.
  destruct (pair_matches content r); reflexivity.
Qed.

(** ** Trimming *)

Lemma trimStart_app_stop : forall a c b,
  is_space c = false -> trimStart (a ++ c :: b) = trimStart a ++ c :: b.
Proof.
  intros a c b Hc. induction a as [|x a IH]; simpl.
  - now rewrite Hc.
  - destruct (is_space x); [exact IH | reflexivity].
Qed.

Lemma trimEnd_snoc_stop : forall a c,
  is_space c = false -> trimEnd (a ++ [c]) = a ++ [c].
Proof.
  intros a c Hc. unfold trimEnd. rewrite rev_app_distr. simpl.
  rewrite Hc. simpl. now rewrite rev_involutive.
Qed.

(** The captured label ends with the divider, so [_.trim] removes the
    blanks in front of it only. *)
Lemma trim_label : forall d,
  trim (d ++ [divider]) = trimStart d ++ [divider].
Proof.
  intros d. unfold trim. rewrite trimEnd_snoc_stop by reflexivity.
  apply trimStart_app_stop. reflexivity.
Qed.

(** ** [replaceRefs] on one link *)

Lemma replaceRefs_labelled_link : forall pre d o n post,
  has_char lbracket pre = false ->
  forallb is_dot d = true ->
  has_char lbracket post = false ->
  has_char rbracket post = false ->
  replaceRefs [mkRename o n]
              (pre ++ str "[[" ++ d ++ divider :: o ++ str "]]" ++ post) =
  Some (pre ++ str "[[" ++ trimStart d ++ divider :: n ++ str "]]" ++ post).
Proof.
  intros pre d o n post Hpre Hd Hpost1 Hpost2.
  pose proof (match_here_labelled d o post Hd Hpost2) as Hm.
  destruct (replace_all_one_link o (replacement (mkRename o n)) pre
              (str "[[" ++ d ++ divider :: o ++ str "]]")
              [(1, d ++ [divider])] post Hpre Hpost1) as [Hex Hrep].
  - discriminate.
  - rewrite <- Hm. f_equal. text_eq.
  - rewrite replaceRefs_single. unfold pair_matches. cbn [old].
    replace (pre ++ str "[[" ++ d ++ divider :: o ++ str "]]" ++ post)
      with (pre ++ (str "[[" ++ d ++ divider :: o ++ str "]]") ++ post)
      by text_eq.
    destruct (regexp_exec _ _); [|contradiction]. cbn [isSome].
    rewrite Hrep. unfold replacement. cbn [get_capture Nat.eqb new].
    rewrite trim_label. f_equal. text_eq.
Qed.

Lemma replaceRefs_plain_link : forall pre o n post,
  has_char lbracket pre = false ->
  has_char lbracket post = false ->
  has_char rbracket post = false ->
  replaceRefs [mkRename o n] (pre ++ str "[[" ++ o ++ str "]]" ++ post) =
  Some (pre ++ str "[[" ++ n ++ str "]]" ++ post).
Proof.
  intros pre o n post Hpre Hpost1 Hpost2.
  pose proof (match_here_unlabelled o post Hpost2) as Hm.
  destruct (replace_all_one_link o (replacement (mkRename o n)) pre
              (str "[[" ++ o ++ str "]]") [] post Hpre Hpost1) as [Hex Hrep].
  - discriminate.
  - rewrite <- Hm. f_equal. text_eq.
  - rewrite replaceRefs_single. unfold pair_matches. cbn [old].
    replace (pre ++ str "[[" ++ o ++ str "]]" ++ post)
      with (pre ++ (str "[[" ++ o ++ str "]]") ++ post) by text_eq.
    destruct (regexp_exec _ _); [|contradiction]. cbn [isSome].
    rewrite Hrep. unfold replacement. cbn [get_capture new].
    f_equal. text_eq.
Qed.

(** ** The rewrite engine: results *)

(** C1, on the code as it is: every rewriting starts from the original
    content again, so when the last pair of a batch matches, the returned
    string is the rewriting for that pair alone, whatever the pairs in front
    of it did.  In a batch of two pairs that both match, the link of the
    first pair comes back unchanged. *)
Theorem replaceRefs_second_pair_drops_first :
  (forall content front r,
     pair_matches content r = true ->
     replaceRefs (front ++ [r]) content =
     Some (replace_all (renamePattern (escapeForRegExp (old r)))
                       (replacement r) content)) /\
  replaceRefs [mkRename (str "a") (str "x"); mkRename (str "b") (str "y")]
              (str "[[a]] [[b]]")
  = Some (str "[[a]] [[y]]").
Proof.
  split.
  - intros content front r Hr.
    apply (replaceRefs_last_match content [] r Hr eq_refl front).
  - vm_compute. reflexivity.
Qed.


(** C4, counterexample: the pair a -> a on the content [[a]] gives the
    string [[a]], identical to the input, and not [null]. *)
Lemma replaceRefs_same_name_returns_string :
  old (mkRename (str "a") (str "a")) = new (mkRename (str "a") (str "a")) /\
  replaceRefs [mkRename (str "a") (str "a")] (str "[[a]]") = Some (str "[[a]]").
Proof. split; vm_compute; reflexivity. Qed.

(** C4, as amended: for a pair whose old and new names are the same,
    [replaceRefs] returns [null] exactly when no link of the content matches
    the name; on the content that is the link to the name it returns that
    same string. *)
Theorem replaceRefs_same_name : forall content name,
  (replaceRefs [mkRename name name] content = None <->
   pair_matches content (mkRename name name) = false) /\
  replaceRefs [mkRename name name] (str "[[" ++ name ++ str "]]")
  = Some (str "[[" ++ name ++ str "]]").
Proof.
  intros content name. split.
  - rewrite replaceRefs_single.
    destruct (pair_matches content (mkRename name name)); split; congruence.
  - pose proof (replaceRefs_plain_link [] name name [] eq_refl eq_refl eq_refl)
      as H.
    rewrite app_nil_r in H. exact H.
Qed.

(** C5, on the code as it is: the label part [(.*\|)?] of the pattern is
    greedy.  On a line that holds a link and, behind it, a labelled link to
    the old reference, the match starts at the first link and its label runs
    over that link up to the last divider: the first link is kept as part of
    the label, also when it is itself a link to the old reference, and only
    the last link is rewritten.  For the content [[x|Old]] and [[y|Old]] the
    result does not hold [[x|New]] and still holds Old. *)
Theorem replaceRefs_label_runs_over_earlier_link :
  (forall first mid display oldRef newRef post,
     forallb is_dot (first ++ str "]]" ++ mid ++ str "[[" ++ display) = true ->
     has_char lbracket post = false ->
     has_char rbracket post = false ->
     replaceRefs [mkRename oldRef newRef]
       (str "[[" ++ first ++ str "]]" ++ mid ++ str "[[" ++ display
            ++ divider :: oldRef ++ str "]]" ++ post)
     = Some (str "[[" ++ trimStart first ++ str "]]" ++ mid ++ str "[["
                 ++ display ++ divider :: newRef ++ str "]]" ++ post)) /\
  includes (str "[[x|Old]]") (str "[[x|Old]] and [[y|Old]]") = true /\
  replaceRefs [mkRename (str "Old") (str "New")] (str "[[x|Old]] and [[y|Old]]")
  = Some (str "[[x|Old]] and [[y|New]]") /\
  includes (str "[[x|New]]") (str "[[x|Old]] and [[y|New]]") = false /\
  includes (str "Old") (str "[[x|Old]] and [[y|New]]") = true.
Proof.
  split; [|repeat split; vm_compute; reflexivity].
  intros first mid d o n post Hdot Hp1 Hp2.
  assert (E : forall o',
             str "[[" ++ first ++ str "]]" ++ mid ++ str "[[" ++ d
                 ++ divider :: o' ++ str "]]" ++ post
             = [] ++ str "[[" ++ (first ++ str "]]" ++ mid ++ str "[[" ++ d)
                  ++ divider :: o' ++ str "]]" ++ post)
    by (intros o'; text_eq).
  rewrite E.
  rewrite (replaceRefs_labelled_link []
             (first ++ str "]]" ++ mid ++ str "[[" ++ d) o n post
             eq_refl Hdot Hp1 Hp2).
  f_equal.
  change (str "]]" ++ mid ++ str "[[" ++ d)
    with (rbracket :: (rbracket :: mid ++ str "[[" ++ d)).
  rewrite trimStart_app_stop by reflexivity. text_eq.
Qed.

(** X22: in a content that holds one link between a text without
    opening bracket and a text without brackets, a labelled link
    [[display|OldRef]] whose label has no line terminator is rewritten to
    [[display|NewRef]], the label kept but for the blanks in front of it, and
    a link [[OldRef]] without label is rewritten to [[NewRef]], without
    label; the text around the link is returned as it is. *)
Theorem replaceRefs_rewrites_one_link : forall pre display oldRef newRef post,
  has_char lbracket pre = false ->
  forallb is_dot display = true ->
  has_char lbracket post = false ->
  has_char rbracket post = false ->
  replaceRefs [mkRename oldRef newRef]
    (pre ++ str "[[" ++ display ++ divider :: oldRef ++ str "]]" ++ post)
  = Some (pre ++ str "[[" ++ trimStart display ++ divider :: newRef
              ++ str "]]" ++ post)
  /\
  replaceRefs [mkRename oldRef newRef]
    (pre ++ str "[[" ++ oldRef ++ str "]]" ++ post)
  = Some (pre ++ str "[[" ++ newRef ++ str "]]" ++ post).
Proof.
  intros pre display oldRef newRef post Hpre Hd Hpost1 Hpost2. split.
  - apply replaceRefs_labelled_link; assumption.
  - apply replaceRefs_plain_link; assumption.
Qed.

Lemma replaceRefs_rewrites_one_link_witness :
  replaceRefs [mkRename (str "OldRef") (str "NewRef")]
              (str "see [[display|OldRef]], then")
  = Some (str "see [[display|NewRef]], then") /\
  replaceRefs [mkRename (str "OldRef") (str "NewRef")]
              (str "see [[OldRef]], then")
  = Some (str "see [[NewRef]], then").
Proof.
  exact (replaceRefs_rewrites_one_link
           (str "see ") (str "display") (str "OldRef") (str "NewRef")
           (str ", then") eq_refl eq_refl eq_refl eq_refl).
Defined.

(** ** [parseRef] *)

Lemma indexOf_split_first : forall c s,
  match indexOf c s with
  | None => split_first c s = None
  | Some i => split_first c s = Some (firstn i s, skipn (S i) s)
  end.
Proof.
  intros c s. induction s as [|x s IH]; simpl; [reflexivity|].
  destruct (Ascii.eqb x c); [reflexivity|].
  destruct (indexOf c s) as [i|]; simpl; now rewrite IH.
Qed.

Lemma slice_to_end : forall i s, slice i (length s) s = skipn i s.
Proof.
  intros i s. unfold slice. rewrite <- (length_skipn i s). apply firstn_all.
Qed.

Lemma slice_from_start : forall i s, slice 0 i s = firstn i s.
Proof. intros i s. unfold slice. now rewrite Nat.sub_0_r. Qed.

Lemma parseRef_parse_spec : forall rawRef, parseRef rawRef = parse_spec rawRef.
Proof.
  intros s. unfold parseRef, parse_spec.
  pose proof (indexOf_split_first divider s) as H.
  destruct (indexOf divider s) as [i|]; rewrite H; [|reflexivity].
  rewrite slice_to_end, slice_from_start, Nat.add_1_r. reflexivity.
Qed.

Lemma split_first_app : forall c d r,
  has_char c d = false -> split_first c (d ++ c :: r) = Some (d, r).
Proof.
  intros c d r. induction d as [|x d IH]; intros H.
  - simpl. now rewrite Ascii.eqb_refl.
  - rewrite has_char_cons in H. apply orb_false_iff in H. destruct H as [Hx Hd].
    simpl. rewrite Ascii.eqb_sym, Hx. now rewrite (IH Hd).
Qed.

Lemma split_first_none : forall c s,
  has_char c s = false -> split_first c s = None.
Proof.
  intros c s. induction s as [|x s IH]; intros H; [reflexivity|].
  rewrite has_char_cons in H. apply orb_false_iff in H. destruct H as [Hx Hs].
  simpl. rewrite Ascii.eqb_sym, Hx. now rewrite (IH Hs).
Qed.

Lemma has_char_split : forall c s,
  has_char c s = true ->
  exists d r, s = d ++ c :: r /\ has_char c d = false.
Proof.
  intros c s. induction s as [|x s IH]; intros H; [discriminate|].
  rewrite has_char_cons in H. destruct (Ascii.eqb c x) eqn:E.
  - apply Ascii.eqb_eq in E. subst x. exists [], s. split; reflexivity.
  - simpl in H. destruct (IH H) as (d & r & -> & Hd).
    exists (x :: d), r. split; [reflexivity|].
    rewrite has_char_cons, E. exact Hd.
Qed.

Lemma count_char_zero : forall c s,
  count_char c s = 0 -> has_char c s = false.
Proof.
  intros c s. unfold count_char, has_char.
  induction s as [|x s IH]; simpl; [reflexivity|].
  destruct (Ascii.eqb c x); simpl; [discriminate | exact IH].
Qed.

Lemma count_char_hit : forall c s,
  count_char c (c :: s) = S (count_char c s).
Proof. intros c s. unfold count_char. simpl. now rewrite Ascii.eqb_refl. Qed.

Lemma count_char_app : forall c a b,
  count_char c (a ++ b) = count_char c a + count_char c b.
Proof.
  intros c a b. unfold count_char. now rewrite filter_app, length_app.
Qed.

(** ** More on trimming *)

Lemma trimStart_decompose : forall s,
  exists w, s = w ++ trimStart s /\ forallb is_space w = true.
Proof.
  induction s as [|c s (w & Hs & Hw)]; simpl.
  - exists []. split; reflexivity.
  - destruct (is_space c) eqn:E.
    + exists (c :: w). split; [simpl; now rewrite <- Hs | simpl; now rewrite E].
    + exists []. split; reflexivity.
Qed.

Lemma trimStart_head : forall c s,
  trimStart s = c :: s -> False.
Proof.
  intros c s H. destruct (trimStart_decompose s) as (w & Hs & _).
  apply (f_equal (@length ascii)) in Hs. rewrite length_app, H in Hs.
  simpl in Hs. lia.
Qed.

Lemma trimStart_fixed : forall c s,
  trimStart (c :: s) = c :: s -> is_space c = false.
Proof.
  intros c s H. simpl in H. destruct (is_space c); [|reflexivity].
  exfalso. apply (trimStart_head c s H).
Qed.

Lemma trimStart_idem : forall s, trimStart (trimStart s) = trimStart s.
Proof.
  induction s as [|c s IH]; simpl; [reflexivity|].
  destruct (is_space c) eqn:E; [exact IH|]. simpl. now rewrite E.
Qed.

Lemma forallb_rev : forall (A : Type) (p : A -> bool) (l : list A),
  forallb p (rev l) = forallb p l.
Proof.
  intros A p l. induction l as [|a l IH]; simpl; [reflexivity|].
  rewrite forallb_app, IH. simpl. rewrite andb_true_r. apply andb_comm.
Qed.

Lemma trimEnd_decompose : forall s,
  exists w, s = trimEnd s ++ w /\ forallb is_space w = true.
Proof.
  intros s. destruct (trimStart_decompose (rev s)) as (w & Hs & Hw).
  exists (rev w). split.
  - unfold trimEnd. rewrite <- rev_app_distr, <- Hs. now rewrite rev_involutive.
  - now rewrite forallb_rev.
Qed.

Lemma trim_decompose : forall s,
  exists w1 w2, s = w1 ++ trim s ++ w2 /\
                forallb is_space w1 = true /\ forallb is_space w2 = true /\
                trimStart (trim s) = trim s.
Proof.
  intros s. destruct (trimEnd_decompose s) as (w2 & Hs & Hw2).
  destruct (trimStart_decompose (trimEnd s)) as (w1 & Hs1 & Hw1).
  exists w1, w2. repeat split; try assumption.
  - unfold trim. rewrite app_assoc, <- Hs1. exact Hs.
  - unfold trim. apply trimStart_idem.
Qed.

Lemma trimEnd_cons : forall c s,
  trimEnd (c :: s) =
  match trimEnd s with
  | [] => if is_space c then [] else [c]
  | x :: l => c :: x :: l
  end.
Proof.
  intros c s. unfold trimEnd. simpl rev.
  destruct (trimStart_decompose (rev s)) as (w & Hs & Hw).
  destruct (trimStart (rev s)) as [|y t] eqn:E.
  - rewrite app_nil_r in Hs. rewrite Hs. simpl.
    clear - Hw. induction w as [|a w IH]; simpl.
    + destruct (is_space c); reflexivity.
    + simpl in Hw. apply andb_true_iff in Hw. destruct Hw as [Ha Hw].
      rewrite Ha. apply IH. exact Hw.
  - assert (Hy : is_space y = false).
    { apply (trimStart_fixed y t). rewrite <- E. apply trimStart_idem. }
    rewrite Hs at 1. rewrite <- app_assoc. simpl app.
    replace (trimStart (w ++ y :: t ++ [c])) with (y :: t ++ [c]).
    + simpl rev at 1. rewrite rev_app_distr. simpl.
      destruct (rev t ++ [y]) eqn:R; [destruct (rev t); discriminate|].
      reflexivity.
    + clear - Hw Hy. induction w as [|a w IH]; simpl.
      * now rewrite Hy.
      * simpl in Hw. apply andb_true_iff in Hw. destruct Hw as [Ha Hw].
        rewrite Ha. apply IH. exact Hw.
Qed.

Lemma trim_comm : forall s, trimEnd (trimStart s) = trimStart (trimEnd s).
Proof.
  induction s as [|c s IH]; [reflexivity|].
  rewrite trimEnd_cons. simpl trimStart at 1.
  destruct (is_space c) eqn:E.
  - rewrite IH. destruct (trimEnd s); simpl; rewrite ?E; reflexivity.
  - rewrite trimEnd_cons. destruct (trimEnd s); simpl; rewrite ?E; reflexivity.
Qed.

Lemma trim_trimStart : forall s, trim (trimStart s) = trim s.
Proof.
  intros s. unfold trim. rewrite trim_comm. apply trimStart_idem.
Qed.

(** ** [renamePattern] on a token whose reference is surrounded by blanks *)

Lemma refTail_blanks : forall o w1 w2 post caps,
  forallb is_space w1 = true ->
  forallb is_space w2 = true ->
  trimStart o = o ->
  rmatch (refTail o) Some (mkState (w1 ++ o ++ w2 ++ str "]]" ++ post) caps) =
  Some (mkState post caps).
Proof.
  intros o w1 w2 post caps H1 H2 Ho. unfold refTail.
  rewrite rmatch_Seq, rmatch_star_greedy.
  apply star_greedy_skip; [exact H1|].
  destruct o as [|c o].
  - simpl app. apply star_greedy_skip; [exact H2|].
    change (str "]]" ++ post) with (rbracket :: rbracket :: post).
    rewrite star_greedy_stop by reflexivity.
    apply (refCore_at_ref [] [] [] post caps); reflexivity.
  - simpl app. rewrite star_greedy_stop by (apply (trimStart_fixed c o Ho)).
    apply (refCore_at_ref (c :: o) (c :: o) w2 post caps);
      [apply same_text_refl | exact H2].
Qed.

Lemma match_here_labelled_blanks : forall d o w1 w2,
  forallb is_dot d = true ->
  has_char divider (w1 ++ o ++ w2) = false ->
  forallb is_space w1 = true ->
  forallb is_space w2 = true ->
  trimStart o = o ->
  match_here (renamePattern (escapeForRegExp o))
             (str "[[" ++ d ++ divider :: w1 ++ o ++ w2 ++ str "]]") =
  Some (mkResult [] (str "[[" ++ d ++ divider :: w1 ++ o ++ w2 ++ str "]]")
                 [(1, d ++ [divider])] []).
Proof.
  intros d o w1 w2 Hd Hdiv H1 H2 Ho. unfold match_here.
  rewrite rename_match_open.
  rewrite (star_lazy_now _ _ _ _ (mkState [] [(1, d ++ [divider])])).
  - cbn [rest captures length]. rewrite Nat.sub_0_r, firstn_all. reflexivity.
  - rewrite rmatch_Seq, rmatch_opt_label.
    erewrite star_greedy_skip; [reflexivity | exact Hd |].
    cbn [star_greedy_cls]. change (is_dot divider) with true. cbv iota.
    rewrite label_fails_no_divider.
    + unfold label_cont. cbn [rest]. rewrite Ascii.eqb_refl.
      replace (firstn _ _) with (d ++ [divider]).
      * pose proof (refTail_blanks o w1 w2 [] [(1, d ++ [divider])] H1 H2 Ho)
          as T.
        rewrite app_nil_r in T. exact T.
      * symmetry.
        replace (d ++ divider :: w1 ++ o ++ w2 ++ str "]]")
          with ((d ++ [divider]) ++ (w1 ++ o ++ w2 ++ str "]]")) by text_eq.
        apply firstn_app_exact.
    + replace (w1 ++ o ++ w2 ++ str "]]") with ((w1 ++ o ++ w2) ++ str "]]")
        by text_eq.
      rewrite has_char_app, Hdiv. reflexivity.
Qed.

Lemma match_here_unlabelled_blanks : forall o w1 w2,
  has_char divider (w1 ++ o ++ w2) = false ->
  forallb is_space w1 = true ->
  forallb is_space w2 = true ->
  trimStart o = o ->
  match_here (renamePattern (escapeForRegExp o))
             (str "[[" ++ w1 ++ o ++ w2 ++ str "]]") =
  Some (mkResult [] (str "[[" ++ w1 ++ o ++ w2 ++ str "]]") [] []).
Proof.
  intros o w1 w2 Hdiv H1 H2 Ho. unfold match_here.
  rewrite rename_match_open.
  rewrite (star_lazy_now _ _ _ _ (mkState [] [])).
  - cbn [rest captures length]. rewrite Nat.sub_0_r, firstn_all. reflexivity.
  - rewrite rmatch_Seq, rmatch_opt_label.
    rewrite label_fails_no_divider.
    + pose proof (refTail_blanks o w1 w2 [] [] H1 H2 Ho) as T.
      rewrite app_nil_r in T. exact T.
    + replace (w1 ++ o ++ w2 ++ str "]]") with ((w1 ++ o ++ w2) ++ str "]]")
        by text_eq.
      rewrite has_char_app, Hdiv. reflexivity.
Qed.

(** Replacing in a text that is one link. *)
Lemma replaceRefs_whole_link : forall o n link caps,
  link <> [] ->
  match_here (renamePattern (escapeForRegExp o)) link =
    Some (mkResult [] link caps []) ->
  replaceRefs [mkRename o n] link = Some (replacement (mkRename o n) link caps).
Proof.
  intros o n link caps Hlink Hm.
  destruct (replace_all_one_link o (replacement (mkRename o n)) [] link caps []
              eq_refl eq_refl Hlink) as [Hex Hrep].
  - rewrite app_nil_r. exact Hm.
  - rewrite replaceRefs_single. unfold pair_matches. cbn [old].
    simpl app in Hex, Hrep. rewrite app_nil_r in Hex, Hrep.
    destruct (regexp_exec _ _); [|contradiction]. cbn [isSome].
    rewrite Hrep. now rewrite app_nil_r.
Qed.

Lemma has_char_trimStart : forall c s,
  has_char c s = false -> has_char c (trimStart s) = false.
Proof.
  intros c s H. destruct (trimStart_decompose s) as (w & Hs & _).
  rewrite Hs, has_char_app in H. apply orb_false_iff in H. apply H.
Qed.

Lemma parseRef_divided : forall d r,
  has_char divider d = false ->
  parseRef (d ++ divider :: r) = mkRef (trim r) (trim d).
Proof.
  intros d r H. rewrite parseRef_parse_spec. unfold parse_spec.
  now rewrite split_first_app.
Qed.

Lemma parseRef_undivided : forall s,
  has_char divider s = false -> parseRef s = mkRef (trim s) (trim s).
Proof.
  intros s H. rewrite parseRef_parse_spec. unfold parse_spec.
  now rewrite split_first_none.
Qed.

Lemma link_nonempty : forall s, str "[[" ++ s <> [].
Proof. intros s. cbn. discriminate. Qed.

(** ** The two parsers *)




(** ** Insertion-ordered sets *)

Lemma set_has_In : forall x s, set_has x s = true <-> In x s.
Proof.
  intros x s. unfold set_has. rewrite existsb_exists. split.
  - intros (y & Hy & E). apply jsstring_eqb_eq in E. now subst.
  - intros H. exists x. split; [exact H | apply jsstring_eqb_refl].
Qed.

Lemma set_has_not_In : forall x s, set_has x s = false <-> ~ In x s.
Proof.
  intros x s. rewrite <- set_has_In. destruct (set_has x s); split; congruence.
Qed.

Lemma first_index_in : forall l x, In x l -> first_index l x < length l.
Proof.
  induction l as [|y l IH]; intros x H; [contradiction|]. simpl.
  destruct (jsstring_eqb y x) eqn:E; [lia|].
  apply jsstring_eqb_neq in E. destruct H as [H|H]; [congruence|].
  specialize (IH x H). lia.
Qed.

Lemma first_index_app_in : forall l l' x,
  In x l -> first_index (l ++ l') x = first_index l x.
Proof.
  induction l as [|y l IH]; intros l' x H; [contradiction|]. simpl.
  destruct (jsstring_eqb y x) eqn:E; [reflexivity|].
  apply jsstring_eqb_neq in E. destruct H as [H|H]; [congruence|].
  now rewrite IH.
Qed.

Lemma first_index_app_new : forall l l' x,
  ~ In x l -> first_index (l ++ x :: l') x = length l.
Proof.
  induction l as [|y l IH]; intros l' x H; simpl.
  - now rewrite jsstring_eqb_refl.
  - destruct (jsstring_eqb y x) eqn:E.
    + apply jsstring_eqb_eq in E. subst. exfalso. apply H. now left.
    + rewrite IH; [reflexivity|]. intros Hin. apply H. now right.
Qed.

Lemma StronglySorted_snoc : forall (l : list nat) n,
  StronglySorted lt l -> (forall m, In m l -> m < n) ->
  StronglySorted lt (l ++ [n]).
Proof.
  induction l as [|a l IH]; intros n Hs Hn; simpl.
  - constructor; constructor.
  - inversion Hs as [|? ? Hs' Ha]; subst. constructor.
    + apply IH; [exact Hs'|]. intros m Hm. apply Hn. now right.
    + apply Forall_app. split; [exact Ha|].
      constructor; [|constructor]. apply Hn. now left.
Qed.

(** The set built from [l], started from the set [acc] of the elements of
    the part [seen] of the whole array [seen ++ l]. *)
Lemma fold_set_add : forall l seen acc,
  NoDup acc ->
  (forall x, In x acc <-> In x seen) ->
  StronglySorted lt (map (first_index (seen ++ l)) acc) ->
  let out := fold_left set_add l acc in
  NoDup out /\
  (forall x, In x out <-> In x (seen ++ l)) /\
  StronglySorted lt (map (first_index (seen ++ l)) out).
Proof.
  induction l as [|y l IH]; intros seen acc Hnd Hin Hs.
  - simpl. rewrite app_nil_r in *. repeat split; try assumption; apply Hin.
  - cbn [fold_left].
    change (set_add acc y) with (if set_has y acc then acc else acc ++ [y]).
    replace (seen ++ y :: l) with ((seen ++ [y]) ++ l) in * by text_eq.
    destruct (set_has y acc) eqn:E.
    + apply set_has_In in E. apply IH; [exact Hnd | | exact Hs].
      intros x. rewrite in_app_iff, Hin. simpl. split; [tauto|].
      intros [H|[<-|[]]]; [exact H | now apply Hin].
    + apply set_has_not_In in E. apply IH.
      * apply NoDup_app; [exact Hnd | repeat constructor; intros [] |].
        intros x Hx [<-|[]]. contradiction.
      * intros x. rewrite !in_app_iff, Hin. reflexivity.
      * rewrite map_app. simpl map. apply StronglySorted_snoc; [exact Hs|].
        intros m Hm. apply in_map_iff in Hm. destruct Hm as (x & <- & Hx).
        assert (Hx' : In x seen) by now apply Hin.
        replace ((seen ++ [y]) ++ l) with (seen ++ y :: l) by text_eq.
        rewrite first_index_app_in by exact Hx'.
        rewrite first_index_app_new by (rewrite <- Hin; exact E).
        apply first_index_in. exact Hx'.
Qed.

Lemma array_from_set_spec : forall l,
  NoDup (array_from_set l) /\
  (forall x, In x (array_from_set l) <-> In x l) /\
  StronglySorted lt (map (first_index l) (array_from_set l)).
Proof.
  intros l. apply (fold_set_add l [] []).
  - constructor.
  - intros x. reflexivity.
  - constructor.
Qed.

(** ** The per-file mapping *)

Lemma findDanglingRefsByFsPath_fold : forall h cache uris,
  findDanglingRefsByFsPath h cache uris = fold_left (scan_step h cache) uris [].
Proof.
  intros h cache uris. unfold findDanglingRefsByFsPath.
  assert (G : forall acc,
    fold_left
      (fun refsByFsPath fsPath =>
         if skipped h fsPath then refsByFsPath
         else
           match extractDanglingRefs cache (text_of h fsPath) with
           | _ :: _ =>
               obj_set fsPath (extractDanglingRefs cache (text_of h fsPath))
                       refsByFsPath
           | [] => refsByFsPath
           end) uris acc
    = fold_left (scan_step h cache) uris acc).
  { induction uris as [|u uris IH]; intros acc; [reflexivity|].
    cbn [fold_left]. rewrite IH. f_equal.
    unfold scan_step, scan_entry. destruct (skipped h u); [reflexivity|].
    destruct (extractDanglingRefs cache (text_of h u)); reflexivity. }
  apply G.
Qed.

Lemma obj_get_set : forall (V : Type) k k' (v : V) o,
  obj_get k' (obj_set k v o) =
  if jsstring_eqb k k' then Some v else obj_get k' o.
Proof.
  intros V k k' v o. induction o as [|[k0 v0] o IH]; simpl.
  - reflexivity.
  - destruct (jsstring_eqb k0 k) eqn:E; simpl.
    + apply jsstring_eqb_eq in E. subst k0.
      destruct (jsstring_eqb k k'); reflexivity.
    + rewrite IH. destruct (jsstring_eqb k0 k') eqn:E'; [|reflexivity].
      apply jsstring_eqb_eq in E'. subst k0. now rewrite jsstring_eqb_sym, E.
Qed.

Lemma obj_set_entries : forall (V : Type) k (v : V) o e,
  In e (obj_set k v o) -> e = (k, v) \/ In e o.
Proof.
  intros V k v o e. induction o as [|[k0 v0] o IH]; simpl.
  - intros [H|[]]. now left.
  - destruct (jsstring_eqb k0 k); simpl.
    + intros [H|H]; [now left | right; now right].
    + intros [H|H]; [right; now left|]. destruct (IH H); [now left | right; now right].
Qed.

Lemma obj_get_keys : forall (V : Type) k (o : list (jsstring * V)),
  In k (map fst o) <-> obj_get k o <> None.
Proof.
  intros V k o. induction o as [|[k0 v0] o IH]; simpl.
  - split; [contradiction | congruence].
  - destruct (jsstring_eqb k0 k) eqn:E.
    + apply jsstring_eqb_eq in E. split; [discriminate | now left].
    + apply jsstring_eqb_neq in E. rewrite <- IH. split.
      * intros [H|H]; [contradiction | exact H].
      * intros H. now right.
Qed.

Lemma scan_get : forall h cache uris acc p,
  obj_get p (fold_left (scan_step h cache) uris acc) =
  if existsb (jsstring_eqb p) uris then
    match scan_entry h cache p with
    | Some refs => Some refs
    | None => obj_get p acc
    end
  else obj_get p acc.
Proof.
  intros h cache uris. induction uris as [|u uris IH]; intros acc p.
  - reflexivity.
  - cbn [fold_left existsb]. rewrite IH.
    assert (Hstep : obj_get p (scan_step h cache acc u) =
                    if jsstring_eqb p u then
                      match scan_entry h cache p with
                      | Some refs => Some refs
                      | None => obj_get p acc
                      end
                    else obj_get p acc).
    { unfold scan_step. destruct (jsstring_eqb p u) eqn:E.
      - apply jsstring_eqb_eq in E. subst u.
        destruct (scan_entry h cache p); [|reflexivity].
        now rewrite obj_get_set, jsstring_eqb_refl.
      - destruct (scan_entry h cache u); [|reflexivity].
        now rewrite obj_get_set, jsstring_eqb_sym, E. }
    rewrite Hstep.
    destruct (jsstring_eqb p u), (existsb (jsstring_eqb p) uris),
             (scan_entry h cache p); reflexivity.
Qed.

Lemma scan_entries : forall h cache uris acc,
  (forall e, In e acc -> scan_entry h cache (fst e) = Some (snd e)) ->
  forall e, In e (fold_left (scan_step h cache) uris acc) ->
            scan_entry h cache (fst e) = Some (snd e).
Proof.
  intros h cache uris. induction uris as [|u uris IH]; intros acc Hacc e He.
  - now apply Hacc.
  - cbn [fold_left] in He. apply (IH (scan_step h cache acc u)); [|exact He].
    intros e' He'. unfold scan_step in He'.
    destruct (scan_entry h cache u) as [refs|] eqn:E; [|now apply Hacc].
    apply obj_set_entries in He'. destruct He' as [->|He']; [exact E|].
    now apply Hacc.
Qed.

Lemma existsb_eqb_In : forall p l,
  existsb (jsstring_eqb p) l = true <-> In p l.
Proof. intros p l. apply (set_has_In p l). Qed.

Lemma scan_entry_some : forall h cache p refs,
  scan_entry h cache p = Some refs <->
  skipped h p = false /\ refs = extractDanglingRefs cache (text_of h p) /\
  refs <> [].
Proof.
  intros h cache p refs. unfold scan_entry.
  destruct (skipped h p).
  - split; [discriminate | intros (H & _); discriminate].
  - destruct (extractDanglingRefs cache (text_of h p)) as [|c tl].
    + split; [discriminate | intros (_ & -> & H); congruence].
    + split.
      * intros H. injection H as <-. repeat split. discriminate.
      * intros (_ & -> & _). reflexivity.
Qed.

(** C9: the mapping of [findDanglingRefsByFsPath] has the key [p] exactly
    when [p] is one of the uris, is not skipped, and the scan of its text
    gave at least one dangling reference; and every entry holds the list of
    that scan, which is not empty. *)
Theorem findDanglingRefsByFsPath_keys : forall h cache uris p,
  (In p (map fst (findDanglingRefsByFsPath h cache uris)) <->
   In p uris /\ skipped h p = false /\
   extractDanglingRefs cache (text_of h p) <> []) /\
  (forall refs, In (p, refs) (findDanglingRefsByFsPath h cache uris) ->
     refs = extractDanglingRefs cache (text_of h p) /\ refs <> []).
Proof.
  intros h cache uris p. rewrite findDanglingRefsByFsPath_fold. split.
  - rewrite obj_get_keys, scan_get. cbn [obj_get].
    destruct (existsb (jsstring_eqb p) uris) eqn:E.
    + apply existsb_eqb_In in E.
      destruct (scan_entry h cache p) as [refs|] eqn:S.
      * apply scan_entry_some in S. destruct S as (S1 & -> & S3).
        split; [intros _; now repeat split | discriminate].
      * split; [congruence|]. intros (_ & Hs & Hx). exfalso.
        assert (S' : scan_entry h cache p =
                     Some (extractDanglingRefs cache (text_of h p)))
          by (apply scan_entry_some; now repeat split).
        congruence.
    + split; [congruence|]. intros (Hin & _).
      apply existsb_eqb_In in Hin. congruence.
  - intros refs Hin.
    apply (scan_entries h cache uris []) in Hin; [|intros e []].
    cbn [fst snd] in Hin. apply scan_entry_some in Hin. tauto.
Qed.

(** ** The shallow-first order and [sortPaths] *)

Lemma code_inj : forall x y, code x = code y -> x = y.
Proof.
  intros x y H. unfold code in H.
  rewrite <- (ascii_nat_embedding x), <- (ascii_nat_embedding y). now rewrite H.
Qed.

Lemma lex_leb_total : forall a b, lex_leb a b = true \/ lex_leb b a = true.
Proof.
  induction a as [|x a IH]; intros [|y b]; simpl; auto.
  destruct (Nat.lt_trichotomy (code x) (code y)) as [H|[H|H]].
  - left. apply orb_true_iff. left. now apply Nat.ltb_lt.
  - rewrite H, Nat.eqb_refl, Nat.ltb_irrefl. simpl. apply IH.
  - right. apply orb_true_iff. left. now apply Nat.ltb_lt.
Qed.

Lemma lex_leb_antisym : forall a b,
  lex_leb a b = true -> lex_leb b a = true -> a = b.
Proof.
  induction a as [|x a IH]; intros [|y b]; simpl; try congruence.
  intros H1 H2.
  apply orb_true_iff in H1. apply orb_true_iff in H2.
  destruct H1 as [H1|H1]; [apply Nat.ltb_lt in H1|];
    (destruct H2 as [H2|H2]; [apply Nat.ltb_lt in H2|]); try lia.
  - apply andb_true_iff in H2. destruct H2 as [H2 _].
    apply Nat.eqb_eq in H2. lia.
  - apply andb_true_iff in H1. destruct H1 as [H1 _].
    apply Nat.eqb_eq in H1. lia.
  - apply andb_true_iff in H1. apply andb_true_iff in H2.
    destruct H1 as [E H1], H2 as [_ H2]. apply Nat.eqb_eq in E.
    apply code_inj in E. subst y. f_equal. now apply IH.
Qed.

Lemma lex_leb_trans : forall a b c,
  lex_leb a b = true -> lex_leb b c = true -> lex_leb a c = true.
Proof.
  induction a as [|x a IH]; intros [|y b] [|z c]; simpl; try congruence.
  intros H1 H2.
  apply orb_true_iff in H1. apply orb_true_iff in H2. apply orb_true_iff.
  destruct H1 as [H1|H1]; [apply Nat.ltb_lt in H1|
    apply andb_true_iff in H1; destruct H1 as [E1 H1]; apply Nat.eqb_eq in E1];
  (destruct H2 as [H2|H2]; [apply Nat.ltb_lt in H2|
    apply andb_true_iff in H2; destruct H2 as [E2 H2]; apply Nat.eqb_eq in E2]).
  - left. apply Nat.ltb_lt. lia.
  - left. apply Nat.ltb_lt. lia.
  - left. apply Nat.ltb_lt. lia.
  - right. apply andb_true_iff. split; [apply Nat.eqb_eq; lia|].
    now apply (IH b c).
Qed.

Lemma path_le_total : forall a b, path_le a b \/ path_le b a.
Proof.
  intros a b. unfold path_le, path_leb.
  destruct (Nat.lt_trichotomy (path_depth a) (path_depth b)) as [H|[H|H]].
  - left. apply orb_true_iff. left. now apply Nat.ltb_lt.
  - rewrite H, Nat.eqb_refl, Nat.ltb_irrefl. simpl. apply lex_leb_total.
  - right. apply orb_true_iff. left. now apply Nat.ltb_lt.
Qed.

Lemma path_le_cases : forall a b,
  path_le a b <->
  path_depth a < path_depth b \/
  (path_depth a = path_depth b /\ lex_leb a b = true).
Proof.
  intros a b. unfold path_le, path_leb.
  rewrite orb_true_iff, andb_true_iff, Nat.ltb_lt, Nat.eqb_eq. reflexivity.
Qed.

Lemma path_le_antisym : forall a b, path_le a b -> path_le b a -> a = b.
Proof.
  intros a b H1 H2. apply path_le_cases in H1. apply path_le_cases in H2.
  destruct H1 as [H1|[E1 H1]], H2 as [H2|[E2 H2]]; try lia.
  now apply lex_leb_antisym.
Qed.

Lemma path_le_trans : forall a b c, path_le a b -> path_le b c -> path_le a c.
Proof.
  intros a b c H1 H2. apply path_le_cases in H1. apply path_le_cases in H2.
  apply path_le_cases.
  destruct H1 as [H1|[E1 H1]], H2 as [H2|[E2 H2]]; try (left; lia).
  right. split; [lia|]. now apply (lex_leb_trans a b c).
Qed.

Lemma insert_path_perm : forall x l, Permutation (x :: l) (insert_path x l).
Proof.
  intros x l. induction l as [|y l IH]; simpl.
  - apply Permutation_refl.
  - destruct (path_leb x y); [apply Permutation_refl|].
    apply perm_trans with (y :: x :: l); [apply perm_swap|].
    now apply perm_skip.
Qed.

Lemma sortPaths_perm : forall l, Permutation l (sortPaths l).
Proof.
  induction l as [|x l IH]; simpl; [constructor|].
  apply perm_trans with (x :: sortPaths l); [now apply perm_skip|].
  apply insert_path_perm.
Qed.

Lemma sortPaths_In : forall l x, In x (sortPaths l) <-> In x l.
Proof.
  intros l x. split; apply Permutation_in;
    [apply Permutation_sym|]; apply sortPaths_perm.
Qed.

Lemma insert_path_sorted : forall x l,
  StronglySorted path_le l -> StronglySorted path_le (insert_path x l).
Proof.
  intros x l. induction l as [|y l IH]; intros Hs; simpl.
  - repeat constructor.
  - inversion Hs as [|? ? Hs' Hy]; subst.
    destruct (path_leb x y) eqn:E.
    + constructor; [exact Hs|]. constructor; [exact E|].
      eapply Forall_impl; [|exact Hy]. intros z Hz.
      now apply (path_le_trans x y z).
    + constructor; [now apply IH|].
      assert (Hyx : path_le y x).
      { destruct (path_le_total x y) as [H|H]; [unfold path_le in H; congruence|].
        exact H. }
      apply Forall_forall. intros z Hz.
      apply (Permutation_in _ (Permutation_sym (insert_path_perm x l))) in Hz.
      destruct Hz as [<-|Hz]; [exact Hyx|].
      rewrite Forall_forall in Hy. now apply Hy.
Qed.

Lemma sortPaths_sorted : forall l, StronglySorted path_le (sortPaths l).
Proof.
  induction l as [|x l IH]; simpl; [constructor|]. now apply insert_path_sorted.
Qed.

(** Two sorted lists without duplicates that have the same elements are the
    same list. *)
Lemma sorted_unique : forall l1 l2 : list jsstring,
  StronglySorted path_le l1 -> StronglySorted path_le l2 ->
  NoDup l1 -> NoDup l2 ->
  (forall x, In x l1 <-> In x l2) -> l1 = l2.
Proof.
  induction l1 as [|a l1 IH]; intros [|b l2] S1 S2 N1 N2 H.
  - reflexivity.
  - exfalso. apply (proj2 (H b)). now left.
  - exfalso. apply (proj1 (H a)). now left.
  - inversion S1 as [|? ? S1' Ha]; inversion S2 as [|? ? S2' Hb]; subst.
    inversion N1 as [|? ? Na N1']; inversion N2 as [|? ? Nb N2']; subst.
    rewrite Forall_forall in Ha, Hb.
    assert (E : a = b).
    { destruct (proj1 (H a) (or_introl eq_refl)) as [E|Hab]; [now symmetry|].
      destruct (proj2 (H b) (or_introl eq_refl)) as [E|Hba]; [exact E|].
      apply path_le_antisym; [now apply Ha | now apply Hb]. }
    subst b. f_equal. apply IH; try assumption.
    intros x. split; intros Hx.
    + destruct (proj1 (H x) (or_intror Hx)) as [<-|H']; [contradiction | exact H'].
    + destruct (proj2 (H x) (or_intror Hx)) as [<-|H']; [contradiction | exact H'].
Qed.

(** ** The vault-wide list *)

Lemma obj_get_In : forall (V : Type) k (v : V) o,
  obj_get k o = Some v -> In (k, v) o.
Proof.
  intros V k v o. induction o as [|[k0 v0] o IH]; simpl; [discriminate|].
  destruct (jsstring_eqb k0 k) eqn:E.
  - apply jsstring_eqb_eq in E. intros H. injection H as <-. subst. now left.
  - intros H. right. now apply IH.
Qed.

Lemma scan_member : forall h cache uris p refs,
  In (p, refs) (findDanglingRefsByFsPath h cache uris) <->
  In p uris /\ scan_entry h cache p = Some refs.
Proof.
  intros h cache uris p refs. rewrite findDanglingRefsByFsPath_fold. split.
  - intros Hin. split.
    + assert (K : In p (map fst (fold_left (scan_step h cache) uris [])))
        by (apply in_map_iff; exists (p, refs); split; [reflexivity | exact Hin]).
      apply obj_get_keys in K. rewrite scan_get in K. cbn [obj_get] in K.
      destruct (existsb (jsstring_eqb p) uris) eqn:E; [|congruence].
      now apply existsb_eqb_In.
    + apply (scan_entries h cache uris []) in Hin; [exact Hin | intros e []].
  - intros [Hin Hs]. apply obj_get_In. rewrite scan_get.
    apply existsb_eqb_In in Hin. now rewrite Hin, Hs.
Qed.

Lemma danglingRefs_member : forall h cache r,
  In r (danglingRefs (cacheRefs h cache)) <->
  exists p refs,
    In (p, refs) (danglingRefsByFsPath (cacheRefs h cache)) /\ In r refs.
Proof.
  intros h cache r. cbn [cacheRefs danglingRefs danglingRefsByFsPath].
  rewrite sortPaths_In.
  rewrite (proj1 (proj2 (array_from_set_spec _))).
  rewrite in_flat_map. unfold obj_values. split.
  - intros (refs & Hrefs & Hr). apply in_map_iff in Hrefs.
    destruct Hrefs as ([p refs'] & <- & Hin). exists p, refs'. now split.
  - intros (p & refs & Hin & Hr). exists refs. split; [|exact Hr].
    apply in_map_iff. exists (p, refs). now split.
Qed.

Lemma extractDanglingRefs_allUris : forall c c' content,
  allUris c' = allUris c ->
  extractDanglingRefs c' content = extractDanglingRefs c content.
Proof.
  intros c c' content H. unfold extractDanglingRefs, pushed_refs.
  f_equal. apply flat_map_ext. intros line. apply flat_map_ext. intros m.
  unfold pushed_by_match. now rewrite H.
Qed.

Lemma scan_entry_allUris : forall h c c' p,
  allUris c' = allUris c -> scan_entry h c' p = scan_entry h c p.
Proof.
  intros h c c' p H. unfold scan_entry.
  now rewrite (extractDanglingRefs_allUris c c' _ H).
Qed.

(** C6, counterexample: the file of note [a] holds the dangling reference
    z and the file of note [b] the dangling reference y.  Ordered by the
    originating file the list is z, y; [cacheRefs] gives y, z: it sorts the
    reference strings themselves. *)
Lemma cacheRefs_sorts_the_refs_not_their_files :
  let cache := cacheWorkspace host_ab (str "/v") notes_ab workspaceCache0 in
  danglingRefsByFsPath cache
  = [(str "/v/a.md", [str "z"]); (str "/v/b.md", [str "y"])] /\
  danglingRefs_by_origin (danglingRefsByFsPath cache) = [str "z"; str "y"] /\
  danglingRefs cache = [str "y"; str "z"].
Proof. repeat split; vm_compute; reflexivity. Qed.

(** C6, as amended: the vault-wide list of [cacheRefs] is the union of the
    per-file lists without duplicates, in the shallow-first order of the
    reference strings themselves (depth, then the lexical order), and it is
    the same for every order in which the files are scanned. *)
Theorem cacheRefs_danglingRefs_sorted_union : forall h cache,
  (forall r, In r (danglingRefs (cacheRefs h cache)) <->
     exists p refs,
       In (p, refs) (danglingRefsByFsPath (cacheRefs h cache)) /\ In r refs) /\
  NoDup (danglingRefs (cacheRefs h cache)) /\
  StronglySorted path_le (danglingRefs (cacheRefs h cache)) /\
  (forall cache',
     Permutation (markdownUris cache') (markdownUris cache) ->
     allUris cache' = allUris cache ->
     danglingRefs (cacheRefs h cache') = danglingRefs (cacheRefs h cache)).
Proof.
  intros h cache.
  assert (ND : forall c, NoDup (danglingRefs (cacheRefs h c))).
  { intros c. cbn [cacheRefs danglingRefs].
    apply (Permutation_NoDup (sortPaths_perm _)).
    apply array_from_set_spec. }
  assert (SO : forall c, StronglySorted path_le (danglingRefs (cacheRefs h c))).
  { intros c. cbn [cacheRefs danglingRefs]. apply sortPaths_sorted. }
  split; [apply danglingRefs_member|].
  split; [apply ND|]. split; [apply SO|].
  intros cache' Hperm Hall.
  apply sorted_unique; try apply ND; try apply SO.
  intros r. rewrite !danglingRefs_member.
  cbn [cacheRefs danglingRefsByFsPath].
  split; intros (p & refs & Hin & Hr); exists p, refs; (split; [|exact Hr]);
    apply scan_member in Hin; apply scan_member; destruct Hin as [Hp Hs];
    split.
  - apply (Permutation_in _ Hperm Hp).
  - now rewrite <- (scan_entry_allUris h cache cache' p Hall).
  - apply (Permutation_in _ (Permutation_sym Hperm) Hp).
  - now rewrite (scan_entry_allUris h cache cache' p Hall).
Qed.

(** ** Paths of note files *)

Lemma take_until_all : forall p s,
  forallb (fun c => negb (p c)) s = true -> take_until p s = s.
Proof.
  intros p s. induction s as [|c s IH]; simpl; [reflexivity|].
  intros H. apply andb_true_iff in H. destruct H as [Hc Hs].
  apply negb_true_iff in Hc. rewrite Hc. now rewrite IH.
Qed.

Lemma take_until_stop : forall p a c b,
  forallb (fun c => negb (p c)) a = true -> p c = true ->
  take_until p (a ++ c :: b) = a.
Proof.
  intros p a c b. induction a as [|x a IH]; simpl; intros Ha Hc.
  - now rewrite Hc.
  - apply andb_true_iff in Ha. destruct Ha as [Hx Ha].
    apply negb_true_iff in Hx. rewrite Hx. now rewrite IH.
Qed.

Lemma no_slash : forall s,
  has_char (ascii_of_nat 47) s = false ->
  forallb (fun c => negb (is_slash c)) s = true.
Proof.
  induction s as [|c s IH]; intros H; [reflexivity|].
  rewrite has_char_cons in H. apply orb_false_iff in H. destruct H as [Hc Hs].
  simpl. rewrite (IH Hs), andb_true_r. apply negb_true_iff.
  unfold is_slash. apply Nat.eqb_neq. intros E.
  apply Ascii.eqb_neq in Hc. apply Hc. apply code_inj. now rewrite E.
Qed.

Lemma basename_of_file : forall dir name,
  name <> [] -> has_char (ascii_of_nat 47) name = false ->
  basename (joinPath dir name) = name /\ basename name = name.
Proof.
  intros dir name Hne Hs. apply no_slash in Hs.
  rewrite <- forallb_rev in Hs.
  assert (Hd : forall t, drop_while is_slash (rev name ++ t) = rev name ++ t).
  { intros t. destruct (rev name) as [|c r] eqn:E.
    - exfalso. apply Hne. rewrite <- (rev_involutive name), E. reflexivity.
    - simpl in Hs. apply andb_true_iff in Hs. destruct Hs as [Hc _].
      apply negb_true_iff in Hc. simpl. now rewrite Hc. }
  unfold basename, joinPath. split.
  - rewrite !rev_app_distr. simpl rev. rewrite <- app_assoc. simpl app.
    rewrite Hd. rewrite take_until_stop by (exact Hs || reflexivity).
    apply rev_involutive.
  - rewrite <- (app_nil_r (rev name)), Hd, app_nil_r.
    rewrite take_until_all by exact Hs. apply rev_involutive.
Qed.

Lemma ext_of_md : forall f, f <> [] -> ext_of_base (f ++ str ".md") = str ".md".
Proof.
  intros f Hf. unfold ext_of_base. rewrite rev_app_distr. simpl rev. simpl app.
  cbn [drop_until take_until].
  change (is_period "d"%char) with false.
  change (is_period "m"%char) with false.
  change (is_period "."%char) with true. cbv iota.
  destruct (rev f) as [|c r] eqn:E.
  - exfalso. apply Hf. rewrite <- (rev_involutive f), E. reflexivity.
  - destruct (jsstring_eqb _ (str "..")) eqn:B; [|reflexivity].
    apply jsstring_eqb_eq in B. apply (f_equal (@length ascii)) in B.
    rewrite length_app in B. simpl in B. lia.
Qed.

(** The file of a note: its base name, its extension and its name. *)
Lemma note_file : forall dir f,
  f <> [] -> has_char (ascii_of_nat 47) f = false ->
  let uri := joinPath dir (f ++ str ".md") in
  containsMarkdownExt (basename uri) = true /\ parse_name uri = f.
Proof.
  intros dir f Hf Hs uri.
  assert (Hne : f ++ str ".md" <> []) by (destruct f; discriminate).
  assert (Hs' : has_char (ascii_of_nat 47) (f ++ str ".md") = false)
    by (rewrite has_char_app, Hs; reflexivity).
  destruct (basename_of_file dir _ Hne Hs') as [B1 B2]. fold uri in B1.
  split.
  - unfold containsMarkdownExt, parse_ext. rewrite B1, B2.
    rewrite (ext_of_md f Hf). reflexivity.
  - unfold parse_name, parse_ext. rewrite B1, (ext_of_md f Hf).
    rewrite length_app. change (length (str ".md")) with 3.
    replace (length f + 3 - 3) with (length f) by lia.
    rewrite firstn_app, Nat.sub_diag, firstn_all. simpl. apply app_nil_r.
Qed.

(** ** Resolution against the cached uris *)

Lemma cacheUris_allUris : forall root notes cache u,
  In u (allUris (cacheUris root notes cache)) <->
  exists n, In n notes /\ stub n = false /\
            u = joinPath root (fname n ++ str ".md").
Proof.
  intros root notes cache u. cbn [cacheUris allUris].
  rewrite sortPaths_In, in_map_iff. split.
  - intros (n & <- & Hn). apply filter_In in Hn. destruct Hn as [Hn Hs].
    apply negb_true_iff in Hs. exists n. now repeat split.
  - intros (n & Hn & Hs & ->). exists n. split; [reflexivity|].
    apply filter_In. split; [exact Hn | now rewrite Hs].
Qed.

Lemma findUriByRef_none : forall root notes cache r,
  Forall well_named notes ->
  (findUriByRef (allUris (cacheUris root notes cache)) r = None <->
   forall n, In n notes -> stub n = false ->
             toLowerCase (fname n) <> toLowerCase r).
Proof.
  intros root notes cache r Hwf. rewrite Forall_forall in Hwf.
  unfold findUriByRef. split.
  - intros H n Hn Hs E.
    destruct (Hwf n Hn) as [Hne Hsl].
    destruct (note_file root (fname n) Hne Hsl) as [Hmd Hname].
    assert (Hu : In (joinPath root (fname n ++ str ".md"))
                    (allUris (cacheUris root notes cache)))
      by (apply cacheUris_allUris; exists n; now repeat split).
    pose proof (find_none _ _ H _ Hu) as F. cbv beta zeta in F.
    rewrite Hmd, Hname, E, jsstring_eqb_refl in F. discriminate.
  - intros H.
    match goal with |- find ?f ?l = None =>
      destruct (find f l) as [u|] eqn:F; [exfalso | reflexivity] end.
    apply find_some in F. destruct F as [Hu Hp].
    apply cacheUris_allUris in Hu. destruct Hu as (n & Hn & Hs & ->).
    destruct (Hwf n Hn) as [Hne Hsl].
    destruct (note_file root (fname n) Hne Hsl) as [Hmd Hname].
    cbv zeta in Hp. rewrite Hmd, Hname in Hp. simpl in Hp.
    apply jsstring_eqb_eq in Hp. exact (H n Hn Hs Hp).
Qed.

Lemma extractDanglingRefs_member : forall cache content r,
  In r (extractDanglingRefs cache content) <->
  In r (linked_refs content) /\ findUriByRef (allUris cache) r = None.
Proof.
  intros cache content r. unfold extractDanglingRefs.
  rewrite (proj1 (proj2 (array_from_set_spec _))).
  unfold pushed_refs, linked_refs. rewrite !in_flat_map.
  assert (M : forall m, In r (pushed_by_match cache m) <->
                        In r (token_ref m) /\
                        findUriByRef (allUris cache) r = None).
  { intros m. unfold pushed_by_match, token_ref.
    destruct (get_capture 2 (groups_of m)) as [[|c tl]|];
      try (split; [contradiction | intros [[] _]]).
    destruct (findUriByRef (allUris cache) (ref (parseRef (c :: tl)))) eqn:F;
      simpl.
    - split; [contradiction|]. intros [[<-|[]] H]. congruence.
    - split.
      + intros [<-|[]]. split; [now left | exact F].
      + intros [H _]. exact H. }
  split.
  - intros (line & Hl & Hr). apply in_flat_map in Hr.
    destruct Hr as (m & Hm & Hr). apply M in Hr. destruct Hr as [Hr F].
    split; [|exact F]. exists line. split; [exact Hl|].
    apply in_flat_map. exists m. now split.
  - intros [(line & Hl & Hr) F]. apply in_flat_map in Hr.
    destruct Hr as (m & Hm & Hr). exists line. split; [exact Hl|].
    apply in_flat_map. exists m. split; [exact Hm|]. apply M. now split.
Qed.

(** C3, counterexample: the note foo.ch1 is known and its leaf segment is
    ch1, yet the reference ch1 resolves to no uri and is reported as
    dangling. *)
Lemma leaf_segment_does_not_resolve :
  let cache := cacheUris (str "/v") notes_stub workspaceCache0 in
  In (mkNote (str "foo.ch1") (str "foo.ch1") false []) notes_stub /\
  leaf_segment (str "foo.ch1") = str "ch1" /\
  findUriByRef (allUris cache) (str "ch1") = None /\
  extractDanglingRefs cache (str "[[ch1]]") = [str "ch1"].
Proof.
  cbv zeta. split; [right; right; left; reflexivity|].
  repeat split; vm_compute; reflexivity.
Qed.

(** C3, as amended: against the uris that [cacheUris] builds from notes
    with file names, a reference resolves to no uri, and so is dangling,
    exactly when no note that is not a stub has a full name [fname] equal to
    the reference up to case; the file extension takes no part. *)
Theorem findUriByRef_resolves_by_full_name : forall root notes cache r,
  Forall well_named notes ->
  (findUriByRef (allUris (cacheUris root notes cache)) r = None <->
   forall n, In n notes -> stub n = false ->
             toLowerCase (fname n) <> toLowerCase r).
Proof. exact findUriByRef_none. Qed.

Lemma findUriByRef_resolves_by_full_name_witness :
  findUriByRef (allUris (cacheUris (str "/v") notes_stub workspaceCache0))
               (str "Foo.CH1") = None <->
  forall n, In n notes_stub -> stub n = false ->
            toLowerCase (fname n) <> toLowerCase (str "Foo.CH1").
Proof.
  apply (findUriByRef_resolves_by_full_name (str "/v") notes_stub
           workspaceCache0 (str "Foo.CH1")).
  repeat constructor; discriminate.
Defined.

(** C2, counterexample: the stub note foo matches the reference foo, and
    foo is reported as dangling, in the list of the file and in the
    vault-wide list. *)
Lemma stub_target_is_dangling :
  let cache := cacheWorkspace host_stub (str "/v") notes_stub workspaceCache0 in
  In (mkNote (str "foo") (str "foo") true [str "foo.ch1"]) notes_stub /\
  extractDanglingRefs cache (str "[[foo]]") = [str "foo"] /\
  danglingRefsByFsPath cache
  = [(str "/v/foo.ch1.md", [str "foo"]); (str "/v/root.md", [str "foo"])] /\
  danglingRefs cache = [str "foo"].
Proof.
  cbv zeta. split; [right; left; reflexivity|].
  repeat split; vm_compute; reflexivity.
Qed.

(** C2, as amended: stub notes are not known targets.  For notes whose
    names are not empty and hold no slash, [cacheUris] keeps the notes that
    are not stubs, so the cache is the one of the vault without its stubs;
    a reference of a link is in the list of a file exactly when no note
    that is not a stub has its name up to case, and it is in the vault-wide
    list exactly when it is in the list of a scanned file. *)
Theorem dangling_detection_ignores_stubs : forall h root notes cache,
  Forall well_named notes ->
  cacheWorkspace h root notes cache
  = cacheWorkspace h root (filter (fun n => negb (stub n)) notes) cache /\
  (forall content r,
     In r (extractDanglingRefs (cacheWorkspace h root notes cache) content) <->
     In r (linked_refs content) /\
     forall n, In n notes -> stub n = false ->
               toLowerCase (fname n) <> toLowerCase r) /\
  (forall r,
     In r (danglingRefs (cacheWorkspace h root notes cache)) <->
     exists p, In p (markdownUris (cacheWorkspace h root notes cache)) /\
               skipped h p = false /\
               In r (extractDanglingRefs (cacheWorkspace h root notes cache)
                                         (text_of h p))).
Proof.
  intros h root notes cache Hwf.
  assert (Hall : allUris (cacheWorkspace h root notes cache)
                 = allUris (cacheUris root notes cache)) by reflexivity.
  split; [|split].
  - unfold cacheWorkspace. f_equal. unfold cacheUris.
    assert (F : filter (fun n => negb (stub n))
                       (filter (fun n => negb (stub n)) notes)
                = filter (fun n => negb (stub n)) notes).
    { clear. induction notes as [|n notes IH]; simpl; [reflexivity|].
      destruct (negb (stub n)) eqn:E; simpl; [rewrite E|]; now rewrite IH. }
    now rewrite F.
  - intros content r. rewrite extractDanglingRefs_member, Hall.
    now rewrite (findUriByRef_none root notes cache r Hwf).
  - intros r. unfold cacheWorkspace at 1. rewrite danglingRefs_member. split.
    + intros (p & refs & Hin & Hr).
      cbn [cacheRefs danglingRefsByFsPath] in Hin. apply scan_member in Hin.
      destruct Hin as [Hp Hs]. apply scan_entry_some in Hs.
      destruct Hs as (Hsk & -> & _). exists p. split; [exact Hp|].
      split; [exact Hsk|].
      now rewrite (extractDanglingRefs_allUris (cacheUris root notes cache)
                     (cacheWorkspace h root notes cache) _ Hall).
    + intros (p & Hp & Hsk & Hr).
      rewrite (extractDanglingRefs_allUris (cacheUris root notes cache)
                 (cacheWorkspace h root notes cache) _ Hall) in Hr.
      exists p, (extractDanglingRefs (cacheUris root notes cache) (text_of h p)).
      split; [|exact Hr].
      cbn [cacheRefs danglingRefsByFsPath]. apply scan_member.
      split; [exact Hp|]. apply scan_entry_some. repeat split; [exact Hsk|].
      intros E. rewrite E in Hr. contradiction.
Qed.

Lemma dangling_detection_ignores_stubs_witness :
  cacheWorkspace host_stub (str "/v") notes_stub workspaceCache0
  = cacheWorkspace host_stub (str "/v")
                   (filter (fun n => negb (stub n)) notes_stub)
                   workspaceCache0 /\
  (forall content r,
     In r (extractDanglingRefs
             (cacheWorkspace host_stub (str "/v") notes_stub workspaceCache0)
             content) <->
     In r (linked_refs content) /\
     forall n, In n notes_stub -> stub n = false ->
               toLowerCase (fname n) <> toLowerCase r) /\
  (forall r,
     In r (danglingRefs
             (cacheWorkspace host_stub (str "/v") notes_stub workspaceCache0)) <->
     exists p,
       In p (markdownUris
               (cacheWorkspace host_stub (str "/v") notes_stub workspaceCache0)) /\
       skipped host_stub p = false /\
       In r (extractDanglingRefs
               (cacheWorkspace host_stub (str "/v") notes_stub workspaceCache0)
               (text_of host_stub p))).
Proof.
  apply (dangling_detection_ignores_stubs host_stub (str "/v") notes_stub
           workspaceCache0).
  repeat constructor; discriminate.
Defined.

(** ** The matcher moves forward, and its fuel is never used up *)

Lemma rest_clear : forall gs x, rest (clear_captures gs x) = rest x.
Proof. reflexivity. Qed.

Lemma RepeatMatcher_local : forall m gs greedy,
  local m ->
  forall fuel min max, local (fun k => RepeatMatcher m gs greedy k fuel min max).
Proof.
  intros m gs greedy Hm. induction fuel as [|fuel IH]; intros min max k1 k2 x H.
  - reflexivity.
  - cbn [RepeatMatcher]. rewrite (H x (le_n _)).
    assert (D : m (fun y : MatchState =>
                     if (min =? 0) && (length (rest y) =? length (rest x))
                     then None
                     else RepeatMatcher m gs greedy k1 fuel (pred min)
                                        (option_map pred max) y)
                  (clear_captures gs x)
                = m (fun y : MatchState =>
                     if (min =? 0) && (length (rest y) =? length (rest x))
                     then None
                     else RepeatMatcher m gs greedy k2 fuel (pred min)
                                        (option_map pred max) y)
                  (clear_captures gs x)).
    { apply Hm. intros y Hy. rewrite rest_clear in Hy.
      destruct ((min =? 0) && (length (rest y) =? length (rest x)));
        [reflexivity|].
      apply (IH (pred min) (option_map pred max) k1 k2 y).
      intros y' Hy'. apply H. lia. }
    rewrite D. reflexivity.
Qed.

Lemma rmatch_local : forall r, local (rmatch r).
Proof.
  induction r as [| |c|p|r1 IH1 r2 IH2|i r IH|min max greedy r IH];
    intros k1 k2 x H.
  - apply H. lia.
  - simpl. rewrite (H x (le_n _)). reflexivity.
  - simpl. destruct (rest x) as [|ch tl] eqn:E; [reflexivity|].
    destruct (Ascii.eqb _ _); [|reflexivity]. apply H. simpl. lia.
  - simpl. destruct (rest x) as [|ch tl] eqn:E; [reflexivity|].
    destruct (p ch); [|reflexivity]. apply H. simpl. lia.
  - rewrite !rmatch_Seq. apply IH1. intros y Hy. apply IH2.
    intros y' Hy'. apply H. lia.
  - rewrite !rmatch_Group. apply IH. intros y Hy. apply H. exact Hy.
  - rewrite !rmatch_Rep. apply (RepeatMatcher_local _ _ _ IH). exact H.
Qed.

(** More fuel than [min + length (rest x)] does not change the result of
    RepeatMatcher. *)
Lemma RepeatMatcher_fuel : forall m gs greedy k,
  local m ->
  forall fuel1 fuel2 min max x,
    min + length (rest x) < fuel1 ->
    min + length (rest x) < fuel2 ->
    RepeatMatcher m gs greedy k fuel1 min max x =
    RepeatMatcher m gs greedy k fuel2 min max x.
Proof.
  intros m gs greedy k Hm.
  induction fuel1 as [|fuel1 IH]; intros [|fuel2] min max x H1 H2; try lia.
  cbn [RepeatMatcher].
  assert (D : m (fun y : MatchState =>
                   if (min =? 0) && (length (rest y) =? length (rest x))
                   then None
                   else RepeatMatcher m gs greedy k fuel1 (pred min)
                                      (option_map pred max) y)
                (clear_captures gs x)
              = m (fun y : MatchState =>
                   if (min =? 0) && (length (rest y) =? length (rest x))
                   then None
                   else RepeatMatcher m gs greedy k fuel2 (pred min)
                                      (option_map pred max) y)
                (clear_captures gs x)).
  { apply Hm. intros y Hy. rewrite rest_clear in Hy.
    destruct (min =? 0) eqn:E0; cbn [andb].
    - apply Nat.eqb_eq in E0. subst min.
      destruct (length (rest y) =? length (rest x)) eqn:El; [reflexivity|].
      apply Nat.eqb_neq in El. apply IH; simpl in *; lia.
    - apply Nat.eqb_neq in E0. apply IH; lia. }
  rewrite D. reflexivity.
Qed.

Lemma RepeatMatcher_forward : forall m gs greedy n,
  forward m n ->
  forall fuel min max,
    forward (fun k => RepeatMatcher m gs greedy k fuel min max) 0.
Proof.
  intros m gs greedy n Hm. induction fuel as [|fuel IH]; intros min max k x z H.
  - discriminate.
  - cbn [RepeatMatcher] in H.
    assert (Here : k x = Some z ->
                   exists y c, k y = Some z /\ rest x = c ++ rest y /\
                               0 <= length c).
    { intros Hk. exists x, []. repeat split; [exact Hk | simpl; lia]. }
    assert (Iter : forall d,
              d = (fun y : MatchState =>
                     if (min =? 0) && (length (rest y) =? length (rest x))
                     then None
                     else RepeatMatcher m gs greedy k fuel (pred min)
                                        (option_map pred max) y) ->
              m d (clear_captures gs x) = Some z ->
              exists y c, k y = Some z /\ rest x = c ++ rest y /\
                          0 <= length c).
    { intros d -> Hd. apply Hm in Hd. destruct Hd as (y & c & Hy & Hc & _).
      rewrite rest_clear in Hc.
      destruct ((min =? 0) && (length (rest y) =? length (rest x)));
        [discriminate|].
      apply IH in Hy. destruct Hy as (y' & c' & Hy' & Hc' & _).
      exists y', (c ++ c'). repeat split; [exact Hy' | | lia].
      rewrite Hc, Hc'. now rewrite app_assoc. }
    destruct (max_is_zero max); [now apply Here|].
    destruct (negb (min =? 0)); [now apply (Iter _ eq_refl)|].
    destruct greedy.
    + destruct (m _ (clear_captures gs x)) eqn:E.
      * injection H as <-. now apply (Iter _ eq_refl).
      * now apply Here.
    + destruct (k x) eqn:E.
      * injection H as <-. now apply Here.
      * now apply (Iter _ eq_refl).
Qed.

Lemma rmatch_forward : forall r, forward (rmatch r) (minlen r).
Proof.
  induction r as [| |c|p|r1 IH1 r2 IH2|i r IH|min max greedy r IH];
    intros k x z H.
  - exists x, []. repeat split; [exact H | simpl; lia].
  - simpl in H. destruct (rest x) eqn:E; [|discriminate].
    exists x, []. repeat split; [exact H | now rewrite E | simpl; lia].
  - simpl in H. destruct (rest x) as [|ch tl] eqn:E; [discriminate|].
    destruct (Ascii.eqb _ _); [|discriminate].
    exists (advance x tl), [ch]. repeat split; [exact H | simpl; lia].
  - simpl in H. destruct (rest x) as [|ch tl] eqn:E; [discriminate|].
    destruct (p ch); [|discriminate].
    exists (advance x tl), [ch]. repeat split; [exact H | simpl; lia].
  - rewrite rmatch_Seq in H. apply IH1 in H.
    destruct H as (y & c & Hy & Hc & Hl). apply IH2 in Hy.
    destruct Hy as (y' & c' & Hy' & Hc' & Hl').
    exists y', (c ++ c'). repeat split; [exact Hy' | |].
    + rewrite Hc, Hc'. now rewrite app_assoc.
    + rewrite length_app. simpl. lia.
  - rewrite rmatch_Group in H. apply IH in H.
    destruct H as (y & c & Hy & Hc & Hl).
    exists (set_capture i (consumed x y) y), c. repeat split; assumption.
  - rewrite rmatch_Rep in H.
    apply (RepeatMatcher_forward _ _ _ _ IH) in H. exact H.
Qed.

(** The parts of a result of [exec] make up the input, and the match is
    as long as the pattern asks. *)
Lemma match_here_shape : forall r s m,
  match_here r s = Some m ->
  before m = [] /\ s = matched m ++ after m /\ minlen r <= length (matched m).
Proof.
  intros r s m H. unfold match_here in H.
  destruct (rmatch r Some (mkState s [])) as [y|] eqn:E; [|discriminate].
  injection H as <-. cbn [before matched after].
  apply rmatch_forward in E. destruct E as (y' & c & Hy & Hc & Hl).
  injection Hy as ->. cbn [rest] in Hc. subst s.
  rewrite firstn_app_exact. now repeat split.
Qed.

Lemma regexp_exec_shape : forall r s m,
  regexp_exec r s = Some m ->
  s = before m ++ matched m ++ after m /\ minlen r <= length (matched m).
Proof.
  intros r s. induction s as [|c s IH]; intros m H; cbn [regexp_exec] in H.
  - destruct (match_here r []) eqn:E; [|discriminate]. injection H as <-.
    apply match_here_shape in E. destruct E as (-> & E & L). now split.
  - destruct (match_here r (c :: s)) eqn:E.
    + injection H as <-. apply match_here_shape in E.
      destruct E as (-> & E & L). now split.
    + destruct (regexp_exec r s) as [m'|]; [|discriminate].
      injection H as <-. destruct (IH m' eq_refl) as [E' L].
      cbn [shift_result before matched after]. split; [|exact L].
      simpl. now rewrite <- E'.
Qed.

(** For a pattern that matches no empty text, more fuel than the length of
    the text changes neither [matchAll] nor [replace]. *)
Lemma matchAll_loop_fuel : forall r,
  0 < minlen r ->
  forall fuel1 fuel2 s,
    length s < fuel1 -> length s < fuel2 ->
    matchAll_loop fuel1 r s = matchAll_loop fuel2 r s.
Proof.
  intros r Hr. induction fuel1 as [|fuel1 IH]; intros [|fuel2] s H1 H2; try lia.
  cbn [matchAll_loop]. destruct (regexp_exec r s) as [m|] eqn:E; [|reflexivity].
  apply regexp_exec_shape in E. destruct E as [E L].
  apply (f_equal (@length ascii)) in E. rewrite !length_app in E.
  f_equal. apply IH; lia.
Qed.

Lemma replace_loop_fuel : forall r f,
  0 < minlen r ->
  forall fuel1 fuel2 s,
    length s < fuel1 -> length s < fuel2 ->
    replace_loop fuel1 r f s = replace_loop fuel2 r f s.
Proof.
  intros r f Hr.
  induction fuel1 as [|fuel1 IH]; intros [|fuel2] s H1 H2; try lia.
  cbn [replace_loop]. destruct (regexp_exec r s) as [m|] eqn:E; [|reflexivity].
  apply regexp_exec_shape in E. destruct E as [E L].
  apply (f_equal (@length ascii)) in E. rewrite !length_app in E.
  destruct (matched m) as [|c tl] eqn:M; [simpl in L; lia|].
  do 2 f_equal. apply IH; simpl in E; lia.
Qed.

Lemma refRegexp_minlen : 0 < minlen refRegexp.
Proof. vm_compute. lia. Qed.

Lemma renamePattern_minlen : forall oldRef, 0 < minlen (renamePattern oldRef).
Proof. intros oldRef. simpl. lia. Qed.

Lemma rmatch_Rep_fuel : forall min max greedy r k x fuel,
  min + length (rest x) < fuel ->
  rmatch (Rep min max greedy r) k x =
  RepeatMatcher (rmatch r) (groups r) greedy k fuel min max x.
Proof.
  intros min max greedy r k x fuel H. rewrite rmatch_Rep.
  apply RepeatMatcher_fuel; [apply rmatch_local | lia | exact H].
Qed.

Lemma matchAll_refRegexp_fuel : forall fuel text,
  length text < fuel ->
  matchAll_loop fuel refRegexp text = matchAll refRegexp text.
Proof.
  intros fuel text H. unfold matchAll.
  apply matchAll_loop_fuel; [apply refRegexp_minlen | exact H | lia].
Qed.

Lemma replace_rename_fuel : forall fuel oldRef f content,
  length content < fuel ->
  replace_loop fuel (renamePattern oldRef) f content =
  replace_all (renamePattern oldRef) f content.
Proof.
  intros fuel oldRef f content H. unfold replace_all.
  apply replace_loop_fuel; [apply renamePattern_minlen | exact H | lia].
Qed.

(** The matches of [matchAll] lie one after the other in the text. *)
Lemma matchAll_loop_in_order : forall r fuel text,
  exists tail,
    text = flat_map (fun m => before m ++ matched m) (matchAll_loop fuel r text)
           ++ tail.
Proof.
  intros r. induction fuel as [|fuel IH]; intros text.
  - exists text. reflexivity.
  - cbn [matchAll_loop]. destruct (regexp_exec r text) as [m|] eqn:E.
    + apply regexp_exec_shape in E. destruct E as [E _].
      destruct (IH (after m)) as (tail & Ht). exists tail.
      cbn [flat_map]. rewrite <- !app_assoc, <- Ht. exact E.
    + exists text. reflexivity.
Qed.

(** ** The scenarios of the spec *)

Example shallow_first_order :
  sortPaths [str "a/b.md"; str "a.md"; str "a/b/c.md"]
  = [str "a.md"; str "a/b.md"; str "a/b/c.md"].
Proof. reflexivity. Qed.

Example dangling_is_matched_without_case :
  let cache := cacheUris (str "/v")
                 [mkNote (str "1") (str "existingnote") false []]
                 workspaceCache0 in
  extractDanglingRefs cache
    (str "[[NonExistentNote]] [[nonexistentnote]] [[ExistingNote]]")
  = [str "NonExistentNote"; str "nonexistentnote"].
Proof. vm_compute. reflexivity. Qed.

Example one_entry_for_two_files :
  let host := mkHost (fun _ => true) (fun _ => false)
                     (fun _ => str "see [[missing]]") [] in
  let cache := cacheWorkspace host (str "/v") notes_ab workspaceCache0 in
  danglingRefsByFsPath cache
  = [(str "/v/a.md", [str "missing"]); (str "/v/b.md", [str "missing"])] /\
  danglingRefs cache = [str "missing"].
Proof. split; vm_compute; reflexivity. Qed.

Example open_document_is_preferred :
  let host := mkHost (fun _ => true) (fun _ => false)
                     (fun _ => str "[[on disk]]")
                     [(str "/v/a.md", str "[[in editor]]")] in
  findDanglingRefsByFsPath host workspaceCache0 [str "/v/a.md"; str "/v/b.txt"]
  = [(str "/v/a.md", [str "in editor"])].
Proof. vm_compute. reflexivity. Qed.

Example rewrite_without_match :
  replaceRefs [mkRename (str "OldRef") (str "NewRef")] (str "no [[Other]] link")
  = None.
Proof. vm_compute. reflexivity. Qed.

Example rewrite_ignores_case_and_blanks :
  replaceRefs [mkRename (str "old.ref") (str "new")]
              (str "[[ Old.Ref ]]
[[label| OLD.REF]] but not [[oldXref]]")
  = Some (str "[[new]]
[[label|new]] but not [[oldXref]]").
Proof. vm_compute. reflexivity. Qed.

(** * Further properties of the source *)

(** ** [escapeForRegExp] *)

Lemma pattern_tokens_escape : forall value,
  pattern_tokens (escapeForRegExp value)
  = Some (map (fun c => TAtom (Chr c)) value).
Proof.
  induction value as [|c v IH]; [reflexivity|].
  cbn [escapeForRegExp map]. destruct (is_syntax_char c) eqn:E.
  - cbn [pattern_tokens].
    assert (B : is_syntax_char backslash = true) by reflexivity.
    rewrite B. cbn [negb]. rewrite Ascii.eqb_refl, E, IH. reflexivity.
  - cbn [pattern_tokens]. rewrite E, IH. reflexivity.
Qed.

Lemma terms_atoms : forall value,
  terms (map (fun c => TAtom (Chr c)) value) = Some (lit value).
Proof.
  induction value as [|c v IH]; [reflexivity|].
  destruct v as [|d v]; [reflexivity|].
  cbn [map terms] in *. rewrite IH. reflexivity.
Qed.

Lemma match_here_lit : forall value s m,
  match_here (lit value) s = Some m <->
  exists l tl, s = l ++ tl /\ same_text l value /\ m = mkResult [] l [] tl.
Proof.
  intros value s m. unfold match_here. split.
  - destruct (rmatch (lit value) Some (mkState s [])) as [y|] eqn:E;
      [|discriminate].
    intros H. injection H as <-.
    apply rmatch_lit_inv in E. destruct E as (l & tl & -> & Hl & Hy).
    injection Hy as <-. exists l, tl. cbn [rest captures].
    rewrite firstn_app_exact. now repeat split.
  - intros (l & tl & -> & Hl & ->).
    rewrite (rmatch_lit_same _ _ _ _ _ Hl). cbn [rest captures].
    now rewrite firstn_app_exact.
Qed.



(** ** [parseRef] *)

Lemma trimEnd_idem : forall s, trimEnd (trimEnd s) = trimEnd s.
Proof.
  intros s. unfold trimEnd. now rewrite rev_involutive, trimStart_idem.
Qed.

Lemma trim_idem : forall s, trim (trim s) = trim s.
Proof.
  intros s. unfold trim.
  rewrite (trim_comm (trimEnd s)), trimEnd_idem. apply trimStart_idem.
Qed.

Lemma has_char_trim : forall c s,
  has_char c s = false -> has_char c (trim s) = false.
Proof.
  intros c s H. destruct (trim_decompose s) as (w1 & w2 & E & _).
  rewrite E, !has_char_app in H.
  apply orb_false_iff in H. destruct H as [_ H].
  apply orb_false_iff in H. apply H.
Qed.

Lemma has_char_firstn_indexOf : forall c s i,
  indexOf c s = Some i -> has_char c (firstn i s) = false.
Proof.
  intros c s. induction s as [|x s IH]; intros i H; [discriminate|].
  simpl in H. destruct (Ascii.eqb x c) eqn:E.
  - injection H as <-. reflexivity.
  - destruct (indexOf c s) as [j|]; [|discriminate]. injection H as <-.
    simpl firstn. rewrite has_char_cons, Ascii.eqb_sym, E. now apply IH.
Qed.

Lemma indexOf_none : forall c s, indexOf c s = None -> has_char c s = false.
Proof.
  intros c s. induction s as [|x s IH]; intros H; [reflexivity|].
  simpl in H. destruct (Ascii.eqb x c) eqn:E; [discriminate|].
  destruct (indexOf c s); [discriminate|].
  rewrite has_char_cons, Ascii.eqb_sym, E. now apply IH.
Qed.

Lemma parseRef_label_no_divider : forall rawRef,
  has_char divider (label (parseRef rawRef)) = false.
Proof.
  intros s. unfold parseRef. destruct (indexOf divider s) as [i|] eqn:E.
  - cbn [label]. apply has_char_trim. rewrite slice_from_start.
    now apply has_char_firstn_indexOf.
  - cbn [label]. apply has_char_trim. now apply indexOf_none.
Qed.

(** X3: the two parts that [parseRef] returns carry no blanks at their
    ends, and the label holds no divider. *)
Theorem parseRef_parts_are_trimmed : forall rawRef,
  trim (ref (parseRef rawRef)) = ref (parseRef rawRef) /\
  trim (label (parseRef rawRef)) = label (parseRef rawRef) /\
  has_char divider (label (parseRef rawRef)) = false.
Proof.
  intros s. split; [|split].
  - unfold parseRef. destruct (indexOf divider s); apply trim_idem.
  - unfold parseRef. destruct (indexOf divider s); apply trim_idem.
  - apply parseRef_label_no_divider.
Qed.

(** X4: parsing is stable: the parsed pair written back as label, divider,
    reference parses to the same pair. *)
Theorem parseRef_of_rebuilt_token : forall rawRef,
  parseRef (label (parseRef rawRef) ++ divider :: ref (parseRef rawRef))
  = parseRef rawRef.
Proof.
  intros s. rewrite (parseRef_divided _ _ (parseRef_label_no_divider s)).
  assert (R : trim (ref (parseRef s)) = ref (parseRef s))
    by (unfold parseRef; destruct (indexOf divider s); apply trim_idem).
  assert (L : trim (label (parseRef s)) = label (parseRef s))
    by (unfold parseRef; destruct (indexOf divider s); apply trim_idem).
  rewrite R, L. destruct (parseRef s). reflexivity.
Qed.

(** ** [replaceRefs] on a content without links *)

Lemma same_text_open : forall l, same_text l (str "[[") -> l = str "[[".
Proof.
  intros l H. pose proof (same_text_length _ _ H) as Hl.
  destruct l as [|a [|b [|c l]]]; simpl in Hl; try discriminate.
  unfold same_text in H. simpl in H. injection H as Ha Hb.
  apply (canonicalize_special a lbracket) in Ha; [|auto].
  apply (canonicalize_special b lbracket) in Hb; [|auto].
  subst. reflexivity.
Qed.

Lemma rename_needs_open : forall o s,
  starts_with (str "[[") s = false ->
  rmatch (renamePattern (escapeForRegExp o)) Some (mkState s []) = None.
Proof.
  intros o s H. rewrite renamePattern_escape, rmatch_Seq.
  match goal with |- ?t = None => destruct t as [z|] eqn:E end;
    [exfalso | reflexivity].
  apply rmatch_lit_inv in E. destruct E as (l & s' & -> & Hl & _).
  apply same_text_open in Hl. subst l. vm_compute in H. discriminate.
Qed.

Lemma exec_needs_open : forall o s,
  includes (str "[[") s = false ->
  regexp_exec (renamePattern (escapeForRegExp o)) s = None.
Proof.
  intros o s. induction s as [|c s IH]; intros H.
  - cbn [regexp_exec]. unfold match_here. now rewrite rename_match_nil.
  - cbn [includes] in H. apply orb_false_iff in H. destruct H as [H1 H2].
    cbn [regexp_exec]. unfold match_here at 1.
    rewrite rename_needs_open by exact H1. now rewrite (IH H2).
Qed.

(** X5: a content in which no two opening brackets follow one another
    holds no link: [replaceRefs] returns [null] for every batch. *)
Theorem replaceRefs_needs_a_link : forall refs content,
  includes (str "[[") content = false ->
  replaceRefs refs content = None.
Proof.
  intros refs content H. apply replaceRefs_none_iff.
  induction refs as [|r refs IH]; [reflexivity|].
  cbn [existsb]. rewrite IH, orb_false_r. unfold pair_matches.
  now rewrite exec_needs_open.
Qed.

Lemma replaceRefs_needs_a_link_witness :
  replaceRefs [mkRename (str "a") (str "b")] (str "a [ a ] [a]] a") = None.
Proof.
  apply (replaceRefs_needs_a_link [mkRename (str "a") (str "b")]
           (str "a [ a ] [a]] a")).
  reflexivity.
Defined.

(** ** The keys of the per-file mapping *)

Lemma keys_obj_set : forall (V : Type) k (v : V) o,
  map fst (obj_set k v o) = set_add (map fst o) k.
Proof.
  intros V k v o. unfold set_add, set_has.
  induction o as [|[k0 v0] o IH]; [reflexivity|].
  cbn [obj_set map fst existsb]. rewrite (jsstring_eqb_sym k k0).
  destruct (jsstring_eqb k0 k) eqn:E.
  - apply jsstring_eqb_eq in E. subst k0. reflexivity.
  - cbn [map fst orb]. rewrite IH.
    destruct (existsb (jsstring_eqb k) (map fst o)); reflexivity.
Qed.

(** X6: the keys of the mapping of [findDanglingRefsByFsPath] are the paths
    for which the scan gave an entry, in the order of their first scan: a
    path that is listed twice has one key. *)
Theorem findDanglingRefsByFsPath_key_order : forall h cache uris,
  map fst (findDanglingRefsByFsPath h cache uris)
  = array_from_set (filter (fun p => isSome (scan_entry h cache p)) uris) /\
  NoDup (map fst (findDanglingRefsByFsPath h cache uris)).
Proof.
  intros h cache uris.
  assert (K : map fst (findDanglingRefsByFsPath h cache uris)
              = array_from_set
                  (filter (fun p => isSome (scan_entry h cache p)) uris)).
  { rewrite findDanglingRefsByFsPath_fold. unfold array_from_set.
    change (@nil jsstring) with (map fst (@nil (jsstring * list jsstring))).
    generalize (@nil (jsstring * list jsstring)) as acc.
    induction uris as [|u uris IH]; intros acc; [reflexivity|].
    cbn [fold_left filter]. rewrite IH. unfold scan_step.
    destruct (scan_entry h cache u); cbn [isSome fold_left];
      [now rewrite keys_obj_set | reflexivity]. }
  split; [exact K|]. rewrite K. apply array_from_set_spec.
Qed.

(** ** [cacheRefs] *)

Lemma findDanglingRefsByFsPath_allUris : forall h c c' uris,
  allUris c' = allUris c ->
  findDanglingRefsByFsPath h c' uris = findDanglingRefsByFsPath h c uris.
Proof.
  intros h c c' uris H. rewrite !findDanglingRefsByFsPath_fold.
  generalize (@nil (jsstring * list jsstring)) as acc.
  induction uris as [|u uris IH]; intros acc; [reflexivity|].
  cbn [fold_left]. rewrite IH. unfold scan_step.
  now rewrite (scan_entry_allUris h c c' u H).
Qed.

(** X7: [cacheRefs] reads the uris of the cache and the files only: run
    again on its own result it changes nothing, and it leaves the lists
    of uris as they are.  The vault-wide list is empty exactly when the
    mapping is. *)
Theorem cacheRefs_is_a_recomputation : forall h cache,
  cacheRefs h (cacheRefs h cache) = cacheRefs h cache /\
  markdownUris (cacheRefs h cache) = markdownUris cache /\
  allUris (cacheRefs h cache) = allUris cache /\
  (danglingRefs (cacheRefs h cache) = [] <->
   danglingRefsByFsPath (cacheRefs h cache) = []).
Proof.
  intros h cache. split; [|split; [reflexivity | split; [reflexivity|]]].
  - unfold cacheRefs at 1 3.
    cbn [imageUris markdownUris otherUris allUris cacheRefs].
    rewrite (findDanglingRefsByFsPath_allUris h cache (cacheRefs h cache) _
               eq_refl).
    reflexivity.
  - split.
    + intros E.
      destruct (danglingRefsByFsPath (cacheRefs h cache)) as [|[p refs] tl] eqn:B;
        [reflexivity | exfalso].
      assert (Hin : In (p, refs) (danglingRefsByFsPath (cacheRefs h cache)))
        by (rewrite B; now left).
      cbn [cacheRefs danglingRefsByFsPath] in Hin.
      apply scan_member in Hin. destruct Hin as [_ Hs].
      apply scan_entry_some in Hs. destruct Hs as (_ & Hr & Hne).
      destruct refs as [|r refs]; [congruence|].
      assert (Hd : In r (danglingRefs (cacheRefs h cache))).
      { apply danglingRefs_member. exists p, (r :: refs). rewrite B.
        split; now left. }
      rewrite E in Hd. contradiction.
    + intros E. cbn [cacheRefs danglingRefs danglingRefsByFsPath] in *.
      rewrite E. reflexivity.
Qed.

(** ** [findUriByRef] when it resolves *)

(** X8: against the uris of [cacheUris], a reference that resolves
    resolves to the file of a note that is not a stub and whose full name
    is the reference up to case; no uri in front of it in the cache
    matches. *)
Theorem findUriByRef_resolves_to_a_note_file : forall root notes cache r u,
  Forall well_named notes ->
  findUriByRef (allUris (cacheUris root notes cache)) r = Some u ->
  (exists n, In n notes /\ stub n = false /\
             u = joinPath root (fname n ++ str ".md") /\
             toLowerCase (fname n) = toLowerCase r) /\
  (exists front back,
     allUris (cacheUris root notes cache) = front ++ u :: back /\
     findUriByRef front r = None).
Proof.
  intros root notes cache r u Hwf H. rewrite Forall_forall in Hwf. split.
  - unfold findUriByRef in H. apply find_some in H. destruct H as [Hu Hp].
    apply cacheUris_allUris in Hu. destruct Hu as (n & Hn & Hs & ->).
    destruct (Hwf n Hn) as [Hne Hsl].
    destruct (note_file root (fname n) Hne Hsl) as [Hmd Hname].
    cbv zeta in Hp. rewrite Hmd, Hname in Hp. simpl in Hp.
    apply jsstring_eqb_eq in Hp. exists n. now repeat split.
  - revert H. unfold findUriByRef.
    generalize (allUris (cacheUris root notes cache)) as uris.
    induction uris as [|v uris IH]; intros H; [discriminate|].
    cbn [find] in H.
    destruct (containsMarkdownExt (basename v) &&
              jsstring_eqb (toLowerCase (parse_name v)) (toLowerCase r)) eqn:E.
    + injection H as <-. exists [], uris. split; reflexivity.
    + destruct (IH H) as (front & back & -> & Hf).
      exists (v :: front), back. split; [reflexivity|].
      cbn [find]. now rewrite E.
Qed.

Lemma findUriByRef_resolves_to_a_note_file_witness :
  (exists n, In n notes_stub /\ stub n = false /\
             str "/v/foo.ch1.md" = joinPath (str "/v") (fname n ++ str ".md") /\
             toLowerCase (fname n) = toLowerCase (str "FOO.ch1")) /\
  (exists front back,
     allUris (cacheUris (str "/v") notes_stub workspaceCache0)
     = front ++ str "/v/foo.ch1.md" :: back /\
     findUriByRef front (str "FOO.ch1") = None).
Proof.
  apply (findUriByRef_resolves_to_a_note_file (str "/v") notes_stub
           workspaceCache0 (str "FOO.ch1") (str "/v/foo.ch1.md")).
  - repeat constructor; discriminate.
  - reflexivity.
Defined.

(** ** [containsMarkdownExt] *)

Lemma regexp_exec_inv : forall r s m,
  regexp_exec r s = Some m ->
  exists pre s' m0, s = pre ++ s' /\ match_here r s' = Some m0.
Proof.
  intros r s. induction s as [|c s IH]; intros m H; cbn [regexp_exec] in H.
  - destruct (match_here r []) as [m0|] eqn:E; [|discriminate].
    exists [], [], m0. now split.
  - destruct (match_here r (c :: s)) as [m0|] eqn:E.
    + exists [], (c :: s), m0. now split.
    + destruct (regexp_exec r s) as [m'|]; [|discriminate].
      destruct (IH m' eq_refl) as (pre & s' & m0 & -> & Hm).
      exists (c :: pre), s', m0. now split.
Qed.

Lemma until_split : forall p s, s = take_until p s ++ drop_until p s.
Proof.
  intros p s. induction s as [|c s IH]; [reflexivity|]. simpl.
  destruct (p c); [reflexivity|]. simpl. now rewrite <- IH.
Qed.

Lemma take_until_none : forall p s,
  forallb (fun c => negb (p c)) (take_until p s) = true.
Proof.
  intros p s. induction s as [|c s IH]; [reflexivity|]. simpl.
  destruct (p c) eqn:E; [reflexivity|]. simpl. now rewrite E, IH.
Qed.

Lemma drop_until_head : forall p s c t, drop_until p s = c :: t -> p c = true.
Proof.
  intros p s. induction s as [|x s IH]; intros c t H; [discriminate|].
  simpl in H. destruct (p x) eqn:E; [|now apply (IH c t)].
  injection H as <- _. exact E.
Qed.

Lemma is_period_eq : forall c, is_period c = true -> c = "."%char.
Proof.
  intros c H. unfold is_period in H. apply Nat.eqb_eq in H.
  apply code_inj. exact H.
Qed.

(** The extension of a base name: none, or the text from the last period
    on, behind a stem that is not empty. *)
Lemma ext_of_base_shape : forall b,
  ext_of_base b = [] \/
  exists stem e, b = stem ++ "."%char :: e /\ stem <> [] /\
                 ext_of_base b = "."%char :: e /\
                 forallb (fun c => negb (is_period c)) e = true.
Proof.
  intros b. unfold ext_of_base.
  pose proof (until_split is_period (rev b)) as S.
  pose proof (take_until_none is_period (rev b)) as N.
  destruct (drop_until is_period (rev b)) as [|c [|x t]] eqn:D;
    [now left | now left |].
  destruct (jsstring_eqb b (str "..")); [now left|]. right.
  apply drop_until_head in D. apply is_period_eq in D. subst c.
  exists (rev (x :: t)), (rev (take_until is_period (rev b))).
  repeat split.
  - rewrite <- (rev_involutive b) at 1. rewrite S at 1.
    rewrite rev_app_distr. change ("."%char :: x :: t) with (["."%char] ++ x :: t).
    rewrite rev_app_distr. simpl rev at 2. now rewrite <- app_assoc.
  - simpl. destruct (rev t); discriminate.
  - now rewrite forallb_rev.
Qed.

Lemma md_chars : forall a d,
  d = "."%char \/ d = "m"%char \/ d = "d"%char ->
  (canonicalize a = canonicalize d <-> lower_char a = d).
Proof.
  intros a d Hd. destruct a as [b0 b1 b2 b3 b4 b5 b6 b7].
  destruct Hd as [-> | [-> | ->]];
    destruct b0, b1, b2, b3, b4, b5, b6, b7; vm_compute;
    split; intros H; first [reflexivity | discriminate H].
Qed.

Lemma lower_char_period : forall a, lower_char a = "."%char -> a = "."%char.
Proof.
  intros [b0 b1 b2 b3 b4 b5 b6 b7].
  destruct b0, b1, b2, b3, b4, b5, b6, b7; vm_compute; intros H;
    first [reflexivity | discriminate H].
Qed.

Lemma same_text_md : forall l,
  same_text l (str ".md") <-> toLowerCase l = str ".md".
Proof.
  intros l. unfold same_text, toLowerCase.
  destruct l as [|a [|b [|c [|x l]]]]; simpl; try (split; discriminate).
  split; intros H; injection H as Ha Hb Hc.
  - apply md_chars in Ha; [|auto]. apply md_chars in Hb; [|auto].
    apply md_chars in Hc; [|auto]. now rewrite Ha, Hb, Hc.
  - apply (md_chars a "."%char) in Ha; [|auto].
    apply (md_chars b "m"%char) in Hb; [|auto].
    apply (md_chars c "d"%char) in Hc; [|auto].
    f_equal; [exact Ha | f_equal; [exact Hb | f_equal; exact Hc]].
Qed.

Lemma exec_markdownExt : forall e,
  forallb (fun c => negb (is_period c)) e = true ->
  (isSome (regexp_exec markdownExtRegex ("."%char :: e)) = true <->
   toLowerCase ("."%char :: e) = str ".md").
Proof.
  intros e He. split.
  - destruct (regexp_exec markdownExtRegex ("."%char :: e)) as [m|] eqn:E;
      [intros _ | discriminate].
    apply regexp_exec_inv in E. destruct E as (pre & s' & m0 & Hs & Hm).
    unfold match_here, markdownExtRegex in Hm. rewrite rmatch_Seq in Hm.
    destruct (rmatch (lit (str ".md")) (rmatch Eos Some) (mkState s' []))
      as [y|] eqn:R; [|discriminate].
    apply rmatch_lit_inv in R. destruct R as (l & s2 & -> & Hl & Hy).
    simpl in Hy. destruct s2; [|discriminate]. rewrite app_nil_r in Hs.
    assert (Hl' := proj1 (same_text_md l) Hl).
    destruct pre as [|x pre]; [simpl in Hs; now rewrite Hs|].
    exfalso. simpl in Hs. injection Hs as _ Hs.
    destruct l as [|a l]; [discriminate|].
    simpl in Hl'. injection Hl' as Ha _.
    apply lower_char_period in Ha. subst a. rewrite Hs, forallb_app in He. simpl in He.
    rewrite andb_false_r in He. discriminate.
  - intros H. apply same_text_md in H.
    cbn [regexp_exec]. unfold match_here at 1, markdownExtRegex.
    rewrite rmatch_Seq.
    rewrite <- (app_nil_r ("."%char :: e)).
    rewrite (rmatch_lit_same _ _ _ _ _ H). reflexivity.
Qed.

Lemma ext_of_md_any_case : forall stem e,
  stem <> [] -> toLowerCase e = str ".md" -> ext_of_base (stem ++ e) = e.
Proof.
  intros stem e Hs He.
  destruct e as [|a [|b [|c [|x e]]]]; try discriminate.
  simpl in He. injection He as Ha Hb Hc.
  apply lower_char_period in Ha. subst a.
  assert (Pb : is_period b = false).
  { destruct (is_period b) eqn:P; [|reflexivity].
    apply is_period_eq in P. subst b. discriminate. }
  assert (Pc : is_period c = false).
  { destruct (is_period c) eqn:P; [|reflexivity].
    apply is_period_eq in P. subst c. discriminate. }
  unfold ext_of_base. rewrite rev_app_distr. simpl rev. simpl app.
  cbn [drop_until take_until]. rewrite Pb, Pc.
  change (is_period "."%char) with true. cbv iota.
  destruct (rev stem) as [|y r] eqn:E.
  - exfalso. apply Hs. rewrite <- (rev_involutive stem), E. reflexivity.
  - destruct (jsstring_eqb _ (str "..")) eqn:B; [|reflexivity].
    apply jsstring_eqb_eq in B. apply (f_equal (@length ascii)) in B.
    rewrite length_app in B. simpl in B. lia.
Qed.

(** X9: a path has the markdown extension exactly when its base name is a
    stem that is not empty, followed by [.md] in any case of the letters:
    the file [.md], and a name with something behind [.md], have not. *)
Theorem containsMarkdownExt_iff : forall pathParam,
  containsMarkdownExt pathParam = true <->
  exists stem e, basename pathParam = stem ++ e /\ stem <> [] /\
                 toLowerCase e = str ".md".
Proof.
  intros p. unfold containsMarkdownExt, parse_ext. split.
  - intros H. destruct (ext_of_base_shape (basename p))
      as [E | (stem & e & Hb & Hs & E & He)].
    + rewrite E in H. discriminate.
    + rewrite E in H. apply (exec_markdownExt e He) in H.
      exists stem, ("."%char :: e). now repeat split.
  - intros (stem & e & Hb & Hs & He). rewrite Hb.
    rewrite (ext_of_md_any_case stem e Hs He).
    destruct e as [|a e]; [discriminate|].
    assert (Ha : a = "."%char).
    { simpl in He. injection He as Ha _. now apply lower_char_period. }
    subst a. apply exec_markdownExt; [|exact He].
    destruct e as [|b [|c [|x e]]]; try discriminate.
    simpl in He. injection He as Hb' Hc.
    simpl. rewrite andb_true_r. apply andb_true_iff. split; apply negb_true_iff.
    + destruct (is_period b) eqn:P; [|reflexivity].
      apply is_period_eq in P. subst b. discriminate.
    + destruct (is_period c) eqn:P; [|reflexivity].
      apply is_period_eq in P. subst c. discriminate.
Qed.

(** ** Quantified characters *)

Lemma rmatch_Rep_Chr : forall min max greedy c k x,
  rmatch (Rep min max greedy (Chr c)) k x =
  rmatch (Rep min max greedy (Cls (chr_class c))) k x.
Proof. reflexivity. Qed.

(** [r+] on a class is one character of the class and then [r*]. *)
Lemma rmatch_plus_cls : forall greedy p k s caps,
  rmatch (plus greedy (Cls p)) k (mkState s caps) =
  match s with
  | ch :: tl =>
      if p ch then rmatch (star greedy (Cls p)) k (mkState tl caps) else None
  | [] => None
  end.
Proof.
  intros greedy p k s caps. unfold plus, star. rewrite rmatch_Rep.
  cbn [RepeatMatcher max_is_zero Nat.eqb negb andb rest groups].
  rewrite clear_no_groups. destruct s as [|ch tl]; [reflexivity|].
  cbn [rmatch rest]. destruct (p ch); [|reflexivity].
  cbn [pred option_map].
  apply (RepeatMatcher_fuel (rmatch (Cls p)) [] greedy k (rmatch_local (Cls p)));
    unfold advance; cbn [rest length]; lia.
Qed.

Lemma star_greedy_Some : forall p s caps,
  star_greedy_cls p Some s caps = Some (mkState (drop_while p s) caps).
Proof.
  intros p s caps. induction s as [|c s IH]; [reflexivity|]. simpl.
  destruct (p c); [now rewrite IH | reflexivity].
Qed.

Lemma drop_while_length : forall p s, length (drop_while p s) <= length s.
Proof.
  intros p s. induction s as [|c s IH]; simpl; [lia|].
  destruct (p c); simpl; lia.
Qed.

Lemma drop_while_suffix : forall p s,
  exists run, s = run ++ drop_while p s /\ forallb p run = true.
Proof.
  intros p s. induction s as [|c s (run & Hs & Hr)]; simpl.
  - exists []. now split.
  - destruct (p c) eqn:E.
    + exists (c :: run). split; [simpl; now rewrite <- Hs | simpl; now rewrite E].
    + exists []. now split.
Qed.

Lemma drop_while_head : forall p s c t,
  drop_while p s = c :: t -> p c = false.
Proof.
  intros p s. induction s as [|x s IH]; intros c t H; [discriminate|].
  simpl in H. destruct (p x) eqn:E; [now apply (IH c t)|].
  injection H as <- _. exact E.
Qed.

(** The slash and the backslash have no case partner. *)
Lemma chr_class_slashes : forall ch,
  chr_class slash ch = is_slash ch /\ chr_class backslash ch = is_backslash ch.
Proof.
  intros [b0 b1 b2 b3 b4 b5 b6 b7].
  destruct b0, b1, b2, b3, b4, b5, b6, b7; split; vm_compute; reflexivity.
Qed.

Lemma drop_while_ext : forall p q s,
  (forall c, p c = q c) -> drop_while p s = drop_while q s.
Proof.
  intros p q s H. induction s as [|c s IH]; [reflexivity|]. simpl.
  rewrite H. destruct (q c); [exact IH | reflexivity].
Qed.

(** A run at the start of the text, matched by [^c+]. *)
Lemma match_leading_run : forall c s,
  rmatch (plus true (Chr c)) Some (mkState s []) =
  match s with
  | ch :: tl =>
      if chr_class c ch
      then Some (mkState (drop_while (chr_class c) tl) [])
      else None
  | [] => None
  end.
Proof.
  intros c s. unfold plus. rewrite rmatch_Rep_Chr.
  change (Rep 1 None true (Cls (chr_class c)))
    with (plus true (Cls (chr_class c))).
  rewrite rmatch_plus_cls. destruct s as [|ch tl]; [reflexivity|].
  destruct (chr_class c ch); [|reflexivity].
  now rewrite rmatch_star_greedy, star_greedy_Some.
Qed.

Lemma no_match_behind_start : forall r1 r2 s,
  pattern_exec (Or (FromStart r1) (FromStart r2)) false s = None.
Proof.
  intros r1 r2 s. induction s as [|c s IH]; cbn [pattern_exec].
  - reflexivity.
  - unfold pmatch_here. cbn [pmatch]. now rewrite IH.
Qed.

Lemma pattern_replace_run : forall r1 r2 f c tl y,
  pmatch (Or (FromStart r1) (FromStart r2)) true Some (mkState (c :: tl) [])
    = Some (mkState y []) ->
  length y <= length tl ->
  pattern_replace_all (Or (FromStart r1) (FromStart r2)) f (c :: tl)
  = f (firstn (length (c :: tl) - length y) (c :: tl)) [] ++ y.
Proof.
  intros r1 r2 f c tl y H Hlen. unfold pattern_replace_all.
  cbn [pattern_replace_loop pattern_exec]. unfold pmatch_here. rewrite H.
  cbn [rest captures before matched groups_of after app].
  destruct (firstn (length (c :: tl) - length y) (c :: tl)) as [|a l] eqn:F.
  - exfalso. apply (f_equal (@length ascii)) in F.
    rewrite length_firstn in F. cbn [length] in F. lia.
  - f_equal. cbn [length pattern_replace_loop].
    now rewrite no_match_behind_start.
Qed.

Lemma trimLeadingSlash_strip : forall value,
  trimLeadingSlash value = strip_leading value.
Proof.
  intros value. unfold trimLeadingSlash, strip_leading.
  destruct value as [|c tl]; [reflexivity|].
  destruct (chr_class_slashes c) as [Hs Hb].
  destruct (is_slash c) eqn:S.
  - rewrite (pattern_replace_run _ _ _ c tl (drop_while is_slash tl)).
    + simpl. now rewrite S.
    + cbn [pmatch]. rewrite match_leading_run, Hs.
      now rewrite (drop_while_ext _ is_slash tl
                     (fun ch => proj1 (chr_class_slashes ch))).
    + apply drop_while_length.
  - destruct (is_backslash c) eqn:B.
    + rewrite (pattern_replace_run _ _ _ c tl (drop_while is_backslash tl)).
      * simpl. now rewrite B.
      * cbn [pmatch]. rewrite !match_leading_run, Hs, Hb.
        now rewrite (drop_while_ext _ is_backslash tl
                       (fun ch => proj2 (chr_class_slashes ch))).
      * apply drop_while_length.
    + unfold pattern_replace_all.
      cbn [pattern_replace_loop pattern_exec]. unfold pmatch_here.
      cbn [pmatch]. rewrite !match_leading_run, Hs, Hb.
      now rewrite no_match_behind_start.
Qed.

(** ** [trimLeadingSlash] and [normalizeSlashes] *)

(** X10: [trimLeadingSlash] removes the run of slashes at the start of the
    value, or else the run of backslashes there, and never both: what it
    returns is the value without one such run, and a value that starts
    with a separator comes back without that separator in front. *)
Theorem trimLeadingSlash_strips_one_run : forall value,
  (exists run,
     value = run ++ trimLeadingSlash value /\
     (forallb is_slash run = true \/ forallb is_backslash run = true)) /\
  (forall c tl c' tl',
     value = c :: tl -> trimLeadingSlash value = c' :: tl' ->
     (is_slash c = true -> is_slash c' = false) /\
     (is_slash c = false -> is_backslash c = true -> is_backslash c' = false) /\
     (is_slash c = false -> is_backslash c = false ->
      trimLeadingSlash value = value)).
Proof.
  intros value. rewrite trimLeadingSlash_strip. unfold strip_leading. split.
  - destruct value as [|c tl].
    + exists []. split; [reflexivity | now left].
    + destruct (is_slash c).
      * destruct (drop_while_suffix is_slash (c :: tl)) as (run & E & R).
        exists run. split; [exact E | now left].
      * destruct (is_backslash c).
        -- destruct (drop_while_suffix is_backslash (c :: tl)) as (run & E & R).
           exists run. split; [exact E | now right].
        -- exists []. split; [reflexivity | now left].
  - intros c tl c' tl' -> H.
    destruct (is_slash c) eqn:S.
    + apply drop_while_head in H.
      split; [|split]; intros; try discriminate; assumption.
    + destruct (is_backslash c) eqn:B.
      * apply drop_while_head in H.
        split; [|split]; intros; try discriminate; assumption.
      * split; [|split]; intros; try discriminate; reflexivity.
Qed.

Lemma match_here_backslash : forall c tl,
  match_here (Chr backslash) (c :: tl) =
  if is_backslash c then Some (mkResult [] [c] [] tl) else None.
Proof.
  intros c tl. unfold match_here. rewrite rmatch_Chr.
  change (Ascii.eqb (canonicalize c) (canonicalize backslash))
    with (chr_class backslash c).
  rewrite (proj2 (chr_class_slashes c)).
  destruct (is_backslash c); [|reflexivity].
  cbn [rest captures]. change (c :: tl) with ([c] ++ tl).
  now rewrite firstn_app_exact.
Qed.

Lemma replace_loop_skip : forall n r f c tl,
  match_here r (c :: tl) = None ->
  replace_loop (S n) r f (c :: tl) = c :: replace_loop (S n) r f tl.
Proof.
  intros n r f c tl H. cbn [replace_loop regexp_exec]. rewrite H.
  destruct (regexp_exec r tl) as [m|]; reflexivity.
Qed.

Lemma normalizeSlashes_map : forall value,
  normalizeSlashes value = map to_slash value.
Proof.
  intros value. unfold normalizeSlashes, replace_all.
  assert (G : forall s fuel, length s < fuel ->
            replace_loop fuel (Chr backslash) (fun _ _ => str "/") s
            = map to_slash s).
  { induction s as [|c tl IH]; intros [|n] H; try (simpl in H; lia).
    - reflexivity.
    - pose proof (match_here_backslash c tl) as M.
      cbn [map]. unfold to_slash at 1. destruct (is_backslash c) eqn:B.
      + cbn [replace_loop regexp_exec]. rewrite M.
        cbn [before matched groups_of after app].
        rewrite IH by (simpl in H; lia). reflexivity.
      + rewrite replace_loop_skip by exact M.
        rewrite IH by (simpl in H; lia). reflexivity. }
  apply G. lia.
Qed.

(** X11: [normalizeSlashes] turns every backslash into a slash and keeps
    every other character: the result has the length of the value and no
    backslash, and a value without backslash comes back unchanged. *)
Theorem normalizeSlashes_replaces_every_backslash : forall value,
  normalizeSlashes value = map to_slash value /\
  length (normalizeSlashes value) = length value /\
  forallb (fun c => negb (is_backslash c)) (normalizeSlashes value) = true /\
  (normalizeSlashes value = value <->
   forallb (fun c => negb (is_backslash c)) value = true).
Proof.
  intros value. rewrite normalizeSlashes_map.
  split; [reflexivity|]. split; [apply length_map|]. split.
  - induction value as [|c tl IH]; [reflexivity|].
    cbn [map forallb]. rewrite IH, andb_true_r. unfold to_slash.
    destruct (is_backslash c) eqn:B; [reflexivity | now rewrite B].
  - induction value as [|c tl IH]; [split; reflexivity|].
    cbn [map forallb]. unfold to_slash at 1. split.
    + intros E. injection E as Ec Et. apply IH in Et. rewrite Et, andb_true_r.
      destruct (is_backslash c) eqn:B; [|reflexivity].
      subst c. discriminate.
    + intros H. apply andb_true_iff in H. destruct H as [Hc Ht].
      apply negb_true_iff in Hc. rewrite Hc. f_equal. now apply IH.
Qed.

(** ** [fsPathToRef] *)

Lemma normalizeSlashes_fixed : forall s,
  forallb (fun c => negb (is_backslash c)) s = true -> normalizeSlashes s = s.
Proof.
  intros s H. rewrite normalizeSlashes_map.
  induction s as [|c s IH]; [reflexivity|].
  cbn [forallb] in H. apply andb_true_iff in H. destruct H as [Hc Hs].
  apply negb_true_iff in Hc. cbn [map]. unfold to_slash at 1.
  rewrite Hc. f_equal. now apply IH.
Qed.

Lemma starts_with_app : forall p s, starts_with p (p ++ s) = true.
Proof.
  induction p as [|c p IH]; intros s; [reflexivity|].
  simpl. now rewrite Ascii.eqb_refl, IH.
Qed.

Lemma remove_first_unfold : forall p s,
  remove_first p s =
  if starts_with p s then skipn (length p) s
  else match s with
       | [] => []
       | c :: tl => c :: remove_first p tl
       end.
Proof. intros p [|c tl]; reflexivity. Qed.

Lemma remove_first_prefix : forall p s, remove_first p (p ++ s) = s.
Proof.
  intros p s. rewrite remove_first_unfold, starts_with_app.
  rewrite skipn_app, Nat.sub_diag, skipn_all. reflexivity.
Qed.

Lemma no_period_md : forallb (fun c => negb (is_period c)) (str "md") = true.
Proof. reflexivity. Qed.

Lemma lastIndexOf_none : forall s,
  forallb (fun c => negb (is_period c)) s = true ->
  lastIndexOf period s = None.
Proof.
  induction s as [|x s IH]; intros H; [reflexivity|].
  cbn [forallb] in H. apply andb_true_iff in H. destruct H as [Hx Hs].
  cbn [lastIndexOf]. rewrite (IH Hs).
  destruct (Ascii.eqb x period) eqn:E; [|reflexivity].
  apply Ascii.eqb_eq in E. subst x. discriminate.
Qed.

Lemma lastIndexOf_last : forall a e,
  forallb (fun c => negb (is_period c)) e = true ->
  lastIndexOf period (a ++ period :: e) = Some (length a).
Proof.
  intros a e He. induction a as [|x a IH].
  - cbn [app lastIndexOf length]. rewrite (lastIndexOf_none e He).
    now rewrite Ascii.eqb_refl.
  - cbn [app lastIndexOf length]. now rewrite IH.
Qed.

Lemma includes_period : forall a e,
  includes (str ".") (a ++ period :: e) = true.
Proof.
  intros a e. induction a as [|x a IH].
  - reflexivity.
  - cbn [app includes]. rewrite IH. apply orb_true_r.
Qed.

Lemma strip_leading_fixed : forall s,
  forallb (fun c => negb (is_slash c)) s = true ->
  forallb (fun c => negb (is_backslash c)) s = true ->
  strip_leading s = s.
Proof.
  intros [|c s] H1 H2; [reflexivity|].
  cbn [forallb] in H1, H2.
  apply andb_true_iff in H1. apply andb_true_iff in H2.
  destruct H1 as [H1 _], H2 as [H2 _].
  apply negb_true_iff in H1. apply negb_true_iff in H2.
  unfold strip_leading. now rewrite H1, H2.
Qed.

Lemma no_backslash : forall s,
  has_char backslash s = false ->
  forallb (fun c => negb (is_backslash c)) s = true.
Proof.
  induction s as [|c s IH]; intros H; [reflexivity|].
  rewrite has_char_cons in H. apply orb_false_iff in H. destruct H as [Hc Hs].
  simpl. rewrite (IH Hs), andb_true_r. apply negb_true_iff.
  unfold is_backslash. apply Nat.eqb_neq. intros E.
  apply Ascii.eqb_neq in Hc. apply Hc. apply code_inj. now rewrite E.
Qed.

(** The reference of the file of a note, with [keepExt] and without. *)
Lemma ref_of_note_file : forall (keepExt : bool) (dir f : jsstring),
  forallb (fun c => negb (is_slash c)) f = true ->
  forallb (fun c => negb (is_backslash c)) f = true ->
  (if keepExt then trimLeadingSlash (dir ++ f ++ str ".md")
   else trimLeadingSlash
          (if includes (str ".") (dir ++ f ++ str ".md")
           then match lastIndexOf period (dir ++ f ++ str ".md") with
                | Some i => slice 0 i (dir ++ f ++ str ".md")
                | None => dir ++ f ++ str ".md"
                end
           else dir ++ f ++ str ".md"))
  = strip_leading (dir ++ f ++ (if keepExt then str ".md" else [])).
Proof.
  intros keepExt dir f Hs Hb. destruct keepExt.
  - apply trimLeadingSlash_strip.
  - rewrite trimLeadingSlash_strip.
    replace (dir ++ f ++ str ".md") with ((dir ++ f) ++ period :: str "md")
      by text_eq.
    rewrite includes_period, (lastIndexOf_last _ _ no_period_md).
    rewrite slice_from_start, firstn_app, Nat.sub_diag, firstn_all.
    simpl firstn. now rewrite !app_nil_r.
Qed.

(** X12: [fsPathToRef] gives back the name of a note from the path that
    [cacheUris] builds for it, with the base path and without it, when the
    name holds no separator; with [keepExt] it gives the file name. *)
Theorem fsPathToRef_of_note_file :
  forall (root f : jsstring) (keepExt : bool) (basePath : option jsstring),
  has_char slash f = false ->
  has_char backslash f = false ->
  basePath = None \/ basePath = Some root ->
  fsPathToRef (joinPath root (f ++ str ".md")) keepExt basePath
  = f ++ (if keepExt then str ".md" else []).
Proof.
  intros root f keepExt basePath Hs Hb Hbase.
  pose proof (no_slash f Hs) as Hs1. pose proof (no_backslash f Hb) as Hb1.
  assert (Hne : f ++ str ".md" <> []) by (destruct f; discriminate).
  assert (Hs' : has_char (ascii_of_nat 47) (f ++ str ".md") = false)
    by (rewrite has_char_app; unfold slash in Hs; rewrite Hs; reflexivity).
  destruct (basename_of_file root _ Hne Hs') as [B _].
  assert (Fixed : strip_leading (f ++ (if keepExt then str ".md" else []))
                  = f ++ (if keepExt then str ".md" else [])).
  { apply strip_leading_fixed; rewrite forallb_app.
    - rewrite Hs1. now destruct keepExt.
    - rewrite Hb1. now destruct keepExt. }
  assert (Base : (if keepExt then trimLeadingSlash (f ++ str ".md")
                  else trimLeadingSlash
                         (if includes (str ".") (f ++ str ".md")
                          then match lastIndexOf period (f ++ str ".md") with
                               | Some i => slice 0 i (f ++ str ".md")
                               | None => f ++ str ".md"
                               end
                          else f ++ str ".md"))
                 = f ++ (if keepExt then str ".md" else [])).
  { pose proof (ref_of_note_file keepExt [] f Hs1 Hb1) as R.
    cbn [app] in R. rewrite R. exact Fixed. }
  unfold fsPathToRef.
  destruct Hbase as [-> | ->]; [rewrite B; exact Base|].
  destruct root as [|b base]; [rewrite B; exact Base|].
  unfold joinPath. rewrite starts_with_app, remove_first_prefix.
  assert (N : normalizeSlashes (str "/" ++ f ++ str ".md")
              = str "/" ++ f ++ str ".md").
  { apply normalizeSlashes_fixed.
    simpl. rewrite forallb_app, Hb1. reflexivity. }
  rewrite N.
  rewrite (ref_of_note_file keepExt (str "/") f Hs1 Hb1).
  assert (A : forallb (fun c => negb (is_slash c))
                      (f ++ (if keepExt then str ".md" else [])) = true)
    by (rewrite forallb_app, Hs1; now destruct keepExt).
  set (g := f ++ (if keepExt then str ".md" else [])) in *.
  change (str "/" ++ g) with ("/"%char :: g). unfold strip_leading.
  change (is_slash "/"%char) with true. cbv iota.
  cbn [drop_while]. change (is_slash "/"%char) with true. cbv iota.
  destruct g as [|c t]; [reflexivity|].
  cbn [forallb] in A. apply andb_true_iff in A. destruct A as [A _].
  apply negb_true_iff in A. cbn [drop_while]. now rewrite A.
Qed.

Lemma fsPathToRef_of_note_file_witness :
  fsPathToRef (joinPath (str "/vault") (str "foo.ch1" ++ str ".md")) false
              (Some (str "/vault"))
  = str "foo.ch1" ++ [].
Proof.
  apply (fsPathToRef_of_note_file (str "/vault") (str "foo.ch1") false
           (Some (str "/vault"))).
  - reflexivity.
  - reflexivity.
  - right. reflexivity.
Defined.

Lemma forallb_firstn : forall (A : Type) (p : A -> bool) n (l : list A),
  forallb p l = true -> forallb p (firstn n l) = true.
Proof.
  intros A p n l H. rewrite <- (firstn_skipn n l), forallb_app in H.
  apply andb_true_iff in H. apply H.
Qed.

Lemma forallb_drop_while : forall (p q : ascii -> bool) s,
  forallb p s = true -> forallb p (drop_while q s) = true.
Proof.
  intros p q s H. destruct (drop_while_suffix q s) as (run & E & _).
  rewrite E, forallb_app in H. apply andb_true_iff in H. apply H.
Qed.

Lemma basename_no_slash : forall p,
  forallb (fun c => negb (is_slash c)) (basename p) = true.
Proof.
  intros p. unfold basename. rewrite forallb_rev. apply take_until_none.
Qed.

Lemma normalizeSlashes_no_backslash : forall s,
  forallb (fun c => negb (is_backslash c)) (normalizeSlashes s) = true.
Proof.
  intros s. rewrite normalizeSlashes_map.
  induction s as [|c s IH]; [reflexivity|].
  cbn [map forallb]. rewrite IH, andb_true_r. unfold to_slash.
  destruct (is_backslash c) eqn:B; [reflexivity | now rewrite B].
Qed.

(** A text of one kind of separator at most, stripped. *)
Lemma strip_leading_head : forall s c t,
  forallb (fun c => negb (is_backslash c)) s = true \/
  forallb (fun c => negb (is_slash c)) s = true ->
  strip_leading s = c :: t ->
  is_slash c = false /\ is_backslash c = false.
Proof.
  intros s c t H E. unfold strip_leading in E.
  destruct s as [|x s]; [discriminate|].
  assert (Hd : forall p q,
            forallb (fun c => negb (p c)) (x :: s) = true ->
            drop_while q (x :: s) = c :: t -> p c = false).
  { intros p q Hp Hq.
    apply (forallb_drop_while _ q) in Hp. rewrite Hq in Hp.
    cbn [forallb] in Hp. apply andb_true_iff in Hp.
    now apply negb_true_iff. }
  assert (Hx : forall p, forallb (fun c => negb (p c)) (x :: s) = true ->
                         p x = false).
  { intros p Hp. cbn [forallb] in Hp. apply andb_true_iff in Hp.
    now apply negb_true_iff. }
  destruct (is_slash x) eqn:S.
  - split; [now apply (drop_while_head _ _ _ _ E)|].
    destruct H as [H|H]; [now apply (Hd is_backslash is_slash H E)|].
    apply Hx in H. congruence.
  - destruct (is_backslash x) eqn:B.
    + split; [|now apply (drop_while_head _ _ _ _ E)].
      destruct H as [H|H]; [apply Hx in H; congruence|].
      now apply (Hd is_slash is_backslash H E).
    + injection E as <- _. now split.
Qed.

(** X13: the reference that [fsPathToRef] returns never starts with a
    slash or a backslash, whatever the path, the base path and [keepExt]. *)
Theorem fsPathToRef_has_no_leading_separator :
  forall fsPath keepExt basePath c t,
    fsPathToRef fsPath keepExt basePath = c :: t ->
    is_slash c = false /\ is_backslash c = false.
Proof.
  intros fsPath keepExt basePath c t H. unfold fsPathToRef in H.
  set (r := match basePath with
            | Some (b :: base) =>
                if starts_with (b :: base) fsPath
                then normalizeSlashes (remove_first (b :: base) fsPath)
                else basename fsPath
            | _ => basename fsPath
            end) in H.
  assert (Q : forallb (fun c => negb (is_backslash c)) r = true \/
              forallb (fun c => negb (is_slash c)) r = true).
  { unfold r. destruct basePath as [[|b base]|];
      try (right; apply basename_no_slash).
    destruct (starts_with (b :: base) fsPath);
      [left; apply normalizeSlashes_no_backslash
      | right; apply basename_no_slash]. }
  assert (Q' : forall n,
            forallb (fun c => negb (is_backslash c)) (firstn n r) = true \/
            forallb (fun c => negb (is_slash c)) (firstn n r) = true).
  { intros n. destruct Q as [Q|Q]; [left | right]; now apply forallb_firstn. }
  destruct keepExt.
  - rewrite trimLeadingSlash_strip in H. now apply (strip_leading_head r c t).
  - rewrite trimLeadingSlash_strip in H.
    destruct (includes (str ".") r);
      [|now apply (strip_leading_head r c t)].
    destruct (lastIndexOf period r) as [i|];
      [|now apply (strip_leading_head r c t)].
    rewrite slice_from_start in H.
    now apply (strip_leading_head (firstn i r) c t).
Qed.

Lemma fsPathToRef_has_no_leading_separator_witness :
  is_slash "s"%char = false /\ is_backslash "s"%char = false.
Proof.
  apply (fsPathToRef_has_no_leading_separator
           (str "/v/sub.dir/note.md") false (Some (str "/v"))
           "s"%char (str "ub.dir/note")).
  reflexivity.
Defined.

(** ** A match of [refRegexp] *)

Lemma star_lazy_inv : forall p k s caps z,
  star_lazy_cls p k s caps = Some z ->
  exists w s', s = w ++ s' /\ forallb p w = true /\
               k (mkState s' caps) = Some z.
Proof.
  intros p k s caps z. induction s as [|c s IH]; simpl; intros H.
  - destruct (k (mkState [] caps)) eqn:E; [|discriminate].
    exists [], []. repeat split. now rewrite E.
  - destruct (k (mkState (c :: s) caps)) eqn:E.
    + exists [], (c :: s). repeat split. now rewrite E.
    + destruct (p c) eqn:P; [|discriminate].
      destruct (IH H) as (w & s' & -> & Hw & Hk).
      exists (c :: w), s'. repeat split; [|exact Hk]. simpl. now rewrite P, Hw.
Qed.

Lemma star_lazy_skip : forall p k w s caps,
  forallb p w = true ->
  (forall w1 c w2, w = w1 ++ c :: w2 ->
                   k (mkState (c :: w2 ++ s) caps) = None) ->
  star_lazy_cls p k (w ++ s) caps = star_lazy_cls p k s caps.
Proof.
  intros p k w s caps. induction w as [|c w IH]; intros Hw Hk; [reflexivity|].
  cbn [forallb] in Hw. apply andb_true_iff in Hw. destruct Hw as [Hc Hw].
  simpl app. cbn [star_lazy_cls].
  rewrite (Hk [] c w eq_refl), Hc. apply IH; [exact Hw|].
  intros w1 c' w2 E. apply (Hk (c :: w1) c' w2). now rewrite E.
Qed.

Lemma not_bracket_rbracket : forall c,
  not_bracket c = true -> Ascii.eqb (canonicalize c) (canonicalize rbracket) = false.
Proof.
  intros c H. destruct (Ascii.eqb _ _) eqn:E; [|reflexivity].
  apply Ascii.eqb_eq in E. apply canonicalize_special in E; [|auto].
  subst c. discriminate.
Qed.

Lemma firstn_link : forall tok tl,
  firstn (length (str "[[" ++ tok ++ str "]]" ++ tl) - length tl)
         (str "[[" ++ tok ++ str "]]" ++ tl)
  = str "[[" ++ tok ++ str "]]".
Proof.
  intros tok tl.
  replace (str "[[" ++ tok ++ str "]]" ++ tl)
    with ((str "[[" ++ tok ++ str "]]") ++ tl) by text_eq.
  apply firstn_app_exact.
Qed.

Lemma match_here_refRegexp : forall s m,
  match_here refRegexp s = Some m <->
  exists tok tl,
    s = str "[[" ++ tok ++ str "]]" ++ tl /\
    tok <> [] /\ forallb not_bracket tok = true /\
    m = mkResult [] (str "[[" ++ tok ++ str "]]")
                 [(3, str "]]"); (2, tok); (1, str "[[")] tl.
Proof.
  intros s m. unfold match_here, refRegexp, refPattern. split.
  - destruct (rmatch _ Some (mkState s [])) as [y|] eqn:E; [|discriminate].
    intros H. injection H as <-.
    rewrite rmatch_Seq, rmatch_Group in E.
    apply rmatch_lit_inv in E. destruct E as (l & s1 & -> & Hl & E).
    apply same_text_open in Hl. subst l.
    unfold set_capture, consumed in E. cbn [rest captures filter] in E.
    rewrite firstn_app_exact in E.
    rewrite rmatch_Seq, rmatch_Group, rmatch_plus_cls in E.
    destruct s1 as [|ch s1]; [discriminate|].
    destruct (not_bracket ch) eqn:Hch; [|discriminate].
    rewrite rmatch_star_lazy in E. apply star_lazy_inv in E.
    destruct E as (w & s2 & -> & Hw & E).
    unfold set_capture, consumed in E. cbn [rest captures filter] in E.
    change (ch :: w ++ s2) with ((ch :: w) ++ s2) in E.
    rewrite firstn_app_exact in E.
    rewrite rmatch_Group in E.
    apply rmatch_lit_inv in E. destruct E as (l & s3 & -> & Hl & E).
    apply same_text_brackets in Hl. subst l.
    unfold set_capture, consumed in E. cbn [rest captures filter] in E.
    rewrite firstn_app_exact in E. injection E as <-.
    exists (ch :: w), s3. cbn [rest captures]. repeat split.
    + discriminate.
    + simpl. now rewrite Hch, Hw.
    + apply (f_equal (fun x => mkResult [] x _ s3)).
      apply (firstn_link (ch :: w) s3).
  - intros (tok & tl & -> & Hne & Htok & ->).
    destruct tok as [|ch w]; [contradiction|].
    cbn [forallb] in Htok. apply andb_true_iff in Htok.
    destruct Htok as [Hch Hw].
    rewrite rmatch_Seq, rmatch_Group.
    rewrite (rmatch_lit_same _ _ _ _ _ (same_text_refl (str "[["))).
    unfold set_capture at 1, consumed at 1. cbn [rest captures filter].
    rewrite firstn_app_exact.
    rewrite rmatch_Seq, rmatch_Group, rmatch_plus_cls.
    cbn [app]. rewrite Hch. rewrite rmatch_star_lazy.
    rewrite star_lazy_skip; [|exact Hw|].
    + rewrite (star_lazy_now _ _ _ _
                 (mkState tl [(3, str "]]"); (2, ch :: w); (1, str "[[")])).
      * cbn [rest captures]. f_equal.
        apply (f_equal (fun x => mkResult [] x _ tl)).
        apply (firstn_link (ch :: w) tl).
      * unfold set_capture at 1, consumed at 1. cbn [rest captures filter].
        change (ch :: w ++ str "]]" ++ tl)
          with ((ch :: w) ++ (str "]]" ++ tl)).
        rewrite firstn_app_exact. rewrite rmatch_Group.
        rewrite (rmatch_lit_same _ _ _ _ _ (same_text_refl (str "]]"))).
        unfold set_capture, consumed. cbn [rest captures filter].
        rewrite firstn_app_exact. reflexivity.
    + intros w1 c w2 Ew. rewrite rmatch_Group.
      change (lit (str "]]")) with (Seq (Chr rbracket) (lit [rbracket])).
      rewrite rmatch_Seq. unfold set_capture at 3. cbn [rest].
      rewrite rmatch_Chr.
      rewrite not_bracket_rbracket; [reflexivity|].
      rewrite Ew, forallb_app in Hw. apply andb_true_iff in Hw.
      destruct Hw as [_ Hw]. cbn [forallb] in Hw.
      apply andb_true_iff in Hw. apply Hw.
Qed.

(** X14: at the start of a text [refRegexp] matches exactly a link token:
    two opening brackets, a text that is not empty and holds no bracket,
    two closing brackets.  The second group is that text, which can hold
    line terminators. *)
Theorem refRegexp_matches_a_token : forall s m,
  match_here refRegexp s = Some m <->
  exists tok tl,
    s = str "[[" ++ tok ++ str "]]" ++ tl /\
    tok <> [] /\ forallb not_bracket tok = true /\
    m = mkResult [] (str "[[" ++ tok ++ str "]]")
                 [(3, str "]]"); (2, tok); (1, str "[[")] tl.
Proof. exact match_here_refRegexp. Qed.

(** ** [extractDanglingRefs] on simple contents *)

Lemma refRegexp_needs_open : forall s,
  starts_with (str "[[") s = false -> match_here refRegexp s = None.
Proof.
  intros s H. destruct (match_here refRegexp s) as [m|] eqn:E; [|reflexivity].
  apply match_here_refRegexp in E. destruct E as (tok & tl & -> & _).
  vm_compute in H. discriminate.
Qed.

Lemma regexp_exec_none : forall r s,
  (forall w s', s = w ++ s' -> match_here r s' = None) ->
  regexp_exec r s = None.
Proof.
  intros r s. induction s as [|c s IH]; intros H; cbn [regexp_exec].
  - now rewrite (H [] [] eq_refl).
  - rewrite (H [] (c :: s) eq_refl). rewrite IH; [reflexivity|].
    intros w s' ->. apply (H (c :: w) s'). reflexivity.
Qed.

Lemma regexp_exec_skip : forall r pre s m,
  (forall w1 c w2, pre = w1 ++ c :: w2 ->
                   match_here r (c :: w2 ++ s) = None) ->
  match_here r s = Some m ->
  regexp_exec r (pre ++ s) =
  Some (mkResult (pre ++ before m) (matched m) (groups_of m) (after m)).
Proof.
  intros r pre s m. induction pre as [|c pre IH]; intros Hpre Hm.
  - simpl app. destruct s; cbn [regexp_exec]; rewrite Hm; now destruct m.
  - simpl app. cbn [regexp_exec]. rewrite (Hpre [] c pre eq_refl).
    rewrite IH; [reflexivity | | exact Hm].
    intros w1 c' w2 ->. apply (Hpre (c :: w1) c' w2). reflexivity.
Qed.

Lemma starts_with_open_head : forall c s,
  c <> lbracket -> starts_with (str "[[") (c :: s) = false.
Proof.
  intros c s H. cbn [starts_with str list_ascii_of_string].
  destruct (Ascii.eqb "["%char c) eqn:E; [|reflexivity].
  apply Ascii.eqb_eq in E. subst c. now contradiction H.
Qed.

Lemma exec_ref_no_lbracket : forall s,
  has_char lbracket s = false -> regexp_exec refRegexp s = None.
Proof.
  intros s H. apply regexp_exec_none. intros w s' ->.
  rewrite has_char_app in H. apply orb_false_iff in H. destruct H as [_ H].
  apply refRegexp_needs_open. destruct s' as [|c s']; [reflexivity|].
  apply starts_with_open_head. rewrite has_char_cons in H.
  apply orb_false_iff in H. destruct H as [H _].
  apply Ascii.eqb_neq in H. congruence.
Qed.

Lemma matchAll_loop_none : forall fuel r s,
  regexp_exec r s = None -> matchAll_loop fuel r s = [].
Proof. intros [|n] r s H; [reflexivity|]. cbn [matchAll_loop]. now rewrite H. Qed.

Lemma matchAll_one_token : forall pre tok post,
  has_char lbracket pre = false ->
  tok <> [] -> forallb not_bracket tok = true ->
  has_char lbracket post = false ->
  matchAll refRegexp (pre ++ str "[[" ++ tok ++ str "]]" ++ post) =
  [mkResult pre (str "[[" ++ tok ++ str "]]")
            [(3, str "]]"); (2, tok); (1, str "[[")] post].
Proof.
  intros pre tok post Hpre Hne Htok Hpost. unfold matchAll.
  cbn [matchAll_loop].
  rewrite (regexp_exec_skip refRegexp pre _
             (mkResult [] (str "[[" ++ tok ++ str "]]")
                       [(3, str "]]"); (2, tok); (1, str "[[")] post)).
  - cbn [before matched groups_of after]. rewrite app_nil_r. f_equal.
    apply matchAll_loop_none. now apply exec_ref_no_lbracket.
  - intros w1 c w2 E. apply refRegexp_needs_open, starts_with_open_head.
    rewrite E, has_char_app, has_char_cons in Hpre.
    apply orb_false_iff in Hpre. destruct Hpre as [_ Hpre].
    apply orb_false_iff in Hpre. destruct Hpre as [Hpre _].
    apply Ascii.eqb_neq in Hpre. congruence.
  - apply match_here_refRegexp. exists tok, post. now repeat split.
Qed.

Lemma split_lines_single : forall s,
  has_char lf s = false -> split_lines s = [s].
Proof.
  induction s as [|c s IH]; intros H; [reflexivity|].
  rewrite has_char_cons in H. apply orb_false_iff in H. destruct H as [Hc Hs].
  cbn [split_lines].
  assert (C : (code c =? 10) = false).
  { apply Nat.eqb_neq. intros E. apply Ascii.eqb_neq in Hc. apply Hc.
    apply code_inj. now rewrite E. }
  rewrite C.
  assert (L : starts_with_lf s = false).
  { destruct s as [|d s]; [reflexivity|]. simpl.
    rewrite has_char_cons in Hs. apply orb_false_iff in Hs.
    destruct Hs as [Hd _]. apply Nat.eqb_neq. intros E.
    apply Ascii.eqb_neq in Hd. apply Hd. apply code_inj. now rewrite E. }
  rewrite L, andb_false_r. now rewrite (IH Hs).
Qed.

(** X15: a content of one line with one link token, between a text
    without opening bracket and another one: the list of
    [extractDanglingRefs] is the parsed reference of the token when it
    resolves to no uri, and empty when it resolves. *)
Theorem extractDanglingRefs_of_one_link : forall cache pre tok post,
  has_char lbracket pre = false ->
  tok <> [] -> forallb not_bracket tok = true ->
  has_char lbracket post = false ->
  has_char lf (pre ++ tok ++ post) = false ->
  extractDanglingRefs cache (pre ++ str "[[" ++ tok ++ str "]]" ++ post) =
  if isSome (findUriByRef (allUris cache) (ref (parseRef tok)))
  then [] else [ref (parseRef tok)].
Proof.
  intros cache pre tok post Hpre Hne Htok Hpost Hlf.
  unfold extractDanglingRefs, pushed_refs.
  rewrite split_lines_single.
  - cbn [flat_map]. rewrite (matchAll_one_token pre tok post Hpre Hne Htok Hpost).
    cbn [flat_map]. rewrite !app_nil_r. unfold pushed_by_match.
    cbn [groups_of get_capture Nat.eqb].
    destruct tok as [|c t]; [contradiction|].
    destruct (isSome (findUriByRef (allUris cache) (ref (parseRef (c :: t)))));
      reflexivity.
  - rewrite !has_char_app in *.
    apply orb_false_iff in Hlf. destruct Hlf as [H1 H2].
    apply orb_false_iff in H2. destruct H2 as [H2 H3].
    rewrite H1, H2, H3. reflexivity.
Qed.

Lemma extractDanglingRefs_of_one_link_witness :
  extractDanglingRefs (cacheUris (str "/v") notes_stub workspaceCache0)
    (str "see " ++ str "[[" ++ str "the label | Foo " ++ str "]]" ++ str ".")
  = if isSome (findUriByRef
                 (allUris (cacheUris (str "/v") notes_stub workspaceCache0))
                 (ref (parseRef (str "the label | Foo "))))
    then [] else [ref (parseRef (str "the label | Foo "))].
Proof.
  apply (extractDanglingRefs_of_one_link
           (cacheUris (str "/v") notes_stub workspaceCache0)
           (str "see ") (str "the label | Foo ") (str "."));
    try reflexivity.
  discriminate.
Defined.

Lemma first_line_head : forall s d l ls,
  split_lines s = (d :: l) :: ls -> exists s', s = d :: s'.
Proof.
  intros [|x s] d l ls H; [discriminate|].
  cbn [split_lines] in H.
  destruct (code x =? 10); [discriminate|].
  destruct ((code x =? 13) && starts_with_lf s) eqn:E.
  - apply andb_true_iff in E. destruct E as [_ E].
    destruct s as [|y s]; [discriminate|].
    simpl in E. cbn [split_lines] in H. rewrite E in H. discriminate.
  - destruct (split_lines s); injection H as <- _; now exists s.
Qed.

Lemma split_lines_no_open : forall s,
  includes (str "[[") s = false ->
  Forall (fun l => includes (str "[[") l = false) (split_lines s).
Proof.
  induction s as [|c s IH]; intros H.
  - repeat constructor.
  - cbn [includes] in H. apply orb_false_iff in H. destruct H as [H1 H2].
    specialize (IH H2). cbn [split_lines].
    destruct (code c =? 10); [constructor; [reflexivity | exact IH]|].
    destruct ((code c =? 13) && starts_with_lf s); [exact IH|].
    destruct (split_lines s) as [|l ls] eqn:E.
    + repeat constructor. cbn [includes]. apply orb_false_iff. split.
      * cbn [starts_with str list_ascii_of_string]. apply andb_false_r.
      * reflexivity.
    + inversion IH as [|? ? Hl Hls]; subst. constructor; [|exact Hls].
      cbn [includes]. rewrite Hl, orb_false_r.
      destruct l as [|d l].
      * cbn [starts_with str list_ascii_of_string]. apply andb_false_r.
      * destruct (first_line_head _ _ _ _ E) as (s' & ->).
        cbn [starts_with str list_ascii_of_string] in *. exact H1.
Qed.

Lemma includes_suffix : forall n w s,
  includes n (w ++ s) = false -> starts_with n s = false.
Proof.
  intros n w s. induction w as [|c w IH]; intros H.
  - destruct s; cbn [app includes] in H; apply orb_false_iff in H; apply H.
  - apply IH. cbn [app includes] in H. apply orb_false_iff in H. apply H.
Qed.

Lemma exec_ref_needs_open : forall s,
  includes (str "[[") s = false -> regexp_exec refRegexp s = None.
Proof.
  intros s H. apply regexp_exec_none. intros w s' ->.
  apply refRegexp_needs_open. now apply (includes_suffix _ w).
Qed.

(** X16: a content in which no two opening brackets follow one another
    has no link token: the list of [extractDanglingRefs] is empty for every
    cache. *)
Theorem extractDanglingRefs_needs_a_link : forall cache content,
  includes (str "[[") content = false ->
  extractDanglingRefs cache content = [].
Proof.
  intros cache content H. unfold extractDanglingRefs, pushed_refs.
  apply split_lines_no_open in H.
  induction (split_lines content) as [|l ls IH]; [reflexivity|].
  inversion H as [|? ? Hl Hls]; subst. cbn [flat_map].
  unfold matchAll at 1.
  rewrite (matchAll_loop_none _ _ _ (exec_ref_needs_open l Hl)).
  cbn [flat_map app]. now apply IH.
Qed.

Lemma extractDanglingRefs_needs_a_link_witness :
  extractDanglingRefs workspaceCache0 (str "a [b] [
[c]] d") = [].
Proof.
  apply (extractDanglingRefs_needs_a_link workspaceCache0 (str "a [b] [
[c]] d")).
  reflexivity.
Defined.

(** ** [replaceRefs]: case and blanks around the reference *)

Lemma is_space_canonicalize : forall c,
  is_space (canonicalize c) = is_space c.
Proof.
  intros [b0 b1 b2 b3 b4 b5 b6 b7].
  destruct b0, b1, b2, b3, b4, b5, b6, b7; vm_compute; reflexivity.
Qed.

Lemma blanks_no_divider : forall w,
  forallb is_space w = true -> has_char divider w = false.
Proof.
  induction w as [|c w IH]; intros H; [reflexivity|].
  cbn [forallb] in H. apply andb_true_iff in H. destruct H as [Hc Hw].
  rewrite has_char_cons, (IH Hw), orb_false_r.
  destruct (Ascii.eqb divider c) eqn:E; [|reflexivity].
  apply Ascii.eqb_eq in E. subst c. discriminate.
Qed.

Lemma same_text_no_divider : forall t o,
  same_text t o -> has_char divider o = false -> has_char divider t = false.
Proof.
  unfold same_text. induction t as [|c t IH]; intros [|d o] H Ho;
    try discriminate; [reflexivity|].
  cbn [map] in H. injection H as Hc Ht.
  rewrite has_char_cons in *. apply orb_false_iff in Ho.
  destruct Ho as [Hd Ho]. rewrite (IH o Ht Ho), orb_false_r.
  destruct (Ascii.eqb divider c) eqn:E; [|reflexivity].
  apply Ascii.eqb_eq in E. subst c. symmetry in Hc.
  apply canonicalize_special in Hc; [|auto]. subst d.
  now rewrite Ascii.eqb_refl in Hd.
Qed.

(** In [a ++ b = w ++ x :: t], an [x] that is not in [a] lies in [b]. *)
Lemma app_eq_behind : forall (A : Type) (a b w t : list A) (x : A),
  a ++ b = w ++ x :: t -> ~ In x a -> length a <= length w.
Proof.
  intros A a. induction a as [|y a IH]; intros b w t x H Hx; [simpl; lia|].
  destruct w as [|y' w].
  - simpl in H. injection H as -> _. exfalso. apply Hx. now left.
  - simpl in H. injection H as _ H. simpl.
    apply le_n_S, (IH _ _ _ _ H). intros Hin. apply Hx. now right.
Qed.

(** No label can be read when no closing bracket follows a divider. *)
Lemma label_fails_split : forall o a b s0,
  has_char divider a = false -> has_char rbracket b = false ->
  star_greedy_cls is_dot (label_cont (rmatch (refTail o) Some) s0)
                  (a ++ b) [] = None.
Proof.
  intros o a b s0 Ha Hb. apply star_greedy_none. intros w s' Hs.
  unfold label_cont. cbn [rest]. destruct s' as [|ch tl]; [reflexivity|].
  destruct (Ascii.eqb (canonicalize ch) (canonicalize divider)) eqn:C;
    [|reflexivity].
  apply Ascii.eqb_eq in C. apply canonicalize_special in C; [|auto]. subst ch.
  match goal with |- ?t = None => destruct t as [z|] eqn:E end;
    [exfalso | reflexivity].
  apply refTail_inv in E. destruct E as (m & -> & _ & _).
  apply (has_char_false _ _ Hb).
  apply (app_eq_in_tail _ (w ++ divider :: m) (rest z) a b rbracket).
  - rewrite Hs, <- app_assoc. reflexivity.
  - rewrite length_app.
    pose proof (app_eq_behind _ _ _ _ _ _ Hs (has_char_false _ _ Ha)). lia.
Qed.

(** The reference between blanks, in any case, up to the closing
    brackets. *)
Lemma refTail_padded : forall o sp1 t sp2 post caps,
  forallb is_space sp1 = true -> forallb is_space sp2 = true ->
  same_text t o -> trimStart o = o ->
  rmatch (refTail o) Some (mkState (sp1 ++ t ++ sp2 ++ str "]]" ++ post) caps) =
  Some (mkState post caps).
Proof.
  intros o sp1 t sp2 post caps H1 H2 Ht Ho. unfold refTail.
  rewrite rmatch_Seq, rmatch_star_greedy.
  apply star_greedy_skip; [exact H1|].
  destruct t as [|c t].
  - cbn [app]. apply star_greedy_skip; [exact H2|].
    change (str "]]" ++ post) with (rbracket :: rbracket :: post).
    rewrite star_greedy_stop by reflexivity.
    apply (refCore_at_ref o [] [] post caps Ht). reflexivity.
  - destruct o as [|d o]; [discriminate|].
    cbn [app]. rewrite star_greedy_stop.
    + apply (refCore_at_ref (d :: o) (c :: t) sp2 post caps Ht H2).
    + apply trimStart_fixed in Ho. unfold same_text in Ht. cbn [map] in Ht.
      injection Ht as Hc _.
      now rewrite <- is_space_canonicalize, Hc, is_space_canonicalize.
Qed.

Lemma padded_no_divider : forall o sp1 t sp2,
  forallb is_space sp1 = true -> forallb is_space sp2 = true ->
  same_text t o -> has_char divider o = false ->
  has_char divider (sp1 ++ t ++ sp2 ++ str "]]") = false.
Proof.
  intros o sp1 t sp2 H1 H2 Ht Ho. rewrite !has_char_app.
  rewrite (blanks_no_divider _ H1), (blanks_no_divider _ H2).
  rewrite (same_text_no_divider _ _ Ht Ho). reflexivity.
Qed.

Lemma match_here_padded : forall o sp1 t sp2 post,
  forallb is_space sp1 = true -> forallb is_space sp2 = true ->
  same_text t o -> trimStart o = o -> has_char divider o = false ->
  has_char rbracket post = false ->
  match_here (renamePattern (escapeForRegExp o))
             (str "[[" ++ (sp1 ++ t ++ sp2 ++ str "]]") ++ post) =
  Some (mkResult [] (str "[[" ++ sp1 ++ t ++ sp2 ++ str "]]") [] post).
Proof.
  intros o sp1 t sp2 post H1 H2 Ht Ho Hd Hpost. unfold match_here.
  rewrite rename_match_open.
  rewrite (star_lazy_now _ _ _ _ (mkState post [])).
  - cbn [rest captures]. do 2 f_equal.
    replace (str "[[" ++ (sp1 ++ t ++ sp2 ++ str "]]") ++ post)
      with ((str "[[" ++ sp1 ++ t ++ sp2 ++ str "]]") ++ post)
      by text_eq.
    apply firstn_app_exact.
  - rewrite rmatch_Seq, rmatch_opt_label.
    rewrite label_fails_split;
      [| now apply (padded_no_divider o) | exact Hpost].
    replace ((sp1 ++ t ++ sp2 ++ str "]]") ++ post)
      with (sp1 ++ t ++ sp2 ++ str "]]" ++ post) by text_eq.
    now apply refTail_padded.
Qed.

Lemma match_here_labelled_padded : forall d o sp1 t sp2 post,
  forallb is_dot d = true ->
  forallb is_space sp1 = true -> forallb is_space sp2 = true ->
  same_text t o -> trimStart o = o -> has_char divider o = false ->
  has_char rbracket post = false ->
  match_here (renamePattern (escapeForRegExp o))
             (str "[[" ++ d ++ divider :: (sp1 ++ t ++ sp2 ++ str "]]") ++ post) =
  Some (mkResult [] (str "[[" ++ d ++ divider :: sp1 ++ t ++ sp2 ++ str "]]")
                 [(1, d ++ [divider])] post).
Proof.
  intros d o sp1 t sp2 post Hdot H1 H2 Ht Ho Hd Hpost. unfold match_here.
  rewrite rename_match_open.
  assert (R : rmatch (refTail o) Some
                (mkState ((sp1 ++ t ++ sp2 ++ str "]]") ++ post)
                         [(1, d ++ [divider])])
              = Some (mkState post [(1, d ++ [divider])])).
  { replace ((sp1 ++ t ++ sp2 ++ str "]]") ++ post)
      with (sp1 ++ t ++ sp2 ++ str "]]" ++ post) by text_eq.
    now apply refTail_padded. }
  rewrite (star_lazy_now _ _ _ _ (mkState post [(1, d ++ [divider])])).
  - cbn [rest captures]. do 2 f_equal.
    replace (str "[[" ++ d ++ divider :: (sp1 ++ t ++ sp2 ++ str "]]") ++ post)
      with ((str "[[" ++ d ++ divider :: sp1 ++ t ++ sp2 ++ str "]]") ++ post)
      by text_eq.
    apply firstn_app_exact.
  - rewrite rmatch_Seq, rmatch_opt_label.
    erewrite star_greedy_skip; [reflexivity | exact Hdot |].
    cbn [star_greedy_cls]. change (is_dot divider) with true. cbv iota.
    rewrite label_fails_split;
      [| now apply (padded_no_divider o) | exact Hpost].
    unfold label_cont. cbn [rest]. rewrite Ascii.eqb_refl.
    replace (firstn _ _) with (d ++ [divider]).
    + exact R.
    + symmetry.
      replace (d ++ divider :: (sp1 ++ t ++ sp2 ++ str "]]") ++ post)
        with ((d ++ [divider]) ++ ((sp1 ++ t ++ sp2 ++ str "]]") ++ post))
        by text_eq.
      apply firstn_app_exact.
Qed.

(** X17: the reference of a link is compared without regard to case and
    to the blanks around it.  For an old reference without divider and
    without blank in front, a link that holds it in any case between
    blanks, alone between a text without opening bracket and a text without
    brackets, is rewritten to the new reference as it is given: the blanks
    are dropped, and a label in front of the divider, when it holds no line
    terminator, is kept but for the blanks in front of it. *)
Theorem replaceRefs_ignores_case_and_blanks :
  forall pre display sp1 t sp2 oldRef newRef post,
  has_char lbracket pre = false ->
  forallb is_dot display = true ->
  forallb is_space sp1 = true -> forallb is_space sp2 = true ->
  same_text t oldRef ->
  trimStart oldRef = oldRef -> has_char divider oldRef = false ->
  has_char lbracket post = false -> has_char rbracket post = false ->
  replaceRefs [mkRename oldRef newRef]
    (pre ++ str "[[" ++ sp1 ++ t ++ sp2 ++ str "]]" ++ post)
  = Some (pre ++ str "[[" ++ newRef ++ str "]]" ++ post)
  /\
  replaceRefs [mkRename oldRef newRef]
    (pre ++ str "[[" ++ display ++ divider :: sp1 ++ t ++ sp2 ++ str "]]" ++ post)
  = Some (pre ++ str "[[" ++ trimStart display ++ divider :: newRef
              ++ str "]]" ++ post).
Proof.
  intros pre d sp1 t sp2 o n post Hpre Hdot H1 H2 Ht Ho Hd Hp1 Hp2. split.
  - pose proof (match_here_padded o sp1 t sp2 post H1 H2 Ht Ho Hd Hp2) as Hm.
    destruct (replace_all_one_link o (replacement (mkRename o n)) pre
                (str "[[" ++ sp1 ++ t ++ sp2 ++ str "]]") [] post Hpre Hp1)
      as [Hex Hrep].
    + discriminate.
    + exact Hm.
    + rewrite replaceRefs_single. unfold pair_matches. cbn [old].
      replace (pre ++ str "[[" ++ sp1 ++ t ++ sp2 ++ str "]]" ++ post)
        with (pre ++ (str "[[" ++ sp1 ++ t ++ sp2 ++ str "]]") ++ post)
        by text_eq.
      destruct (regexp_exec _ _); [|contradiction]. cbn [isSome].
      rewrite Hrep. unfold replacement. cbn [get_capture new].
      f_equal. text_eq.
  - pose proof (match_here_labelled_padded d o sp1 t sp2 post
                  Hdot H1 H2 Ht Ho Hd Hp2) as Hm.
    destruct (replace_all_one_link o (replacement (mkRename o n)) pre
                (str "[[" ++ d ++ divider :: sp1 ++ t ++ sp2 ++ str "]]")
                [(1, d ++ [divider])] post Hpre Hp1) as [Hex Hrep].
    + discriminate.
    + rewrite <- Hm. f_equal. text_eq.
    + rewrite replaceRefs_single. unfold pair_matches. cbn [old].
      replace (pre ++ str "[[" ++ d ++ divider :: sp1 ++ t ++ sp2
                   ++ str "]]" ++ post)
        with (pre ++ (str "[[" ++ d ++ divider :: sp1 ++ t ++ sp2
                          ++ str "]]") ++ post)
        by text_eq.
      destruct (regexp_exec _ _); [|contradiction]. cbn [isSome].
      rewrite Hrep. unfold replacement. cbn [get_capture Nat.eqb new].
      rewrite trim_label. f_equal. text_eq.
Qed.

Lemma replaceRefs_ignores_case_and_blanks_witness :
  replaceRefs [mkRename (str "foo.bar") (str "baz")]
              (str "see [[ Foo.BAR  ]], then")
  = Some (str "see [[baz]], then") /\
  replaceRefs [mkRename (str "foo.bar") (str "baz")]
              (str "see [[ My label | Foo.BAR  ]], then")
  = Some (str "see [[My label |baz]], then").
Proof.
  exact (replaceRefs_ignores_case_and_blanks
           (str "see ") (str " My label ") (str " ") (str "Foo.BAR")
           (str "  ") (str "foo.bar") (str "baz") (str ", then")
           eq_refl eq_refl eq_refl eq_refl eq_refl eq_refl eq_refl
           eq_refl eq_refl).
Defined.

(** ** The hooks of [replaceRefs] *)

(** One rewriting with the hooks: the text is that of [replace_loop], and
    the replacer ran once for every match. *)
Lemma replace_loop_st_calls : forall hk rn r,
  0 < minlen r ->
  forall fuel b calls s,
    replace_loop_st fuel r (replacer hk rn) (b, calls) s =
    ((b || (0 <? length (matchAll_loop fuel r s)),
      calls ++
      (if negb b && (0 <? length (matchAll_loop fuel r s)) && onMatch hk
       then [OnMatch] else []) ++
      (if onReplace hk
       then repeat OnReplace (length (matchAll_loop fuel r s)) else [])),
     replace_loop fuel r (replacement rn) s).
Proof.
  intros hk rn r Hr. induction fuel as [|n IH]; intros b calls s.
  - cbn [replace_loop_st replace_loop matchAll_loop length Nat.ltb Nat.leb
         repeat].
    rewrite orb_false_r, andb_false_r. cbn [andb].
    destruct (onReplace hk); cbn [app]; now rewrite app_nil_r.
  - cbn [replace_loop_st replace_loop matchAll_loop].
    destruct (regexp_exec r s) as [m|] eqn:E.
    + pose proof (regexp_exec_shape _ _ _ E) as [_ Hlen].
      destruct (matched m) as [|c tl] eqn:M; [simpl in Hlen; lia|].
      unfold replacer at 1. rewrite IH. rewrite <- M.
      cbn [length Nat.ltb Nat.leb orb negb andb repeat].
      rewrite orb_true_r, andb_true_r.
      f_equal.
      f_equal.
      destruct b, (onMatch hk), (onReplace hk); cbn [negb andb app];
        rewrite <- ?app_assoc; cbn [app]; rewrite ?app_nil_r; reflexivity.
    + cbn [length Nat.ltb Nat.leb repeat].
      rewrite orb_false_r, andb_false_r. cbn [andb].
      destruct (onReplace hk); cbn [app]; now rewrite app_nil_r.
Qed.

Lemma calls_of_pair_0 : forall hk, calls_of_pair hk 0 = [].
Proof. intros hk. unfold calls_of_pair. now destruct (onReplace hk). Qed.

Lemma replaceRefs_hooks_fold : forall hk content refs u nc calls,
  fold_left
    (fun (acc : bool * jsstring * list HookCall) (r : Rename) =>
       let '(updatedOnce, nextContent, calls) := acc in
       let oldRef := escapeForRegExp (old r) in
       let pattern := renamePattern oldRef in
       if isSome (regexp_exec pattern content) then
         let '((_, calls'), nextContent') :=
           replace_loop_st (S (length content)) pattern (replacer hk r)
                           (false, calls) content in
         (true, nextContent', calls')
       else (updatedOnce, nextContent, calls))
    refs (u, nc, calls)
  = (fold_left (replaceRefs_step content) refs (u, nc),
     calls ++
     flat_map (fun r =>
                 calls_of_pair hk
                   (length (matchAll (renamePattern (escapeForRegExp (old r)))
                                     content)))
              refs).
Proof.
  intros hk content. induction refs as [|r refs IH]; intros u nc calls.
  - cbn [fold_left flat_map]. now rewrite app_nil_r.
  - cbn [fold_left flat_map]. unfold replaceRefs_step at 2, pair_matches.
    destruct (regexp_exec (renamePattern (escapeForRegExp (old r))) content)
      as [m|] eqn:E; cbn [isSome].
    + rewrite (replace_loop_st_calls hk r _ (renamePattern_minlen _)).
      rewrite IH. unfold replace_all, matchAll, calls_of_pair.
      cbn [negb andb]. now rewrite <- !app_assoc.
    + rewrite IH. unfold matchAll.
      rewrite (matchAll_loop_none _ _ _ E). cbn [length].
      now rewrite calls_of_pair_0.
Qed.

(** X18: the hooks.  The value that [replaceRefs] returns does not depend
    on the hooks.  Every pair of the batch causes, in the order of the
    batch, one call of [onReplace] for every match of its pattern in the
    content and, when there is a match, one call of [onMatch] in front of
    them; when [null] is returned no hook has been called. *)
Theorem replaceRefs_hooks_calls : forall hk refs content,
  fst (replaceRefs_hooks hk refs content) = replaceRefs refs content /\
  snd (replaceRefs_hooks hk refs content) =
    flat_map (fun r =>
                calls_of_pair hk
                  (length (matchAll (renamePattern (escapeForRegExp (old r)))
                                    content)))
             refs /\
  (replaceRefs refs content = None ->
   snd (replaceRefs_hooks hk refs content) = []).
Proof.
  intros hk refs content.
  assert (S2 : snd (replaceRefs_hooks hk refs content) =
               flat_map (fun r =>
                 calls_of_pair hk
                   (length (matchAll (renamePattern (escapeForRegExp (old r)))
                                     content)))
               refs).
  { unfold replaceRefs_hooks. rewrite replaceRefs_hooks_fold.
    destruct (fold_left _ _ _). reflexivity. }
  split; [|split; [exact S2|]].
  - unfold replaceRefs_hooks. rewrite replaceRefs_hooks_fold.
    rewrite replaceRefs_unfold.
    destruct (fold_left _ _ _). reflexivity.
  - intros N. rewrite S2. clear S2. apply replaceRefs_none_iff in N.
    induction refs as [|r refs IH]; [reflexivity|].
    cbn [existsb] in N. apply orb_false_iff in N. destruct N as [N1 N2].
    cbn [flat_map]. rewrite (IH N2), app_nil_r.
    unfold pair_matches in N1. unfold matchAll.
    destruct (regexp_exec (renamePattern (escapeForRegExp (old r))) content)
      eqn:E; [discriminate|].
    rewrite (matchAll_loop_none _ _ _ E). apply calls_of_pair_0.
Qed.

(** ** Where the reported references come from *)

Lemma regexp_exec_result : forall r s m,
  regexp_exec r s = Some m ->
  exists pre s' m0,
    s = pre ++ s' /\ match_here r s' = Some m0 /\
    m = mkResult (pre ++ before m0) (matched m0) (groups_of m0) (after m0).
Proof.
  intros r s. induction s as [|c s IH]; intros m H; cbn [regexp_exec] in H.
  - destruct (match_here r []) as [m0|] eqn:E; [|discriminate].
    injection H as <-. exists [], [], m0. destruct m0. now repeat split.
  - destruct (match_here r (c :: s)) as [m0|] eqn:E.
    + injection H as <-. exists [], (c :: s), m0. destruct m0.
      now repeat split.
    + destruct (regexp_exec r s) as [m1|]; [|discriminate].
      injection H as <-.
      destruct (IH m1 eq_refl) as (pre & s' & m0 & -> & Hm & ->).
      exists (c :: pre), s', m0. now repeat split.
Qed.

(** Every result of [matchAll] for [refRegexp] is a link token of the
    text, and its second group is the text between the brackets. *)
Lemma matchAll_loop_tokens : forall fuel s m,
  In m (matchAll_loop fuel refRegexp s) ->
  exists a tok b,
    s = a ++ str "[[" ++ tok ++ str "]]" ++ b /\
    tok <> [] /\ forallb not_bracket tok = true /\
    get_capture 2 (groups_of m) = Some tok.
Proof.
  induction fuel as [|n IH]; intros s m H; [contradiction|].
  cbn [matchAll_loop] in H.
  destruct (regexp_exec refRegexp s) as [m1|] eqn:E; [|contradiction].
  apply regexp_exec_result in E.
  destruct E as (pre & s' & m0 & -> & Hm & ->).
  apply match_here_refRegexp in Hm.
  destruct Hm as (tok & tl & -> & Hne & Hnb & ->).
  destruct H as [<- | H].
  - exists pre, tok, tl. now repeat split.
  - cbn [after] in H. destruct (IH _ _ H) as (a & tok' & b & -> & H1 & H2 & H3).
    exists (pre ++ str "[[" ++ tok ++ str "]]" ++ a), tok', b.
    repeat split; try assumption. text_eq.
Qed.

Lemma split_lines_first : forall s l ls,
  split_lines s = l :: ls -> exists b, s = l ++ b.
Proof.
  induction s as [|c s IH]; intros l ls H.
  - injection H as <- _. now exists [].
  - cbn [split_lines] in H.
    destruct (code c =? 10); [injection H as <- _; now exists (c :: s)|].
    destruct ((code c =? 13) && starts_with_lf s) eqn:E.
    + apply andb_true_iff in E. destruct E as [_ E].
      destruct s as [|y s]; [discriminate|].
      simpl in E. cbn [split_lines] in H. rewrite E in H.
      injection H as <- _. now exists (c :: y :: s).
    + destruct (split_lines s) as [|l' ls'] eqn:S.
      * injection H as <- _. now exists s.
      * injection H as <- _. destruct (IH _ _ eq_refl) as (b & ->).
        now exists b.
Qed.

Lemma split_lines_sub : forall s line,
  In line (split_lines s) -> exists a b, s = a ++ line ++ b.
Proof.
  induction s as [|c s IH]; intros line H.
  - destruct H as [<- | []]. now exists [], [].
  - cbn [split_lines] in H.
    destruct (code c =? 10).
    { destruct H as [<- | H]; [now exists [], (c :: s)|].
      destruct (IH _ H) as (a & b & ->). now exists (c :: a), b. }
    destruct ((code c =? 13) && starts_with_lf s).
    { destruct (IH _ H) as (a & b & ->). now exists (c :: a), b. }
    destruct (split_lines s) as [|l ls] eqn:S.
    + destruct H as [<- | []]. now exists [], s.
    + destruct H as [<- | H].
      * destruct (split_lines_first _ _ _ S) as (b & ->). now exists [], b.
      * destruct (IH line (or_intror H)) as (a & b & ->).
        now exists (c :: a), b.
Qed.

Lemma code_not_lf : forall c, (code c =? 10) = false -> Ascii.eqb lf c = false.
Proof.
  intros c H. destruct (Ascii.eqb lf c) eqn:E; [|reflexivity].
  apply Ascii.eqb_eq in E. subst c. discriminate.
Qed.

(** No line holds a line feed. *)
Lemma split_lines_no_lf : forall s line,
  In line (split_lines s) -> has_char lf line = false.
Proof.
  induction s as [|c s IH]; intros line H.
  - destruct H as [<- | []]. reflexivity.
  - cbn [split_lines] in H.
    destruct (code c =? 10) eqn:C.
    { destruct H as [<- | H]; [reflexivity | now apply IH]. }
    destruct ((code c =? 13) && starts_with_lf s); [now apply IH|].
    destruct (split_lines s) as [|l ls] eqn:S.
    + destruct H as [<- | []].
      rewrite has_char_cons, (code_not_lf _ C). reflexivity.
    + destruct H as [<- | H].
      * rewrite has_char_cons, (code_not_lf _ C). apply IH. now left.
      * apply IH. now right.
Qed.

(** X19: every reference that [extractDanglingRefs] reports is the parsed
    reference of a link token that stands in the content, two opening
    brackets, a text without brackets and without line feed that is not
    empty, two closing brackets, and it resolves to no uri of the cache. *)
Theorem extractDanglingRefs_reports_link_tokens : forall cache content r,
  In r (extractDanglingRefs cache content) ->
  findUriByRef (allUris cache) r = None /\
  exists a tok b,
    content = a ++ str "[[" ++ tok ++ str "]]" ++ b /\
    tok <> [] /\ forallb not_bracket tok = true /\
    has_char lf tok = false /\
    r = ref (parseRef tok).
Proof.
  intros cache content r H. apply extractDanglingRefs_member in H.
  destruct H as [H F]. split; [exact F|].
  unfold linked_refs in H. apply in_flat_map in H.
  destruct H as (line & Hl & H). apply in_flat_map in H.
  destruct H as (m & Hm & H).
  apply matchAll_loop_tokens in Hm.
  destruct Hm as (a & tok & b & E & Hne & Hnb & Hc).
  unfold token_ref in H. rewrite Hc in H.
  destruct tok as [|c tok]; [contradiction|].
  destruct H as [<- | []].
  pose proof (split_lines_no_lf _ _ Hl) as Hlf.
  apply split_lines_sub in Hl. destruct Hl as (a0 & b0 & ->).
  exists (a0 ++ a), (c :: tok), (b ++ b0). repeat split.
  - rewrite E. text_eq.
  - discriminate.
  - exact Hnb.
  - rewrite E, !has_char_app in Hlf.
    apply orb_false_iff in Hlf. destruct Hlf as [_ Hlf].
    apply orb_false_iff in Hlf. destruct Hlf as [_ Hlf].
    apply orb_false_iff in Hlf. apply Hlf.
Qed.

Lemma extractDanglingRefs_reports_link_tokens_witness :
  findUriByRef (allUris workspaceCache0) (str "b") = None /\
  exists a tok b,
    str "x [[a| b ]] y" = a ++ str "[[" ++ tok ++ str "]]" ++ b /\
    tok <> [] /\ forallb not_bracket tok = true /\
    has_char lf tok = false /\
    str "b" = ref (parseRef tok).
Proof.
  apply (extractDanglingRefs_reports_link_tokens workspaceCache0
           (str "x [[a| b ]] y") (str "b")).
  vm_compute. left. reflexivity.
Defined.

(** ** The uris of [cacheUris] and the scan *)

(** X20: [cacheUris] fills both lists of uris with the same list, the files
    of the notes that are not stubs, each once for every such note.  When
    the notes are well named every one of these files has the markdown
    extension, so the scan of [findDanglingRefsByFsPath] passes over it
    only when the file does not exist or is a directory. *)
Theorem cacheUris_lists : forall root notes cache,
  markdownUris (cacheUris root notes cache)
  = allUris (cacheUris root notes cache) /\
  Permutation (allUris (cacheUris root notes cache))
              (map (fun n => joinPath root (fname n ++ str ".md"))
                   (filter (fun n => negb (stub n)) notes)) /\
  (Forall well_named notes ->
   forall h u, In u (markdownUris (cacheUris root notes cache)) ->
     containsMarkdownExt u = true /\
     skipped h u = negb (existsSync h u) || isDirectory h u).
Proof.
  intros root notes cache. split; [reflexivity|]. split.
  - cbn [cacheUris allUris]. apply Permutation_sym, sortPaths_perm.
  - intros Hwf h u Hu. rewrite Forall_forall in Hwf.
    change (markdownUris (cacheUris root notes cache))
      with (allUris (cacheUris root notes cache)) in Hu.
    apply cacheUris_allUris in Hu. destruct Hu as (n & Hn & _ & ->).
    destruct (Hwf n Hn) as [Hne Hsl].
    assert (M : containsMarkdownExt (joinPath root (fname n ++ str ".md"))
                = true).
    { assert (Hne' : fname n ++ str ".md" <> [])
        by (destruct (fname n); discriminate).
      assert (Hs' : has_char (ascii_of_nat 47) (fname n ++ str ".md") = false)
        by (rewrite has_char_app, Hsl; reflexivity).
      destruct (basename_of_file root _ Hne' Hs') as [B1 _].
      unfold containsMarkdownExt, parse_ext.
      rewrite B1, (ext_of_md _ Hne). reflexivity. }
    split; [exact M|]. unfold skipped. rewrite M.
    destruct (existsSync h _), (isDirectory h _); reflexivity.
Qed.

(** ** The loop of [matchAll] *)

Lemma matchAll_loop_covers : forall r,
  0 < minlen r ->
  forall fuel text, length text < fuel ->
    exists tail,
      text = flat_map (fun m => before m ++ matched m)
                      (matchAll_loop fuel r text) ++ tail /\
      regexp_exec r tail = None /\
      Forall (fun m => matched m <> []) (matchAll_loop fuel r text).
Proof.
  intros r Hr. induction fuel as [|n IH]; intros text Hlen; [lia|].
  cbn [matchAll_loop].
  destruct (regexp_exec r text) as [m|] eqn:E.
  - pose proof (regexp_exec_shape _ _ _ E) as [Es Hm].
    assert (Hne : matched m <> []).
    { intros N. rewrite N in Hm. simpl in Hm. lia. }
    destruct (IH (after m)) as (tail & Ht & Hn & Hf).
    + apply (f_equal (@length ascii)) in Es. rewrite !length_app in Es. lia.
    + exists tail. split; [|split].
      * cbn [flat_map]. rewrite <- !app_assoc, <- Ht. exact Es.
      * exact Hn.
      * now constructor.
  - exists text. now repeat split.
Qed.

Lemma matchAll_rounds_global : forall r,
  0 < minlen r ->
  forall fuel text, length text < fuel ->
    matchAll_rounds fuel true r text = Some (matchAll_loop fuel r text).
Proof.
  intros r Hr. induction fuel as [|n IH]; intros text Hlen; [lia|].
  cbn [matchAll_rounds matchAll_loop].
  destruct (regexp_exec r text) as [m|] eqn:E; [|reflexivity].
  pose proof (regexp_exec_shape _ _ _ E) as [Es Hm].
  rewrite IH; [reflexivity|].
  apply (f_equal (@length ascii)) in Es. rewrite !length_app in Es. lia.
Qed.

Lemma matchAll_rounds_not_global : forall r text fuel,
  matchAll_rounds (S fuel) false r text
  = if isSome (regexp_exec r text) then None else Some [].
Proof.
  intros r text. induction fuel as [|n IH].
  - cbn [matchAll_rounds]. now destruct (regexp_exec r text).
  - change (matchAll_rounds (S (S n)) false r text)
      with (match regexp_exec r text with
            | None => Some []
            | Some m =>
                option_map (cons m) (matchAll_rounds (S n) false r text)
            end).
    rewrite IH. now destruct (regexp_exec r text).
Qed.

(** X21: the loop of [matchAll] and the flag [g].  For a pattern with the
    flag that reads at least one character the loop ends, with no more
    results than the text has characters: the results lie one after the
    other in the text, none of them is empty, and the pattern matches
    nowhere in the text behind the last.  For a pattern without the flag
    the loop ends only when the pattern does not match: on a text that it
    matches the loop never ends. *)
Theorem matchAll_ends_with_the_g_flag : forall pattern text,
  0 < minlen pattern ->
  (forall fuel, length text < fuel ->
     matchAll_rounds fuel true pattern text = Some (matchAll pattern text)) /\
  length (matchAll pattern text) <= length text /\
  (exists tail,
     text = flat_map (fun m => before m ++ matched m) (matchAll pattern text)
            ++ tail /\
     regexp_exec pattern tail = None /\
     Forall (fun m => matched m <> []) (matchAll pattern text)) /\
  (forall fuel,
     matchAll_rounds (S fuel) false pattern text
     = if isSome (regexp_exec pattern text) then None else Some []).
Proof.
  intros pattern text Hr. split; [|split; [|split]].
  - intros fuel H. rewrite (matchAll_rounds_global pattern Hr fuel text H).
    f_equal. unfold matchAll.
    apply matchAll_loop_fuel; [exact Hr | exact H | lia].
  - destruct (matchAll_loop_covers pattern Hr (S (length text)) text
                (Nat.lt_succ_diag_r _)) as (tail & Ht & _ & Hf).
    fold (matchAll pattern text) in Ht, Hf.
    apply (f_equal (@length ascii)) in Ht. rewrite length_app in Ht.
    assert (L : forall l, Forall (fun m : MatchResult => matched m <> []) l ->
                  length l <= length (flat_map (fun m => before m ++ matched m) l)).
    { induction 1 as [|m l Hm _ IH]; [simpl; lia|].
      cbn [flat_map length]. rewrite !length_app.
      destruct (matched m); [contradiction|]. simpl. lia. }
    specialize (L _ Hf). lia.
  - apply (matchAll_loop_covers pattern Hr (S (length text)) text).
    apply Nat.lt_succ_diag_r.
  - apply matchAll_rounds_not_global.
Qed.

Lemma matchAll_ends_with_the_g_flag_witness :
  (forall fuel, length (str "a [[b]] c [[d]] e") < fuel ->
     matchAll_rounds fuel true refRegexp (str "a [[b]] c [[d]] e")
     = Some (matchAll refRegexp (str "a [[b]] c [[d]] e"))) /\
  length (matchAll refRegexp (str "a [[b]] c [[d]] e"))
  <= length (str "a [[b]] c [[d]] e") /\
  (exists tail,
     str "a [[b]] c [[d]] e"
     = flat_map (fun m => before m ++ matched m)
                (matchAll refRegexp (str "a [[b]] c [[d]] e")) ++ tail /\
     regexp_exec refRegexp tail = None /\
     Forall (fun m => matched m <> [])
            (matchAll refRegexp (str "a [[b]] c [[d]] e"))) /\
  (forall fuel,
     matchAll_rounds (S fuel) false refRegexp (str "a [[b]] c [[d]] e")
     = if isSome (regexp_exec refRegexp (str "a [[b]] c [[d]] e"))
       then None else Some []).
Proof.
  apply (matchAll_ends_with_the_g_flag refRegexp (str "a [[b]] c [[d]] e")).
  vm_compute. lia.
Defined.

(** ** The link tokens of a content and the scan of [extractDanglingRefs] *)

Lemma token_text_spec : forall s t r,
  token_text s = (t, r) ->
  s = t ++ r /\ forallb token_char t = true /\
  match r with c :: _ => token_char c = false | [] => True end.
Proof.
  induction s as [|c s IH]; intros t r H; cbn [token_text] in H.
  - injection H as <- <-. now repeat split.
  - destruct (token_char c) eqn:C.
    + destruct (token_text s) as [t' r'] eqn:E. injection H as <- <-.
      destruct (IH _ _ eq_refl) as (-> & Ht & Hr).
      repeat split; [|exact Hr]. cbn [forallb]. now rewrite C, Ht.
    + injection H as <- <-. now repeat split.
Qed.

Lemma token_text_app : forall t c r,
  forallb token_char t = true -> token_char c = false ->
  token_text (t ++ c :: r) = (t, c :: r).
Proof.
  induction t as [|a t IH]; intros c r Ht Hc; cbn [app token_text].
  - now rewrite Hc.
  - cbn [forallb] in Ht. apply andb_true_iff in Ht. destruct Ht as [Ha Ht].
    now rewrite Ha, (IH c r Ht Hc).
Qed.

(** The token at the start of a text, without the scanner. *)
Lemma token_at_iff : forall s tok,
  token_at s = Some tok <->
  exists tl, s = str "[[" ++ tok ++ str "]]" ++ tl /\
             tok <> [] /\ forallb token_char tok = true.
Proof.
  intros s tok. split.
  - intros H. destruct s as [|a [|b tl]]; try discriminate.
    unfold token_at in H.
    destruct (Ascii.eqb a lbracket) eqn:A; [|discriminate].
    destruct (Ascii.eqb b lbracket) eqn:B; [|discriminate].
    cbn [andb] in H.
    destruct (token_text tl) as [t r] eqn:E.
    destruct t as [|c t]; [discriminate|].
    destruct r as [|x [|y r]]; try discriminate.
    destruct (Ascii.eqb x rbracket) eqn:X; [|discriminate].
    destruct (Ascii.eqb y rbracket) eqn:Y; [|discriminate].
    cbn [andb] in H. injection H as <-.
    apply Ascii.eqb_eq in A, B, X, Y. subst a b x y.
    apply token_text_spec in E. destruct E as (-> & Ht & _).
    exists r. split; [reflexivity | split; [discriminate | exact Ht]].
  - intros (tl & -> & Hne & Ht).
    destruct tok as [|c t]; [contradiction|].
    change (str "[[" ++ (c :: t) ++ str "]]" ++ tl)
      with (lbracket :: lbracket :: (c :: t) ++ rbracket :: rbracket :: tl).
    unfold token_at. rewrite !Ascii.eqb_refl. cbn [andb].
    rewrite (token_text_app (c :: t) rbracket (rbracket :: tl) Ht eq_refl).
    now rewrite !Ascii.eqb_refl.
Qed.

Lemma lf_code : forall c, Ascii.eqb lf c = false -> (code c =? 10) = false.
Proof.
  intros c H. destruct (code c =? 10) eqn:E; [|reflexivity].
  apply Nat.eqb_eq in E. assert (c = lf) by (apply code_inj; exact E).
  subst c. discriminate.
Qed.

Lemma token_chars : forall t,
  forallb token_char t = true <->
  forallb not_bracket t = true /\ has_char lf t = false.
Proof.
  induction t as [|c t IH]; [now split|].
  cbn [forallb]. rewrite has_char_cons. unfold token_char at 1.
  rewrite !andb_true_iff, orb_false_iff, IH, negb_true_iff. split.
  - intros [[H1 H2] [H3 H4]]. repeat split; try assumption.
    now apply code_not_lf.
  - intros [[H1 H2] [H3 H4]]. repeat split; try assumption.
    now apply lf_code.
Qed.

(** In a text without line feed the pattern [refRegexp] matches at the
    start exactly when a link token stands there. *)
Lemma token_at_match_here : forall s,
  has_char lf s = false ->
  match token_at s with
  | Some tok =>
      exists tl,
        s = str "[[" ++ tok ++ str "]]" ++ tl /\ tok <> [] /\
        match_here refRegexp s =
        Some (mkResult [] (str "[[" ++ tok ++ str "]]")
                       [(3, str "]]"); (2, tok); (1, str "[[")] tl)
  | None => match_here refRegexp s = None
  end.
Proof.
  intros s Hs. destruct (token_at s) as [tok|] eqn:T.
  - apply token_at_iff in T. destruct T as (tl & -> & Hne & Ht).
    exists tl. repeat split; [exact Hne|].
    apply match_here_refRegexp. exists tok, tl. repeat split; try assumption.
    now apply token_chars in Ht.
  - destruct (match_here refRegexp s) as [m|] eqn:M; [exfalso | reflexivity].
    apply match_here_refRegexp in M.
    destruct M as (tok & tl & -> & Hne & Hnb & _).
    assert (T' : token_at (str "[[" ++ tok ++ str "]]" ++ tl) = Some tok).
    { apply token_at_iff. exists tl. repeat split; [exact Hne|].
      apply token_chars. split; [exact Hnb|].
      rewrite !has_char_app in Hs. apply orb_false_iff in Hs.
      destruct Hs as [_ Hs]. apply orb_false_iff in Hs. apply Hs. }
    congruence.
Qed.

Lemma tokens_from_skip : forall w r,
  tokens_from (length w) (w ++ r) = tokens_from 0 r.
Proof.
  induction w as [|a w IH]; intros r; [reflexivity|].
  cbn [length app tokens_from]. apply IH.
Qed.

Lemma pushed_by_match_shift : forall cache c m,
  pushed_by_match cache (shift_result c m) = pushed_by_match cache m.
Proof. reflexivity. Qed.

(** The scan of one line: the references that the matches of [matchAll]
    push are those of the link tokens of the line that do not resolve. *)
Lemma line_scan : forall cache n s,
  length s <= n -> has_char lf s = false ->
  forall fuel, length s < fuel ->
    flat_map (pushed_by_match cache) (matchAll_loop fuel refRegexp s)
    = filter (fun r => negb (isSome (findUriByRef (allUris cache) r)))
             (map (fun tok => ref (parseRef tok)) (tokens_from 0 s)).
Proof.
  intros cache. induction n as [|n IH]; intros s Hn Hs fuel Hf.
  - destruct s; [|simpl in Hn; lia].
    destruct fuel; [lia|]. reflexivity.
  - destruct s as [|c tl]; [destruct fuel; [lia | reflexivity]|].
    destruct fuel as [|f]; [lia|].
    cbn [matchAll_loop regexp_exec tokens_from].
    pose proof (token_at_match_here (c :: tl) Hs) as T.
    destruct (token_at (c :: tl)) as [tok|].
    + destruct T as (r & E & Hne & M). rewrite M.
      cbn [after flat_map map filter].
      assert (Er : tl = (lbracket :: tok ++ str "]]") ++ r).
      { cbn [app str list_ascii_of_string] in E. injection E as _ E.
        rewrite E. cbn [app str list_ascii_of_string].
        now rewrite <- app_assoc. }
      assert (L : length tl = length tok + 3 + length r).
      { rewrite Er. cbn [length app]. rewrite !length_app. simpl. lia. }
      assert (Hr : has_char lf r = false).
      { rewrite has_char_cons in Hs. apply orb_false_iff in Hs.
        destruct Hs as [_ Hs]. rewrite Er, has_char_app in Hs.
        apply orb_false_iff in Hs. apply Hs. }
      rewrite (IH r) by (simpl in Hn, Hf; lia || exact Hr).
      replace (tokens_from (length tok + 3) tl) with (tokens_from 0 r).
      * unfold pushed_by_match. cbn [groups_of get_capture Nat.eqb].
        destruct tok as [|a t]; [contradiction|].
        destruct (isSome (findUriByRef (allUris cache)
                            (ref (parseRef (a :: t))))); reflexivity.
      * rewrite Er. rewrite <- tokens_from_skip with (w := lbracket :: tok ++ str "]]").
        f_equal. cbn [length]. rewrite length_app. simpl. lia.
    + rewrite T.
      rewrite has_char_cons in Hs. apply orb_false_iff in Hs.
      destruct Hs as [_ Hs].
      rewrite <- (IH tl) with (fuel := S f) by (simpl in Hn, Hf; lia || exact Hs).
      cbn [matchAll_loop].
      destruct (regexp_exec refRegexp tl) as [m|]; [|reflexivity].
      cbn [option_map flat_map]. reflexivity.
Qed.

Lemma split_lines_cons : forall s, exists l ls, split_lines s = l :: ls.
Proof.
  induction s as [|c s IH]; [now exists [], []|].
  cbn [split_lines]. destruct (code c =? 10); [eauto|].
  destruct ((code c =? 13) && starts_with_lf s); [exact IH|].
  destruct (split_lines s); eauto.
Qed.

(** What stands behind the first line: nothing, a line feed, or a carriage
    return and a line feed. *)
Lemma split_lines_first_sep : forall s l ls,
  split_lines s = l :: ls ->
  exists y, s = l ++ y /\
    (y = [] \/
     (exists c r, y = c :: r /\ code c = 10) \/
     (exists c d r, y = c :: d :: r /\ code c = 13 /\ code d = 10)).
Proof.
  induction s as [|c s IH]; intros l ls H.
  - injection H as <- _. exists []. split; [reflexivity | now left].
  - cbn [split_lines] in H.
    destruct (code c =? 10) eqn:C.
    { injection H as <- _. exists (c :: s). split; [reflexivity|].
      right. left. exists c, s. split; [reflexivity|]. now apply Nat.eqb_eq. }
    destruct ((code c =? 13) && starts_with_lf s) eqn:E.
    + apply andb_true_iff in E. destruct E as [E1 E2].
      destruct s as [|d s]; [discriminate|].
      simpl in E2. cbn [split_lines] in H. rewrite E2 in H.
      injection H as <- _. exists (c :: d :: s). split; [reflexivity|].
      right. right. exists c, d, s.
      repeat split; now apply Nat.eqb_eq.
    + destruct (split_lines s) as [|l' ls'] eqn:S.
      * destruct (split_lines_cons s) as (? & ? & ?). congruence.
      * injection H as <- _.
        destruct (IH _ _ eq_refl) as (y & -> & Hy). now exists y.
Qed.

Lemma app_prefix : forall (A : Type) (a b x y : list A),
  a ++ b = x ++ y -> length a <= length x -> exists r, x = a ++ r.
Proof.
  intros A a. induction a as [|c a IH]; intros b x y H L; [now exists x|].
  destruct x as [|d x]; [simpl in L; lia|].
  simpl in H. injection H as -> H.
  destruct (IH _ _ _ H) as (r & ->); [simpl in L; lia|]. now exists r.
Qed.

(** No character of a link token is a line feed. *)
Lemma token_no_lf : forall tok d,
  forallb token_char tok = true -> code d = 10 ->
  ~ In d (str "[[" ++ tok ++ str "]]").
Proof.
  intros tok d Ht Hd Hin.
  apply in_app_or in Hin. destruct Hin as [Hin | Hin].
  { destruct Hin as [<- | [<- | []]]; discriminate. }
  apply in_app_or in Hin. destruct Hin as [Hin | Hin].
  - rewrite forallb_forall in Ht. specialize (Ht d Hin).
    unfold token_char in Ht. apply andb_true_iff in Ht.
    destruct Ht as [_ Ht]. rewrite Hd in Ht. discriminate.
  - destruct Hin as [<- | [<- | []]]; discriminate.
Qed.

(** The token at the start of the first line is the token at the start of
    the content. *)
Lemma token_at_line : forall x y,
  (y = [] \/
   (exists c r, y = c :: r /\ code c = 10) \/
   (exists c d r, y = c :: d :: r /\ code c = 13 /\ code d = 10)) ->
  token_at (x ++ y) = token_at x.
Proof.
  intros x y Hy.
  assert (F : forall tok, token_at (x ++ y) = Some tok ->
                          token_at x = Some tok).
  { intros tok H. apply token_at_iff in H.
    destruct H as (tl & E & Hne & Ht).
    apply token_at_iff.
    destruct Hy as [-> | [(c & r & -> & Hc) | (c & d & r & -> & Hc & Hd)]].
    - rewrite app_nil_r in E. now exists tl.
    - rewrite !app_assoc in E. symmetry in E.
      pose proof (app_eq_behind _ _ _ _ _ _ E) as L.
      destruct (app_prefix _ _ _ _ _ E) as (r' & ->).
      + apply L. rewrite <- app_assoc. now apply token_no_lf.
      + exists r'. repeat split; try assumption.
        now rewrite <- !app_assoc.
    - change (x ++ c :: d :: r) with (x ++ [c] ++ d :: r) in E.
      rewrite !app_assoc in E. symmetry in E.
      pose proof (app_eq_behind _ _ _ _ _ _ E) as L.
      destruct (app_prefix _ _ _ _ _ E) as (r' & Er).
      + apply L. rewrite <- app_assoc. now apply token_no_lf.
      + destruct (exists_last (l := r')) as (r2 & e & ->).
        * intros ->. rewrite app_nil_r in Er.
          change (str "]]") with ([rbracket] ++ [rbracket]) in Er.
          rewrite !app_assoc in Er. apply app_inj_tail in Er.
          destruct Er as [_ ->]. discriminate.
        * rewrite app_assoc in Er. apply app_inj_tail in Er.
          destruct Er as [-> _]. exists r2.
          repeat split; try assumption. now rewrite <- !app_assoc. }
  destruct (token_at (x ++ y)) as [tok|] eqn:T.
  - symmetry. now apply F.
  - destruct (token_at x) as [tok|] eqn:T'; [|reflexivity].
    apply token_at_iff in T'. destruct T' as (tl & -> & Hne & Ht).
    assert (T2 : token_at ((str "[[" ++ tok ++ str "]]" ++ tl) ++ y) = Some tok).
    { apply token_at_iff. exists (tl ++ y). repeat split; try assumption.
      now rewrite <- !app_assoc. }
    congruence.
Qed.

Lemma token_at_head : forall c s tok,
  token_at (c :: s) = Some tok -> c = lbracket.
Proof.
  intros c s tok H. apply token_at_iff in H. destruct H as (tl & E & _).
  now injection E.
Qed.

(** The tokens of a content are those of its lines, line after line. *)
Lemma tokens_from_lines : forall content l ls k,
  split_lines content = l :: ls -> k <= length l ->
  tokens_from k content = tokens_from k l ++ flat_map (tokens_from 0) ls.
Proof.
  induction content as [|c tl IH]; intros l ls k H Hk.
  - injection H as <- <-. destruct k; reflexivity.
  - pose proof (split_lines_first_sep _ _ _ H) as Sep.
    cbn [split_lines] in H.
    assert (Skip : forall l0 ls0, split_lines tl = l0 :: ls0 ->
                     c <> lbracket ->
                     tokens_from 0 (c :: tl)
                     = flat_map (tokens_from 0) (l0 :: ls0)).
    { intros l0 ls0 S Hc. cbn [tokens_from].
      destruct (token_at (c :: tl)) as [tok|] eqn:T.
      - apply token_at_head in T. contradiction.
      - cbn [flat_map]. apply (IH _ _ 0 S). lia. }
    destruct (code c =? 10) eqn:C.
    { injection H as <- <-. destruct k; [|simpl in Hk; lia].
      destruct (split_lines_cons tl) as (l0 & ls0 & S). rewrite S.
      cbn [tokens_from app]. rewrite <- (Skip _ _ S); [reflexivity|].
      intros ->. discriminate. }
    destruct ((code c =? 13) && starts_with_lf tl) eqn:E.
    + apply andb_true_iff in E. destruct E as [E1 E2].
      destruct tl as [|d tl]; [discriminate|].
      simpl in E2. pose proof H as H'. cbn [split_lines] in H'.
      rewrite E2 in H'. injection H' as <- _.
      destruct k; [|simpl in Hk; lia].
      rewrite (Skip _ _ H); [reflexivity|].
      intros ->. discriminate.
    + destruct (split_lines tl) as [|l' ls'] eqn:S.
      * destruct (split_lines_cons tl) as (? & ? & ?). congruence.
      * injection H as <- <-. destruct k as [|k].
        -- cbn [tokens_from].
           destruct Sep as (y & Ey & Hy).
           assert (T : token_at (c :: tl) = token_at (c :: l')).
           { rewrite Ey. now apply token_at_line. }
           rewrite T. destruct (token_at (c :: l')) as [tok|] eqn:T'.
           ++ apply token_at_iff in T'. destruct T' as (r & Er & _).
              cbn [app]. f_equal. apply (IH _ _ _ eq_refl).
              apply (f_equal (@length ascii)) in Er.
              cbn [length app str list_ascii_of_string] in Er.
              rewrite !length_app in Er. simpl in Er. lia.
           ++ apply (IH _ _ 0 eq_refl). lia.
        -- cbn [tokens_from]. apply (IH _ _ _ eq_refl).
           simpl in Hk. lia.
Qed.

Lemma link_tokens_lines : forall content,
  flat_map (tokens_from 0) (split_lines content) = link_tokens content.
Proof.
  intros content. destruct (split_lines_cons content) as (l & ls & S).
  rewrite S. cbn [flat_map]. symmetry.
  apply (tokens_from_lines _ _ _ 0 S). lia.
Qed.

(** The array [refs] of the source when the scan has ended holds the
    references of the link tokens of the content that do not resolve. *)
Lemma pushed_refs_tokens : forall cache content,
  pushed_refs cache content = unresolved_refs cache content.
Proof.
  intros cache content. unfold pushed_refs, unresolved_refs.
  rewrite <- link_tokens_lines.
  assert (L : forall line, In line (split_lines content) ->
                has_char lf line = false)
    by (intros line; apply split_lines_no_lf).
  induction (split_lines content) as [|line lines IH]; [reflexivity|].
  cbn [flat_map]. rewrite map_app, filter_app.
  rewrite <- IH by (intros x Hx; apply L; now right).
  f_equal. unfold matchAll.
  apply (line_scan cache (length line)); [lia | apply L; now left | lia].
Qed.

(** C10: the list that [extractDanglingRefs] returns is ordered by first
    occurrence and free of duplicates.  Its elements are the references of
    the link tokens of the content that resolve to no uri; they stand in
    the order in which the first token of each is met when the content is
    read from top to bottom and, in a line, from left to right, and every
    one of them stands once. *)
Theorem extractDanglingRefs_first_occurrences : forall cache content,
  NoDup (extractDanglingRefs cache content) /\
  (forall r, In r (extractDanglingRefs cache content) <->
             In r (unresolved_refs cache content)) /\
  StronglySorted lt (map (first_index (unresolved_refs cache content))
                         (extractDanglingRefs cache content)).
Proof.
  intros cache content. unfold extractDanglingRefs.
  rewrite pushed_refs_tokens. apply array_from_set_spec.
Qed.

Example link_tokens_of_lines :
  link_tokens (str "[[a]] [[b|c]] [[]]
[[d
e]] [x] [[f]]] [[g")
  = [str "a"; str "b|c"; str "f"].
Proof. reflexivity. Qed.
